(** * Lattice-boosting graphs (egs/librispeech/s5/lattice_boosting)

    A shallow embedding of [boosting_fst_lib.py]: the class
    [BoostingFstBuilder] with its constructor, the raw prefix automaton of
    [__gen_initial_graph] and the rewrite of [lattice_boosting_graph],
    together with the part of the [pywrapfst] interface these functions
    drive (states, arcs, final weights of a mutable [VectorFst]); and of
    the command-line tool [make_sigle_boosting_graph.py]: the
    tokenization of the phrase file and [main], from the parsed command
    line on.

    Conventions of the embedding:
    - a Python exception is a value of [PyExc]; a call that may raise
      returns [res A = PyExc + A] and is sequenced with [x ← e; k];
    - the mutable automaton [f] is threaded explicitly: every [pywrapfst]
      mutator returns the updated automaton;
    - [logging.warning] appends a record to a list of warnings that is
      returned next to the automaton;
    - state ids are [nat]; [f.start() == -1] (no start state) is [None];
    - labels are [Z] (the [i4] column of [words.txt]);
    - a weight is an element of a carrier [W] with the arithmetic Python
      performs on it ([Weight]); [to_weight] is the conversion the
      library applies to a Python float handed over as a weight (it
      stores a binary32 tropical weight and refuses what is none); the
      literal [0.0] is stored as it is; the infinite weight
      [float("inf")] (the semiring's zero, "not final") is [None] in a
      [final] field. *)

From Stdlib Require Import ZArith Floats Uint63 Lia.
From stdpp Require Import gmap strings list fin_maps sorting.

(** ** Exceptions and fallible calls *)

Inductive PyExc : Type :=
| KeyError (key : string)
| ValueError (msg : string)
| TypeError (msg : string)
| FstIndexError (msg : string)
| FstBadWeightError
| ExternalError (cls : string).

(** The class name of an exception; [ExternalError] stands for whatever an
    external collaborator ([np.loadtxt], [fst.determinize]) raises. *)
Definition exc_class (e : PyExc) : string :=
  match e with
  | KeyError _ => "KeyError"
  | ValueError _ => "ValueError"
  | TypeError _ => "TypeError"
  | FstIndexError _ => "FstIndexError"
  | FstBadWeightError => "FstBadWeightError"
  | ExternalError cls => cls
  end.

Abbreviation res := (sum PyExc).

Definition raise {A : Type} (e : PyExc) : res A := inl e.

#[global] Instance res_ret : MRet res := λ A x, inr x.
#[global] Instance res_bind : MBind res :=
  λ A B k m, match m with inl e => inl e | inr x => k x end.

(** A [for x in xs:] loop whose body may raise, threading the loop state. *)
Fixpoint for_each {A S : Type} (body : S → A → res S) (xs : list A) (s : S)
  : res S :=
  match xs with
  | [] => mret s
  | x :: xs' => s' ← body s x; for_each body xs' s'
  end.

(** ** Weights *)

(** The arithmetic the builder performs on weights:
    [len(ints) * word_discount + phrase_discount] and the literal [0.0];
    and [to_weight], what the library makes of a Python float that is
    handed to it as the weight of an arc: the weight it stores, or the
    exception it raises. *)
Class Weight (W : Type) : Type := {
  w_zero : W;
  w_of_len : nat → W;
  w_mul : W → W → W;
  w_add : W → W → W;
  to_weight : W → res W;
}.

(** Python floats are IEEE binary64 numbers; a tropical weight of the
    library is a binary32 number.  [to_binary32] rounds to the nearest
    binary32 number, ties to even, and to an infinity past the largest
    one; every binary32 number is a binary64 number, and is held as
    such. *)
Definition to_binary32 (x : float) : float :=
  match Prim2SF x with
  | S754_finite s m e =>
      SF2Prim (binary_normalize 24 128 (cond_Zopp s (Zpos m)) e s)
  | _ => x
  end.

(** A NaN and minus infinity are no tropical weights: the library
    refuses them with [FstBadWeightError]. *)
Definition float_to_weight (x : float) : res float :=
  let y := to_binary32 x in
  if PrimFloat.is_nan y || PrimFloat.eqb y neg_infinity
  then raise FstBadWeightError
  else mret y.

#[global] Instance float_weight : Weight float := {|
  w_zero := 0%float;
  w_of_len := λ n, PrimFloat.of_uint63 (Uint63.of_Z (Z.of_nat n));
  w_mul := PrimFloat.mul;
  w_add := PrimFloat.add;
  to_weight := float_to_weight;
|}.

(** ** The automaton interface ([pywrapfst]) *)

Module Fst.

Record Arc (W : Type) : Type := mkArc {
  ilabel : Z;
  olabel : Z;
  weight : W;
  nextstate : nat;
}.
Arguments mkArc {W} _ _ _ _.
Arguments ilabel {W} _.
Arguments olabel {W} _.
Arguments weight {W} _.
Arguments nextstate {W} _.

Record State (W : Type) : Type := mkState {
  final : option W;
  arcs : list (Arc W);
}.
Arguments mkState {W} _ _.
Arguments final {W} _.
Arguments arcs {W} _.

Record VectorFst (W : Type) : Type := mkFst {
  start : option nat;
  states : list (State W);
}.
Arguments mkFst {W} _ _.
Arguments start {W} _.
Arguments states {W} _.

Section ops.
Context {W : Type}.
Implicit Types (f : VectorFst W) (s : nat) (a : Arc W).

(** [fst.VectorFst()] *)
Definition empty : VectorFst W := mkFst None [].

Definition num_states f : nat := length (states f).

Definition out_of_range : PyExc := FstIndexError "State index out of range".

(** [f.add_state()]: the new state gets the next id, is not final and
    has no arcs. *)
Definition add_state f : nat * VectorFst W :=
  (num_states f, mkFst (start f) (states f ++ [mkState None []])).

(** [f.set_start(s)] *)
Definition set_start f s : res (VectorFst W) :=
  match states f !! s with
  | Some _ => mret (mkFst (Some s) (states f))
  | None => raise out_of_range
  end.

(** [f.add_arc(s, a)]: the arc is appended to the arcs leaving [s]. *)
Definition add_arc f s a : res (VectorFst W) :=
  match states f !! s with
  | Some st =>
      mret (mkFst (start f)
              (<[s := mkState (final st) (arcs st ++ [a])]> (states f)))
  | None => raise out_of_range
  end.

(** [f.final(s)] *)
Definition get_final f s : res (option W) :=
  match states f !! s with
  | Some st => mret (final st)
  | None => raise out_of_range
  end.

(** [f.set_final(s, w)] *)
Definition set_final f s (w : option W) : res (VectorFst W) :=
  match states f !! s with
  | Some st => mret (mkFst (start f) (<[s := mkState w (arcs st)]> (states f)))
  | None => raise out_of_range
  end.

(** Observers used in the statements. *)
Definition arcs_from f s : list (Arc W) :=
  match states f !! s with Some st => arcs st | None => [] end.

Definition final_weight f s : option W :=
  match states f !! s with Some st => final st | None => None end.

Definition final_states f : list nat :=
  filter (λ s, is_Some (final_weight f s)) (seq 0 (num_states f)).

End ops.

End Fst.

Import Fst.

(** ** The builder *)

Record Warning : Type := mkWarning {
  oovs : list string;
  skipped_phrase : list string;
}.

Record BoostingFstBuilder : Type := mkBuilder {
  word_to_int : gmap string Z;
  rho_int : Z;
}.

(** [d[k]] and [del d[k]] on a Python dict. *)
Definition dict_get (d : gmap string Z) (k : string) : res Z :=
  match d !! k with Some v => mret v | None => raise (KeyError k) end.

Definition dict_del (d : gmap string Z) (k : string) : res (gmap string Z) :=
  match d !! k with Some _ => mret (delete k d) | None => raise (KeyError k) end.

(** [{w: i for w, i in rows}]: a later row overrides an earlier one. *)
Definition dict_of_rows (rows : list (string * Z)) : gmap string Z :=
  foldl (λ d r, <[r.1 := r.2]> d) ∅ rows.

(** [for w, i in array]: the loader returns the rows of a table as a
    one-dimensional array, but a table of exactly one row as a
    zero-dimensional one, and that cannot be iterated. *)
Definition iter_rows (rows : list (string * Z)) : res (list (string * Z)) :=
  match rows with
  | [_] => raise (TypeError "iteration over a 0-d array")
  | _ => mret rows
  end.

Section init.
(** [np.loadtxt(words_txt, dtype="object,i4", comments=None)], the
    external loader of the two-column table: the rows, or the exception
    it raises on a malformed table. *)
Variable loadtxt : string → res (list (string * Z)).

Definition __init__ (words_txt : string) : res BoostingFstBuilder :=
  rows ← loadtxt words_txt;
  rows ← iter_rows rows;
  let word_to_int := dict_of_rows rows in
  word_to_int ← dict_del word_to_int "<eps>";
  rho_int ← dict_get word_to_int "#0";
  word_to_int ← dict_del word_to_int "#0";
  mret (mkBuilder word_to_int rho_int).
End init.

(** The dict and the wildcard id the constructor keeps of the rows it
    could iterate. *)
Definition builder_of_rows (rows : list (string * Z)) : res BoostingFstBuilder :=
  match dict_of_rows rows !! "<eps>", dict_of_rows rows !! "#0" with
  | None, _ => inl (KeyError "<eps>")
  | Some _, None => inl (KeyError "#0")
  | Some _, Some rho =>
      inr (mkBuilder (delete "#0" (delete "<eps>" (dict_of_rows rows))) rho)
  end.

Section graph.
Context {W : Type} `{!Weight W}.

(** [[word_to_int[w] for w in boosted_phrase]] *)
Fixpoint lookup_words (word_to_int : gmap string Z) (ws : list string)
  : res (list Z) :=
  match ws with
  | [] => mret []
  | w :: ws' =>
      i ← dict_get word_to_int w;
      ints ← lookup_words word_to_int ws';
      mret (i :: ints)
  end.

(** [[w for w in boosted_phrase if w not in set(word_to_int.keys())]] *)
Definition oov_words (word_to_int : gmap string Z) (ws : list string)
  : list string :=
  filter (λ w, word_to_int !! w = None) ws.

(** [*w_rest, w_last = xs] *)
Fixpoint unpack_last {A : Type} (xs : list A) : res (list A * A) :=
  match xs with
  | [] => raise (ValueError "not enough values to unpack")
  | [x] => mret ([], x)
  | x :: xs' => '(rest, l) ← unpack_last xs'; mret (x :: rest, l)
  end.

(** [fst.Arc(ilabel, olabel, weight, nextstate)] for a computed
    [weight]: the arc holds what the library makes of it, and there is no
    arc when the library refuses it.  The arcs and final weights that
    the code builds from the literal [0.0] hold [w_zero]. *)
Definition new_arc (ilabel olabel : Z) (weight : W) (nextstate : nat)
  : res (Arc W) :=
  weight ← to_weight weight;
  mret (mkArc ilabel olabel weight nextstate).

(** The inner loop [for w in w_rest:], on the pair [(f, s_prev)]. *)
Definition prefix_step (acc : VectorFst W * nat) (w : Z)
  : res (VectorFst W * nat) :=
  let '(f, s_prev) := acc in
  let '(s_next, f) := add_state f in
  f ← add_arc f s_prev (mkArc w w w_zero s_next);
  mret (f, s_next).

(** The body of the loop [for boosted_phrase in boosted_phrases:], on
    the pair of the automaton and the warnings logged so far. *)
Definition phrase_step (word_to_int : gmap string Z)
    (word_discount phrase_discount : W) (s_start : nat)
    (acc : VectorFst W * list Warning) (boosted_phrase : list string)
  : res (VectorFst W * list Warning) :=
  let '(f, log) := acc in
  match lookup_words word_to_int boosted_phrase with
  | inl (KeyError _) =>
      let oovs := oov_words word_to_int boosted_phrase in
      mret (f, log ++ [mkWarning oovs boosted_phrase])
  | inl e => raise e
  | inr boosted_phrase_ints =>
      if (length boosted_phrase_ints =? 0)%nat then mret (f, log)
      else
        '(w_rest, w_last) ← unpack_last boosted_phrase_ints;
        '(f, s_prev) ← for_each prefix_step w_rest (f, s_start);
        let weight :=
          w_add (w_mul (w_of_len (length boosted_phrase_ints)) word_discount)
                phrase_discount in
        let '(s_next, f) := add_state f in
        arc ← new_arc w_last w_last weight s_next;
        f ← add_arc f s_prev arc;
        f ← set_final f s_next (Some w_zero);
        mret (f, log)
  end.

Definition __gen_initial_graph (boosted_phrases : list (list string))
    (word_to_int : gmap string Z) (word_discount phrase_discount : W)
  : res (VectorFst W * list Warning) :=
  let f := Fst.empty in
  let '(s_start, f) := add_state f in
  f ← set_start f s_start;
  for_each (phrase_step word_to_int word_discount phrase_discount s_start)
           boosted_phrases (f, []).

(** [fst.determinize], the external determinization routine: the
    determinized automaton, or the exception the library raises. *)
Variable determinize : VectorFst W → res (VectorFst W).

(** The body of [for s in range(f.num_states()):]. *)
Definition rewrite_step (s_start : nat) (f : VectorFst W) (s : nat)
  : res (VectorFst W) :=
  if decide (s ≠ s_start) then
    f ← add_arc f s (mkArc 0 0 w_zero s_start);
    w ← get_final f s;
    if decide (w ≠ None) then set_final f s None else mret f
  else mret f.

Definition lattice_boosting_graph (self : BoostingFstBuilder)
    (boosted_phrases : list (list string))
    (word_discount phrase_discount : W)
  : res (VectorFst W * list Warning) :=
  '(f, log) ← __gen_initial_graph boosted_phrases (word_to_int self)
                word_discount phrase_discount;
  f ← determinize f;
  match start f with
  | None =>
      (* [f.start()] is -1: the closing [f.set_final(-1, 0.0)] raises *)
      raise out_of_range
  | Some s_start =>
      f ← for_each (rewrite_step s_start) (seq 0 (num_states f)) f;
      f ← set_final f s_start (Some w_zero);
      let rho := rho_int self in
      f ← add_arc f s_start (mkArc rho rho w_zero s_start);
      mret (f, log)
  end.
End graph.


(** * Vocabulary of the statements *)

Section observers.
Context {W : Type} `{!Weight W}.
Implicit Types (f d raw : VectorFst W) (l : list Z).

(** The automaton has a start state, and it is one of its states. *)
Definition has_start f : Prop :=
  ∃ s, start f = Some s ∧ s < num_states f.

(** The (input, output) label pairs and the target states of all arcs. *)
Definition arc_labels f : list (Z * Z) :=
  st ← states f; (λ a, (ilabel a, olabel a)) <$> arcs st.

Definition arc_targets f : list nat :=
  st ← states f; nextstate <$> arcs st.

(** Every label pair of [d] labels some arc of [raw]. *)
Definition labels_from d raw : Prop :=
  Forall (λ x, x ∈ arc_labels raw) (arc_labels d).

(** The paths that leave [s] and read [labels] on both tapes: the state
    each one ends in and its weight, the arc weights added to [acc] in
    path order. *)
Fixpoint paths f (s : nat) (labels : list Z) (acc : W) : list (nat * W) :=
  match labels with
  | [] => [(s, acc)]
  | x :: labels' =>
      a ← arcs_from f s;
      if decide (ilabel a = x ∧ olabel a = x)
      then paths f (nextstate a) labels' (w_add acc (weight a))
      else []
  end.

Definition is_epsilon (a : Arc W) : Prop := ilabel a = 0%Z ∧ olabel a = 0%Z.

Definition is_wildcard (rho : Z) (a : Arc W) : Prop :=
  ilabel a = rho ∧ olabel a = rho.

#[global] Instance is_epsilon_dec (a : Arc W) : Decision (is_epsilon a).
Proof. unfold is_epsilon. apply _. Defined.

#[global] Instance is_wildcard_dec (rho : Z) (a : Arc W) :
  Decision (is_wildcard rho a).
Proof. unfold is_wildcard. apply _. Defined.
End observers.

(** Every word of the phrase is a key of the usable lookup table. *)
Definition in_vocab (word_to_int : gmap string Z) (p : list string) : Prop :=
  Forall (λ w, is_Some (word_to_int !! w)) p.

#[global] Instance in_vocab_dec (word_to_int : gmap string Z) (p : list string) :
  Decision (in_vocab word_to_int p).
Proof. unfold in_vocab. apply _. Defined.

(** No usable entry carries one of the two reserved ids. *)
Definition valid_vocabulary (self : BoostingFstBuilder) : Prop :=
  map_Forall (λ _ i, i ≠ 0%Z ∧ i ≠ rho_int self) (word_to_int self).

#[global] Instance valid_vocabulary_dec (self : BoostingFstBuilder) :
  Decision (valid_vocabulary self).
Proof. unfold valid_vocabulary. apply _. Defined.

Section accepted.
Context {W : Type} `{!Weight W}.

(** The projected id sequence of an accepted phrase: every word is
    mapped and the sequence is not empty. *)
Definition phrase_ints (word_to_int : gmap string Z) (p : list string)
  : option (list Z) :=
  match lookup_words word_to_int p with
  | inr (i :: l) => Some (i :: l)
  | _ => None
  end.

Definition accepted_ints (word_to_int : gmap string Z)
    (phrases : list (list string)) : list (list Z) :=
  omap (phrase_ints word_to_int) phrases.

(** The warnings of a build: one per phrase with a missing word. *)
Definition warnings_of (word_to_int : gmap string Z)
    (phrases : list (list string)) : list Warning :=
  (λ p, mkWarning (oov_words word_to_int p) p)
    <$> filter (λ p, ¬ in_vocab word_to_int p) phrases.
End accepted.

(** ** The shape of the raw automaton *)

Section shape.
Context {W : Type} `{!Weight W}.
Implicit Types (sts : list (State W)) (l : list Z).

(** Appending an arc to the arcs of a state; changing its final weight. *)
Definition add_out (a : Arc W) (st : State W) : State W :=
  mkState (final st) (arcs st ++ [a]).

Definition with_final (w : option W) (st : State W) : State W :=
  mkState w (arcs st).

(** The boost of a phrase, as Python computes it, and the weight that
    is stored for it on the arc of the phrase's last word (where the
    library accepts the boost). *)
Definition phrase_weight (wd pd : W) (l : list Z) : W :=
  w_add (w_mul (w_of_len (length l)) wd) pd.

Definition stored_weight (wd pd : W) (l : list Z) : W :=
  match to_weight (phrase_weight wd pd l) with
  | inr X => X
  | inl _ => w_zero
  end.

(** The exception of the first of the id sequences [ls] whose boost the
    library refuses. *)
Fixpoint boost_error (wd pd : W) (ls : list (list Z)) : option PyExc :=
  match ls with
  | [] => None
  | l :: ls' =>
      match to_weight (phrase_weight wd pd l) with
      | inl e => Some e
      | inr _ => boost_error wd pd ls'
      end
  end.

(** The arcs of the chain of a phrase with ids [l] whose states start at
    [n]: the word at position [j] leads to state [n + j]; the weight [X]
    sits on the last one. *)
Definition chain_arcs (X : W) (n : nat) (l : list Z) : list (Arc W) :=
  imap (λ j a, mkArc a a (if decide (S j = length l) then X else w_zero) (n + j)) l.

(** The states a chain adds: one per arc, the last one final. *)
Definition chain_states (cs : list (Arc W)) : list (State W) :=
  ((λ a, mkState None [a]) <$> tail cs) ++ [mkState (Some w_zero) []].

Definition add_chain (s_start : nat) sts (cs : list (Arc W))
  : list (State W) :=
  match cs with
  | [] => sts
  | a0 :: _ => alter (add_out a0) s_start sts ++ chain_states cs
  end.

(** The state the arc of the word at position [j] leaves, in a chain
    whose states start at [n]: the start state for the first word, the
    state entered by the previous word otherwise. *)
Definition chain_source (n j : nat) : nat :=
  match j with 0 => 0 | S j' => n + j' end.

(** Every state of [sts] is still there in [sts'], as final as before
    and with all the arcs it had. *)
Definition grows_to sts sts' : Prop :=
  ∀ s st, sts !! s = Some st →
    ∃ st', sts' !! s = Some st' ∧ final st' = final st
           ∧ ∀ a, a ∈ arcs st → a ∈ arcs st'.

Definition targets_of sts : list nat := st ← sts; nextstate <$> arcs st.

(** A property of every arc of a list of states. *)
Definition arcs_all (P : Arc W → Prop) sts : Prop :=
  Forall (λ st, Forall P (arcs st)) sts.

(** One more state, entered from [s] by the arc [a]. *)
Definition extend sts (s : nat) (a : Arc W) : list (State W) :=
  alter (add_out a) s sts ++ [mkState None []].

(** The states after walking a prefix with arcs [cs] from [s], and the
    state the walk ends in. *)
Definition grow (s : nat) sts (cs : list (Arc W)) : list (State W) * nat :=
  match cs with
  | [] => (sts, s)
  | a0 :: rest =>
      (alter (add_out a0) s sts
         ++ ((λ a, mkState None [a]) <$> rest) ++ [mkState None []],
       length sts + length rest)
  end.

(** The states of the raw automaton of the accepted id sequences [ls]. *)
Definition raw_step (wd pd : W) sts l : list (State W) :=
  add_chain 0 sts (chain_arcs (stored_weight wd pd l) (length sts) l).

Definition raw_states (wd pd : W) (ls : list (list Z)) : list (State W) :=
  foldl (raw_step wd pd) [mkState None []] ls.

(** A state after its turn of the rewrite loop, and the states of the
    rewritten automaton. *)
Definition step_state (s_start : nat) (s : nat) (st : State W) : State W :=
  if decide (s = s_start) then st
  else mkState None (arcs st ++ [mkArc 0 0 w_zero s_start]).

Definition rewrite_state (s_start : nat) (rho : Z) (s : nat) (st : State W)
  : State W :=
  if decide (s = s_start)
  then mkState (Some w_zero) (arcs st ++ [mkArc rho rho w_zero s_start])
  else mkState None (arcs st ++ [mkArc 0 0 w_zero s_start]).
End shape.

(** ** Further observers *)

Section more_observers.
Context {W : Type} `{!Weight W}.
Implicit Types (f : VectorFst W) (sts : list (State W)) (l : list Z).

(** The automaton accepts the label sequence: some path from the start
    state reads it on both tapes and ends in a final state. *)
Definition accepts f (labels : list Z) : Prop :=
  ∃ s_start s w,
    start f = Some s_start ∧ (s, w) ∈ paths f s_start labels w_zero ∧
    is_Some (final_weight f s).

(** The state at position [j] of the chain with arcs [cs]: it holds the
    arc of the next word, or is the final state that ends the chain. *)
Definition chain_state (cs : list (Arc W)) (j : nat) : State W :=
  match cs !! S j with
  | Some a => mkState None [a]
  | None => mkState (Some w_zero) []
  end.

(** The arcs the chains of [ls] add to the start state when the first of
    them starts at state [n]. *)
Fixpoint start_arcs (wd pd : W) (n : nat) (ls : list (list Z))
  : list (Arc W) :=
  match ls with
  | [] => []
  | l :: ls' =>
      match chain_arcs (stored_weight wd pd l) n l with
      | [] => start_arcs wd pd n ls'
      | a0 :: _ => a0 :: start_arcs wd pd (n + length l) ls'
      end
  end.

(** An automaton without its weights: per state, whether it is final and
    the labels and target of each arc. *)
Definition arc_shape (a : Arc W) : Z * Z * nat :=
  (ilabel a, olabel a, nextstate a).

Definition state_shape (st : State W) : bool * list (Z * Z * nat) :=
  (bool_decide (is_Some (final st)), arc_shape <$> arcs st).

Definition skeleton f : option nat * list (bool * list (Z * Z * nat)) :=
  (start f, state_shape <$> states f).
#[global] Instance has_start_dec f : Decision (has_start f).
Proof.
  refine (match start f as o return start f = o → _ with
          | Some s => λ Hs,
              match decide (s < num_states f) with
              | left Hlt => left _
              | right Hge => right _
              end
          | None => λ Hs, right _
          end eq_refl).
  - by exists s.
  - intros (s' & Hs' & Hlt). congruence.
  - intros (s' & Hs' & _). congruence.
Defined.
End more_observers.

(** The last states of the chains of [ls], the first chain starting
    after state [n]: the running sums of the lengths. *)
Fixpoint chain_ends (n : nat) (ls : list (list Z)) : list nat :=
  match ls with
  | [] => []
  | l :: ls' => (n + length l) :: chain_ends (n + length l) ls'
  end.

(** ** An executable determinization *)

(** Modelled from the spec: [fst.determinize], the determinization routine
    of the automaton library (section 4.3), which is no part of the
    repository.  The statements below hold for any [determinize] and name
    what they need from its result; to run them, here is the library's
    algorithm for acceptors over the tropical semiring (min, +) on
    binary64 weights: weighted subset construction, the states numbered
    in order of discovery, the arcs of a state by increasing label.  A
    subset pairs each of its states with a residual weight; residuals are
    compared with [PrimFloat.eqb] and are not quantised. *)
Module Determinize.

Definition subset : Type := list (nat * float).

Definition fmin (x y : float) : float := if PrimFloat.ltb y x then y else x.

Definition min_weight (ws : list float) : float := foldr fmin infinity ws.

(** The moves of a subset: label, target, residual plus arc weight. *)
Definition successors (f : VectorFst float) (T : subset)
  : list (Z * (nat * float)) :=
  qr ← T; a ← arcs_from f qr.1;
  [(ilabel a, (nextstate a, (qr.2 + weight a)%float))].

(** The weight of the arc labelled [x] and the subset it leads to. *)
Definition label_arc (succ : list (Z * (nat * float))) (x : Z)
  : float * subset :=
  let ds := snd <$> filter (λ m, m.1 = x) succ in
  let w := min_weight (snd <$> ds) in
  let qs := merge_sort le (remove_dups (fst <$> ds)) in
  (w, (λ q, (q, (min_weight (snd <$> filter (λ d, d.1 = q) ds) - w)%float))
        <$> qs).

Fixpoint subset_eqb (T1 T2 : subset) : bool :=
  match T1, T2 with
  | [], [] => true
  | (q1, r1) :: T1', (q2, r2) :: T2' =>
      (q1 =? q2) && PrimFloat.eqb r1 r2 && subset_eqb T1' T2'
  | _, _ => false
  end.

Fixpoint find_subset (T : subset) (table : list subset) (i : nat)
  : option nat :=
  match table with
  | [] => None
  | T' :: table' =>
      if subset_eqb T T' then Some i else find_subset T table' (S i)
  end.

(** The arcs leaving the subset [T], and the table extended by the
    subsets met for the first time. *)
Definition expand (f : VectorFst float) (table : list subset) (T : subset)
  : list subset * list (Arc float) :=
  let succ := successors f T in
  let labels := merge_sort Z.le (remove_dups (fst <$> succ)) in
  foldl (λ acc x,
           let '(w, T') := label_arc succ x in
           match find_subset T' acc.1 0 with
           | Some k => (acc.1, acc.2 ++ [mkArc x x w k])
           | None => (acc.1 ++ [T'], acc.2 ++ [mkArc x x w (length acc.1)])
           end)
        (table, []) labels.

Definition subset_final (f : VectorFst float) (T : subset) : option float :=
  match omap (λ qr, (λ w, (qr.2 + w)%float) <$> final_weight f qr.1) T with
  | [] => None
  | ws => Some (min_weight ws)
  end.

(** Expand the subsets of the table in order until none is left. *)
Fixpoint det_loop (fuel : nat) (f : VectorFst float) (table : list subset)
    (done : list (State float)) : option (list (State float)) :=
  match table !! length done with
  | None => Some done
  | Some T =>
      match fuel with
      | 0 => None
      | S fuel' =>
          let '(table', out) := expand f table T in
          det_loop fuel' f table' (done ++ [mkState (subset_final f T) out])
      end
  end.

Definition determinize (f : VectorFst float) : res (VectorFst float) :=
  match start f with
  | None => mret Fst.empty
  | Some s =>
      match det_loop (2 ^ num_states f) f [[(s, 0%float)]] [] with
      | Some sts => mret (mkFst (Some 0) sts)
      | None => raise (ExternalError "FstOpError")
      end
  end.

End Determinize.

(** * The command-line tool ([make_sigle_boosting_graph.py]) *)

Module make_sigle_boosting_graph.

(** A [str] is held as a [string] with one character per code point, so
    the strings of this model are those of code points below 256. *)

(** [c.isspace()]: the whitespace code points below 256 are the controls
    9 to 13 and 28 to 31, the space, NEL (133) and the no-break space
    (160). *)
Definition isspace (c : Ascii.ascii) : bool :=
  let n := Ascii.nat_of_ascii c in
  ((9 <=? n) && (n <=? 13)) || ((28 <=? n) && (n <=? 31))
  || (n =? 32) || (n =? 133) || (n =? 160).

(** [s.lstrip()], [s.rstrip()] and [s.strip()] *)
Fixpoint lstrip (s : list Ascii.ascii) : list Ascii.ascii :=
  match s with
  | [] => []
  | c :: s' => if isspace c then lstrip s' else s
  end.

Definition rstrip (s : list Ascii.ascii) : list Ascii.ascii :=
  reverse (lstrip (reverse s)).

Definition strip (s : list Ascii.ascii) : list Ascii.ascii := rstrip (lstrip s).

(** [s.split()]: the maximal runs of characters that are not whitespace,
    from left to right; [cur] holds, last character first, the run being
    read. *)
Definition push (tok : list Ascii.ascii) (toks : list (list Ascii.ascii))
  : list (list Ascii.ascii) :=
  match tok with [] => toks | _ => tok :: toks end.

Fixpoint split_from (cur s : list Ascii.ascii) : list (list Ascii.ascii) :=
  match s with
  | [] => push (reverse cur) []
  | c :: s' =>
      if isspace c then push (reverse cur) (split_from [] s')
      else split_from (c :: cur) s'
  end.

Definition split (s : list Ascii.ascii) : list (list Ascii.ascii) := split_from [] s.

(** [line.strip().split()] *)
Definition tokenize (line : string) : list string :=
  String.string_of_list_ascii <$> split (strip (String.list_ascii_of_string line)).

(** The parsed command line: the [Namespace] returned by [parse_args]. *)
Record Namespace (W : Type) : Type := mkNamespace {
  word_discount : W;
  phrase_discount : W;
  words_txt : string;
  boosted_phrases : string;
  fst_out : string;
}.
Arguments mkNamespace {W} _ _ _ _ _.
Arguments word_discount {W} _.
Arguments phrase_discount {W} _.
Arguments words_txt {W} _.
Arguments boosted_phrases {W} _.
Arguments fst_out {W} _.

Section main.
Context {W : Type} `{!Weight W}.
Variable loadtxt : string → res (list (string * Z)).
Variable determinize : VectorFst W → res (VectorFst W).
(** [open(path, mode="r")] and [f.readlines()]: the lines of the file,
    or the exception raised. *)
Variable readlines : string → res (list string).
(** [fst_.write(path)] *)
Variable write : VectorFst W → string → res unit.

(** [main], from the parsed command line on.  It returns nothing; the
    value here is what it leaves behind: the automaton handed to [write]
    and the warnings logged. *)
Definition main (args : Namespace W) : res (VectorFst W * list Warning) :=
  builder ← __init__ loadtxt (words_txt args);
  boosted_phrases ← readlines (boosted_phrases args);
  let boosted_phrases := tokenize <$> boosted_phrases in
  '(fst_, log) ← lattice_boosting_graph determinize builder boosted_phrases
                   (word_discount args) (phrase_discount args);
  _ ← write fst_ (fst_out args);
  mret (fst_, log).
End main.

(** The line feed that ends the lines [readlines] returns. *)
Definition newline : string :=
  String.String (Ascii.ascii_of_nat 10) String.EmptyString.

(** A line with nothing but whitespace. *)
Definition blank (line : string) : Prop :=
  Forall (λ c, isspace c = true) (String.list_ascii_of_string line).

#[global] Instance blank_dec (line : string) : Decision (blank line).
Proof. unfold blank. apply _. Defined.

(** A word as [split] returns them: not empty and free of whitespace. *)
Definition is_word (t : list Ascii.ascii) : Prop :=
  t ≠ [] ∧ Forall (λ c, isspace c = false) t.

#[global] Instance is_word_dec (t : list Ascii.ascii) : Decision (is_word t).
Proof. unfold is_word. apply _. Defined.

End make_sigle_boosting_graph.

(** ** The example of [main()] *)

Definition main_words : list (string * Z) :=
  [("<eps>", 0); ("c_s_a", 1); ("one", 2); ("two", 3); ("three", 4);
   ("alfa", 5); ("bravo", 6); ("brno", 7); ("prague", 8); ("#0", 9)]%Z.

Definition main_loadtxt (words_txt : string) : res (list (string * Z)) :=
  mret main_words.

Definition main_builder : BoostingFstBuilder :=
  mkBuilder (delete "#0" (delete "<eps>" (dict_of_rows main_words))) 9.

Definition main_phrases : list (list string) :=
  [["c_s_a"; "three"; "alfa"; "bravo"]; ["c_s_a"; "alfa"; "bravo"]].

(** The raw automaton of [main()], with [word_discount=-4.0] and
    [phrase_discount=-2.0]: two chains that both begin with "c_s_a". *)
Definition main_raw : VectorFst float :=
  mkFst (Some 0)
    [mkState None [mkArc 1 1 0%float 1; mkArc 1 1 0%float 5];
     mkState None [mkArc 4 4 0%float 2];
     mkState None [mkArc 5 5 0%float 3];
     mkState None [mkArc 6 6 (-18)%float 4];
     mkState (Some 0%float) [];
     mkState None [mkArc 5 5 0%float 6];
     mkState None [mkArc 6 6 (-14)%float 7];
     mkState (Some 0%float) []].

(** Its determinization: the two arcs for "c_s_a" are merged. *)
Definition main_det : VectorFst float :=
  mkFst (Some 0)
    [mkState None [mkArc 1 1 0%float 1];
     mkState None [mkArc 4 4 0%float 2; mkArc 5 5 0%float 3];
     mkState None [mkArc 5 5 0%float 4];
     mkState None [mkArc 6 6 (-14)%float 5];
     mkState None [mkArc 6 6 (-18)%float 6];
     mkState (Some 0%float) [];
     mkState (Some 0%float) []].

(** ** A five-word vocabulary and the phrase "a b" *)

Definition small_words : list (string * Z) :=
  [("<eps>", 0); ("a", 1); ("b", 2); ("c", 3); ("#0", 4)]%Z.

Definition small_builder : BoostingFstBuilder :=
  mkBuilder (delete "#0" (delete "<eps>" (dict_of_rows small_words))) 4.

(** The chain [0 -a-> 1 -b/-10-> 2] of the phrase "a b", for
    [word_discount=-4.0] and [phrase_discount=-2.0], and the graph the
    rewrite makes of it. *)
Definition small_raw : VectorFst float :=
  mkFst (Some 0)
    [mkState None [mkArc 1 1 0%float 1];
     mkState None [mkArc 2 2 (-10)%float 2];
     mkState (Some 0%float) []].

Definition small_graph : VectorFst float :=
  mkFst (Some 0)
    [mkState (Some 0%float) [mkArc 1 1 0%float 1; mkArc 4 4 0%float 0];
     mkState None [mkArc 2 2 (-10)%float 2; mkArc 0 0 0%float 0];
     mkState None [mkArc 0 0 0%float 0]].

(** ** A phrase file and a vocabulary with repeated rows *)

(** Four lines: the two phrases of [main()], a blank line between them,
    and a phrase with the unknown word "xyz". *)
Definition phrase_lines : list string :=
  ["c_s_a three alfa bravo" +:+ make_sigle_boosting_graph.newline;
   "  " +:+ make_sigle_boosting_graph.newline;
   "c_s_a  alfa bravo " +:+ make_sigle_boosting_graph.newline;
   "xyz one" +:+ make_sigle_boosting_graph.newline].

Definition phrase_readlines (path : string) : res (list string) :=
  mret phrase_lines.

Definition phrase_write (f : VectorFst float) (path : string) : res unit :=
  mret ().

Definition phrase_args : make_sigle_boosting_graph.Namespace float :=
  make_sigle_boosting_graph.mkNamespace (-4)%float (-2)%float
    "words.txt" "phrases.txt" "boost.fst".

(** A table in which "a" and "#0" have two rows each. *)
Definition repeated_words : list (string * Z) :=
  [("<eps>", 0); ("a", 1); ("#0", 4); ("a", 7); ("#0", 5)]%Z.

(** A determinization that fails, one that returns the automaton without
    states, and the executable one with its final weights replaced. *)
Definition failing_determinize (f : VectorFst float) : res (VectorFst float) :=
  raise (ExternalError "FstOpError").

Definition empty_determinize (f : VectorFst float) : res (VectorFst float) :=
  mret Fst.empty.

Definition reweighted_determinize (f : VectorFst float)
  : res (VectorFst float) :=
  d ← Determinize.determinize f;
  mret (mkFst (start d)
          ((λ st, mkState (Some 1%float) (arcs st)) <$> states d)).

(** * Reasoning about the embedding *)

(** ** Loops *)

Lemma for_each_app {A S : Type} (body : S → A → res S) (xs ys : list A) (s : S) :
  for_each body (xs ++ ys) s = s' ← for_each body xs s; for_each body ys s'.
Proof.
  revert s. induction xs as [|x xs IH]; intros s; simpl; [done|].
  destruct (body s x) as [e|s']; simpl; [done|]. apply IH.
Qed.

Lemma for_each_snoc {A S : Type} (body : S → A → res S) (xs : list A) (x : A)
    (s s' : S) :
  for_each body xs s = inr s' →
  for_each body (xs ++ [x]) s = body s' x.
Proof.
  intros Hxs. rewrite for_each_app, Hxs. simpl.
  by destruct (body s' x).
Qed.

(** ** The mutators of a [VectorFst] on valid states *)

Section fst_facts.
Context {W : Type}.
Implicit Types (f : VectorFst W) (sts : list (State W)) (a : Arc W).

Lemma insert_as_alter {A : Type} (g : A → A) (l : list A) (i : nat) (x : A) :
  l !! i = Some x → <[i := g x]> l = alter g i l.
Proof.
  intros Hi. apply list_eq. intros j.
  rewrite list_lookup_alter. destruct (decide (i = j)) as [->|Hne].
  - rewrite list_lookup_insert_eq by (by eapply lookup_lt_Some).
    by rewrite Hi.
  - by rewrite list_lookup_insert_ne.
Qed.

Lemma alter_snoc_last {A : Type} (g : A → A) (l : list A) (x : A) (n : nat) :
  n = length l → alter g n (l ++ [x]) = l ++ [g x].
Proof.
  intros ->. replace (length l) with (length l + 0) by lia.
  by rewrite alter_app_r.
Qed.

Lemma add_arc_valid f s a :
  s < num_states f →
  add_arc f s a = inr (mkFst (start f) (alter (add_out a) s (states f))).
Proof.
  intros Hs. unfold add_arc.
  destruct (lookup_lt_is_Some_2 (states f) s Hs) as [st Hst].
  rewrite Hst. simpl. do 2 f_equal.
  by apply (insert_as_alter (add_out a)).
Qed.

Lemma set_final_valid f s w :
  s < num_states f →
  set_final f s w = inr (mkFst (start f) (alter (with_final w) s (states f))).
Proof.
  intros Hs. unfold set_final.
  destruct (lookup_lt_is_Some_2 (states f) s Hs) as [st Hst].
  rewrite Hst. simpl. do 2 f_equal.
  by apply (insert_as_alter (with_final w)).
Qed.

Lemma get_final_valid f s :
  s < num_states f → get_final f s = inr (final_weight f s).
Proof.
  intros Hs. unfold get_final, final_weight.
  destruct (lookup_lt_is_Some_2 (states f) s Hs) as [st Hst].
  by rewrite Hst.
Qed.

End fst_facts.

(** ** The raw automaton in closed form *)

Section raw_facts.
Context {W : Type} `{!Weight W}.
Implicit Types (f : VectorFst W) (sts : list (State W)) (l : list Z).

Lemma chain_arcs_snoc X n ws w :
  chain_arcs X n (ws ++ [w]) =
  imap (λ j a, mkArc a a w_zero (n + j)) ws ++ [mkArc w w X (n + length ws)].
Proof.
  unfold chain_arcs. rewrite imap_app. simpl. f_equal.
  - apply imap_ext. intros j a Hj. apply lookup_lt_Some in Hj.
    rewrite length_app. simpl. rewrite decide_False by lia. done.
  - rewrite length_app. simpl. rewrite decide_True by lia.
    by rewrite Nat.add_0_r.
Qed.

Lemma length_chain_arcs X n l : length (chain_arcs X n l) = length l.
Proof. apply length_imap. Qed.

Lemma unpack_last_snoc {A : Type} (xs : list A) (x : A) :
  unpack_last (xs ++ [x]) = inr (xs, x).
Proof.
  induction xs as [|y xs IH]; [done|].
  change ((y :: xs) ++ [x]) with (y :: (xs ++ [x])).
  simpl. rewrite IH. simpl. by destruct xs.
Qed.

Lemma length_grow s sts cs :
  length (grow s sts cs).1 = length sts + length cs.
Proof.
  destruct cs as [|a0 rest]; simpl; [lia|].
  rewrite !length_app, length_alter, length_fmap. simpl. lia.
Qed.

Lemma grow_end_valid s sts cs :
  s < length sts → (grow s sts cs).2 < length (grow s sts cs).1.
Proof.
  intros Hs. rewrite length_grow. destruct cs; simpl; lia.
Qed.

Lemma grow_snoc s sts cs a :
  grow s sts (cs ++ [a]) =
  (extend (grow s sts cs).1 (grow s sts cs).2 a, length (grow s sts cs).1).
Proof.
  destruct cs as [|a0 rest].
  - simpl. by rewrite Nat.add_0_r.
  - rewrite length_grow.
    change ((a0 :: rest) ++ [a]) with (a0 :: (rest ++ [a])).
    cbn [grow fst snd]. f_equal.
    + unfold extend.
      set (P := alter (add_out a0) s sts).
      set (M := (λ a1, mkState None [a1]) <$> rest).
      rewrite fmap_app. fold M.
      replace (length sts + length rest) with (length (P ++ M) + 0).
      2:{ unfold P, M. rewrite length_app, length_alter, length_fmap. lia. }
      rewrite (assoc_L (++) P M), alter_app_r.
      by rewrite <-!(assoc_L (++)).
    + rewrite length_app. simpl. lia.
Qed.

Lemma prefix_step_valid f s_prev w :
  s_prev < num_states f →
  prefix_step (f, s_prev) w =
  inr (mkFst (start f)
         (extend (states f) s_prev (mkArc w w w_zero (num_states f))),
       num_states f).
Proof.
  intros Hs. unfold prefix_step, add_state.
  rewrite add_arc_valid.
  - cbn [start states]. unfold extend. by rewrite alter_app_l.
  - unfold num_states in *. cbn [states]. rewrite length_app. simpl. lia.
Qed.

(** The prefix loop, started at a valid state. *)
Lemma prefix_loop f s_prev ws :
  s_prev < num_states f →
  let r := grow s_prev (states f)
             (imap (λ j a, mkArc a a w_zero (num_states f + j)) ws) in
  for_each prefix_step ws (f, s_prev) = inr (mkFst (start f) r.1, r.2).
Proof.
  intros Hs. induction ws as [|w ws IH] using rev_ind.
  { by destruct f. }
  cbn zeta in *. rewrite (for_each_snoc _ _ _ _ _ IH). clear IH.
  rewrite imap_app. cbn [imap]. rewrite grow_snoc.
  rewrite prefix_step_valid.
  - unfold num_states. cbn [start states fst snd].
    rewrite length_grow, length_imap, Nat.add_0_r. done.
  - unfold num_states. cbn [states]. by apply grow_end_valid.
Qed.
Lemma add_chain_snoc s sts cs a :
  add_chain s sts (cs ++ [a]) =
  alter (add_out a) (grow s sts cs).2 (grow s sts cs).1
    ++ [mkState (Some w_zero) []].
Proof.
  destruct cs as [|a0 rest]; [done|].
  change ((a0 :: rest) ++ [a]) with (a0 :: (rest ++ [a])).
  cbn [add_chain grow fst snd]. unfold chain_states. cbn [tail].
  set (P := alter (add_out a0) s sts).
  set (M := (λ a1, mkState None [a1]) <$> rest).
  rewrite fmap_app. fold M.
  replace (length sts + length rest) with (length (P ++ M) + 0).
  2:{ unfold P, M. rewrite length_app, length_alter, length_fmap. lia. }
  rewrite (assoc_L (++) P M), alter_app_r.
  by rewrite <-!(assoc_L (++)).
Qed.

(** What [lookup_words] returns. *)
Lemma lookup_words_inr word_to_int p l :
  lookup_words word_to_int p = inr l ↔
  Forall2 (λ w i, word_to_int !! w = Some i) p l.
Proof.
  revert l. induction p as [|w p IH]; intros l; simpl.
  - split.
    + intros [= <-]. constructor.
    + intros Hl. by inversion Hl.
  - unfold dict_get. destruct (word_to_int !! w) as [i|] eqn:Hw; simpl.
    + destruct (lookup_words word_to_int p) as [e|k] eqn:Hp; simpl.
      * split; [done|]. intros Hl. inversion Hl as [|? i' ? k' ? Hk]; subst.
        apply IH in Hk. done.
      * split.
        -- intros [= <-]. constructor; [done|]. by apply IH.
        -- intros Hl. inversion Hl as [|? i' ? k' Hi Hk]; subst.
           apply IH in Hk as [= ->]. rewrite Hw in Hi. by injection Hi as ->.
    + split; [done|]. intros Hl. inversion Hl; congruence.
Qed.

Lemma lookup_words_inl word_to_int p e :
  lookup_words word_to_int p = inl e →
  ∃ w, e = KeyError w ∧ w ∈ p ∧ word_to_int !! w = None.
Proof.
  induction p as [|w p IH]; simpl; [done|].
  unfold dict_get. destruct (word_to_int !! w) as [i|] eqn:Hw; simpl.
  - destruct (lookup_words word_to_int p) as [e'|k]; simpl; [|done].
    intros [= <-]. destruct IH as (w' & -> & Hin & Hnone); [done|].
    exists w'. split_and!; [done| by constructor |done].
  - intros [= <-]. exists w. split_and!; [done| by constructor |done].
Qed.

Lemma lookup_words_in_vocab word_to_int p :
  in_vocab word_to_int p ↔ ∃ l, lookup_words word_to_int p = inr l.
Proof.
  split.
  - intros Hp. destruct (lookup_words word_to_int p) as [e|l] eqn:Hl; [|by eexists].
    apply lookup_words_inl in Hl as (w & _ & Hin & Hnone).
    unfold in_vocab in Hp. rewrite Forall_forall in Hp.
    destruct (Hp w Hin) as [i Hi]. congruence.
  - intros [l Hl]. apply lookup_words_inr in Hl.
    unfold in_vocab. induction Hl; constructor; eauto.
Qed.

(** The outcomes of one turn of the loop over the phrases: an accepted
    phrase adds its chain, unless its boost is refused; a phrase with an
    unknown word adds a warning; a phrase without words adds nothing. *)
Lemma phrase_step_accepted word_to_int wd pd s_start f log p l :
  lookup_words word_to_int p = inr l → l ≠ [] →
  s_start < num_states f →
  phrase_step word_to_int wd pd s_start (f, log) p =
  match to_weight (phrase_weight wd pd l) with
  | inl e => inl e
  | inr X =>
      inr (mkFst (start f)
             (add_chain s_start (states f) (chain_arcs X (num_states f) l)),
           log)
  end.
Proof.
  intros Hl Hne Hs. unfold phrase_step. rewrite Hl.
  destruct (length l =? 0) eqn:Hlen.
  { apply Nat.eqb_eq in Hlen. by destruct l. }
  destruct l as [|w ws _] using rev_ind; [done|]. clear Hne Hlen.
  rewrite unpack_last_snoc. cbn beta iota.
  change (mbind ?k (inr ?x)) with (k x). cbn beta iota.
  rewrite (prefix_loop f s_start ws Hs). cbn zeta.
  change (mbind ?k (inr ?x)) with (k x). cbn beta iota.
  set (cs := imap _ ws).
  pose proof (grow_end_valid s_start (states f) cs Hs) as Hend.
  pose proof (length_grow s_start (states f) cs) as Hlen.
  unfold add_state. cbn [start states]. unfold new_arc.
  fold (phrase_weight wd pd (ws ++ [w])).
  destruct (to_weight (phrase_weight wd pd (ws ++ [w]))) as [e|X]; [done|].
  change (mbind ?k (inr ?x)) with (k x). cbn beta iota.
  change (mbind ?k (mret ?x)) with (k x). cbn beta iota.
  rewrite add_arc_valid.
  2:{ unfold num_states. cbn [states]. rewrite length_app. simpl. lia. }
  change (mbind ?k (inr ?x)) with (k x). cbn beta iota. cbn [start states].
  rewrite set_final_valid.
  2:{ unfold num_states. cbn [states].
      rewrite length_alter, length_app. simpl. lia. }
  change (mbind ?k (inr ?x)) with (k x). cbn beta iota. cbn [start states].
  rewrite chain_arcs_snoc. fold cs. rewrite add_chain_snoc.
  unfold num_states. cbn [states].
  rewrite alter_app_l by done.
  rewrite alter_snoc_last by (by rewrite length_alter).
  unfold with_final. cbn [arcs].
  rewrite Hlen. unfold cs. by rewrite length_imap.
Qed.

Lemma phrase_step_oov word_to_int wd pd s_start f log p :
  ¬ in_vocab word_to_int p →
  phrase_step word_to_int wd pd s_start (f, log) p =
  inr (f, log ++ [mkWarning (oov_words word_to_int p) p]).
Proof.
  intros Hp. unfold phrase_step.
  destruct (lookup_words word_to_int p) as [e|l] eqn:Hl.
  - by apply lookup_words_inl in Hl as (w & -> & _).
  - destruct Hp. apply lookup_words_in_vocab. by exists l.
Qed.

Lemma phrase_step_empty word_to_int wd pd s_start f log p :
  lookup_words word_to_int p = inr [] →
  phrase_step word_to_int wd pd s_start (f, log) p = inr (f, log).
Proof. intros Hl. unfold phrase_step. by rewrite Hl. Qed.

Lemma phrase_ints_Some word_to_int p l :
  phrase_ints word_to_int p = Some l ↔
  lookup_words word_to_int p = inr l ∧ l ≠ [].
Proof.
  unfold phrase_ints.
  destruct (lookup_words word_to_int p) as [e|[|i k]].
  - split; [done|]. by intros [[=] _].
  - split; [done|]. intros [[= <-] Hne]. by destruct Hne.
  - split.
    + by intros [= <-].
    + by intros [[= <-] _].
Qed.

Lemma phrase_ints_None word_to_int p :
  phrase_ints word_to_int p = None ↔
  ¬ in_vocab word_to_int p ∨ lookup_words word_to_int p = inr [].
Proof.
  rewrite lookup_words_in_vocab. unfold phrase_ints.
  destruct (lookup_words word_to_int p) as [e|[|i k]].
  - split; [|done]. intros _. left. by intros [l [=]].
  - split; [|done]. intros _. by right.
  - split; [done|]. intros [Hv|[=]]. destruct Hv. by eexists.
Qed.

Lemma length_add_chain s sts cs :
  length (add_chain s sts cs) = length sts + length cs.
Proof.
  destruct cs as [|a0 rest]; simpl; [lia|].
  unfold chain_states.
  rewrite !length_app, length_alter, length_fmap. simpl. lia.
Qed.

Lemma length_raw_step wd pd sts l :
  length (raw_step wd pd sts l) = length sts + length l.
Proof. unfold raw_step. by rewrite length_add_chain, length_chain_arcs. Qed.

Lemma stored_weight_inr wd pd l X :
  to_weight (phrase_weight wd pd l) = inr X → stored_weight wd pd l = X.
Proof. intros HX. unfold stored_weight. by rewrite HX. Qed.

Lemma boost_error_app wd pd ls1 ls2 :
  boost_error wd pd (ls1 ++ ls2)
  = match boost_error wd pd ls1 with
    | Some e => Some e
    | None => boost_error wd pd ls2
    end.
Proof.
  induction ls1 as [|l ls1 IH]; [done|]. cbn [app boost_error].
  by destruct (to_weight (phrase_weight wd pd l)).
Qed.

(** No boost is refused: every one is stored. *)
Lemma boost_error_None wd pd ls :
  boost_error wd pd ls = None ↔
  Forall (λ l, to_weight (phrase_weight wd pd l)
               = inr (stored_weight wd pd l)) ls.
Proof.
  induction ls as [|l ls IH]; [done|]. cbn [boost_error].
  rewrite Forall_cons, <-IH. unfold stored_weight.
  destruct (to_weight (phrase_weight wd pd l)) as [e|X]; [|tauto].
  split; [done|]. by intros [[=] _].
Qed.

(** The boost that is refused is that of one of the sequences. *)
Lemma boost_error_Some wd pd ls e :
  boost_error wd pd ls = Some e →
  ∃ l, l ∈ ls ∧ to_weight (phrase_weight wd pd l) = inl e.
Proof.
  induction ls as [|l ls IH]; [done|]. cbn [boost_error].
  destruct (to_weight (phrase_weight wd pd l)) as [e'|X] eqn:HX.
  - intros [= ->]. exists l. split; [by left|done].
  - intros (l' & Hin & Hl')%IH. exists l'. split; [by right|done].
Qed.

(** The loop over the phrases, from any automaton with a state 0: it
    stops at the first accepted phrase whose boost is refused. *)
Lemma phrase_loop word_to_int wd pd phrases f log :
  0 < num_states f →
  for_each (phrase_step word_to_int wd pd 0) phrases (f, log) =
  match boost_error wd pd (accepted_ints word_to_int phrases) with
  | Some e => inl e
  | None =>
      inr (mkFst (start f)
             (foldl (raw_step wd pd) (states f)
                (accepted_ints word_to_int phrases)),
           log ++ warnings_of word_to_int phrases)
  end.
Proof.
  revert f log. induction phrases as [|p ps IH]; intros f log Hf.
  { simpl. rewrite app_nil_r. by destruct f. }
  cbn [for_each]. unfold accepted_ints, warnings_of. cbn [omap list_omap].
  fold (accepted_ints word_to_int ps).
  destruct (phrase_ints word_to_int p) as [l|] eqn:Hp.
  - apply phrase_ints_Some in Hp as [Hl Hne].
    rewrite (phrase_step_accepted _ _ _ _ _ _ _ _ Hl Hne Hf).
    cbn [boost_error].
    destruct (to_weight (phrase_weight wd pd l)) as [e|X] eqn:HX; [done|].
    change (mbind ?k (inr ?x)) with (k x). cbn beta.
    rewrite IH.
    2:{ unfold num_states in *. cbn [states].
        rewrite length_add_chain. lia. }
    destruct (boost_error wd pd (accepted_ints word_to_int ps)); [done|].
    cbn [start states foldl]. unfold num_states.
    rewrite <-(stored_weight_inr _ _ _ _ HX).
    fold (raw_step wd pd (states f) l).
    rewrite filter_cons_False; [done|].
    intros Hv. apply Hv. apply lookup_words_in_vocab. by exists l.
  - apply phrase_ints_None in Hp as [Hv|Hl].
    + rewrite (phrase_step_oov _ _ _ _ _ _ _ Hv).
      change (mbind ?k (inr ?x)) with (k x). cbn beta.
      rewrite IH by done.
      destruct (boost_error wd pd (accepted_ints word_to_int ps)); [done|].
      rewrite filter_cons_True by done.
      rewrite fmap_cons. by rewrite <-(assoc_L (++)).
    + rewrite (phrase_step_empty _ _ _ _ _ _ _ Hl).
      change (mbind ?k (inr ?x)) with (k x). cbn beta.
      rewrite IH by done.
      destruct (boost_error wd pd (accepted_ints word_to_int ps)); [done|].
      rewrite filter_cons_False; [done|].
      intros Hv. apply Hv. apply lookup_words_in_vocab. by exists [].
Qed.

(** The raw automaton in closed form: the build raises when a boost is
    refused, and only then. *)
Lemma gen_initial_graph_closed phrases word_to_int wd pd :
  __gen_initial_graph phrases word_to_int wd pd =
  match boost_error wd pd (accepted_ints word_to_int phrases) with
  | Some e => inl e
  | None =>
      inr (mkFst (Some 0)
             (raw_states wd pd (accepted_ints word_to_int phrases)),
           warnings_of word_to_int phrases)
  end.
Proof.
  unfold __gen_initial_graph. cbn [add_state Fst.empty num_states states length].
  unfold set_start. cbn.
  by rewrite phrase_loop by (cbn; lia).
Qed.

(** What a build that returns has returned. *)
Lemma gen_initial_graph_inr phrases word_to_int wd pd raw log :
  __gen_initial_graph phrases word_to_int wd pd = inr (raw, log) →
  raw = mkFst (Some 0) (raw_states wd pd (accepted_ints word_to_int phrases))
  ∧ log = warnings_of word_to_int phrases
  ∧ boost_error wd pd (accepted_ints word_to_int phrases) = None.
Proof.
  rewrite gen_initial_graph_closed.
  destruct (boost_error wd pd _); [done|]. by intros [= <- <-].
Qed.

Lemma gen_initial_graph_returns phrases word_to_int wd pd :
  boost_error wd pd (accepted_ints word_to_int phrases) = None →
  __gen_initial_graph phrases word_to_int wd pd =
  inr (mkFst (Some 0) (raw_states wd pd (accepted_ints word_to_int phrases)),
       warnings_of word_to_int phrases).
Proof. intros Hnone. by rewrite gen_initial_graph_closed, Hnone. Qed.

(** Two phrase lists with the same accepted id sequences: the outcomes
    of their builds differ by the warnings only. *)
Lemma gen_initial_graph_same_ints phrases phrases' word_to_int wd pd :
  accepted_ints word_to_int phrases = accepted_ints word_to_int phrases' →
  __gen_initial_graph phrases word_to_int wd pd
  = match __gen_initial_graph phrases' word_to_int wd pd with
    | inl e => inl e
    | inr (raw, _) => inr (raw, warnings_of word_to_int phrases)
    end.
Proof.
  intros Hsame. rewrite !gen_initial_graph_closed, Hsame.
  by destruct (boost_error wd pd _).
Qed.
(** A refused boost is the boost of an accepted phrase of the list, and
    a build with one raises. *)
Lemma boost_error_phrase word_to_int (phrases : list (list string)) wd pd e :
  boost_error wd pd (accepted_ints word_to_int phrases) = Some e →
  ∃ p l, p ∈ phrases ∧ phrase_ints word_to_int p = Some l ∧
         to_weight (phrase_weight wd pd l) = inl e.
Proof.
  intros (l & Hin & Hl)%boost_error_Some.
  unfold accepted_ints in Hin. apply list_elem_of_omap in Hin as (p & Hp & Hpl).
  by exists p, l.
Qed.

Lemma boost_error_refused word_to_int (phrases : list (list string))
    wd pd p l e :
  p ∈ phrases → phrase_ints word_to_int p = Some l →
  to_weight (phrase_weight wd pd l) = inl e →
  is_Some (boost_error wd pd (accepted_ints word_to_int phrases)).
Proof.
  intros Hp Hpl Hl.
  destruct (boost_error wd pd _) as [e'|] eqn:Herr; [by eexists|].
  apply boost_error_None in Herr. rewrite Forall_forall in Herr.
  rewrite Herr in Hl; [done|].
  unfold accepted_ints. apply list_elem_of_omap. by exists p.
Qed.

(** The build raises exactly when the boost of an accepted phrase is
    refused, with the exception of such a refusal. *)
Lemma gen_initial_graph_inl phrases word_to_int wd pd e :
  __gen_initial_graph phrases word_to_int wd pd = inl e →
  ∃ p l, p ∈ phrases ∧ phrase_ints word_to_int p = Some l ∧
         to_weight (phrase_weight wd pd l) = inl e.
Proof.
  rewrite gen_initial_graph_closed.
  destruct (boost_error wd pd _) as [e'|] eqn:Herr; [|done].
  intros [= ->]. by apply boost_error_phrase.
Qed.

Lemma gen_initial_graph_raises phrases word_to_int wd pd p l e :
  p ∈ phrases → phrase_ints word_to_int p = Some l →
  to_weight (phrase_weight wd pd l) = inl e →
  ∃ e', __gen_initial_graph phrases word_to_int wd pd = inl e'.
Proof.
  intros Hp Hpl Hl.
  destruct (boost_error_refused _ _ _ _ _ _ _ Hp Hpl Hl) as [e' Herr].
  exists e'. by rewrite gen_initial_graph_closed, Herr.
Qed.
End raw_facts.

(** ** The rewrite in closed form *)

Section rewrite_facts.
Context {W : Type} `{!Weight W}.
Variable determinize : VectorFst W → res (VectorFst W).
Implicit Types (f d : VectorFst W) (sts : list (State W)).

Lemma rewrite_step_valid s_start f s :
  s < num_states f →
  rewrite_step s_start f s =
  inr (mkFst (start f) (alter (step_state s_start s) s (states f))).
Proof.
  intros Hs. unfold rewrite_step.
  destruct (lookup_lt_is_Some_2 (states f) s Hs) as [st Hst].
  destruct (decide (s ≠ s_start)) as [Hne|Heq].
  - rewrite add_arc_valid by done.
    change (mbind ?k (inr ?x)) with (k x). cbn beta.
    rewrite get_final_valid
      by (unfold num_states in *; cbn [states]; by rewrite length_alter).
    change (mbind ?k (inr ?x)) with (k x). cbn beta.
    unfold final_weight. cbn [states].
    rewrite list_lookup_alter_eq, Hst. cbn [fmap option_fmap option_map add_out final].
    assert (alter (step_state s_start s) s (states f)
            = alter (with_final None ∘ add_out (mkArc 0 0 w_zero s_start)) s (states f))
      as ->.
    { apply list_eq. intros j. rewrite !list_lookup_alter.
      destruct (decide (s = j)) as [<-|]; [|done].
      rewrite Hst. simpl. unfold step_state. by rewrite decide_False. }
    destruct (decide (final st ≠ None)) as [Hfin|Hfin].
    + rewrite set_final_valid
        by (unfold num_states in *; cbn [states]; by rewrite length_alter).
      cbn [start states]. by rewrite list_alter_alter_eq.
    + unfold mret, res_ret. do 2 f_equal.
      apply list_eq. intros j. rewrite !list_lookup_alter.
      destruct (decide (s = j)) as [<-|]; [|done].
      rewrite Hst. simpl. unfold with_final, add_out. simpl.
      destruct (final st) as [w|] eqn:Hw; [|done]. by destruct Hfin.
  - assert (s = s_start) as -> by (destruct (decide (s = s_start)); tauto).
    unfold mret, res_ret. f_equal. destruct f as [st0 sts]. cbn [start states] in *.
    f_equal. apply list_eq. intros j. rewrite list_lookup_alter.
    destruct (decide (s_start = j)) as [<-|]; [|done].
    rewrite Hst. simpl. unfold step_state. by rewrite decide_True.
Qed.

Lemma rewrite_loop s_start st0 rest pre :
  for_each (rewrite_step s_start) (seq (length pre) (length rest))
    (mkFst st0 (pre ++ rest)) =
  inr (mkFst st0 (pre ++ imap (λ i, step_state s_start (length pre + i)) rest)).
Proof.
  revert pre. induction rest as [|x rest IH]; intros pre; [done|].
  cbn [length seq for_each].
  rewrite rewrite_step_valid
    by (unfold num_states; cbn [states]; rewrite length_app; simpl; lia).
  change (mbind ?k (inr ?x)) with (k x). cbn beta. cbn [start states].
  rewrite alter_app_r_alt by lia. rewrite Nat.sub_diag. cbn [alter list_alter].
  rewrite (cons_middle _ pre rest), (assoc_L (++)).
  specialize (IH (pre ++ [step_state s_start (length pre) x])).
  rewrite length_app in IH. cbn [length] in IH.
  rewrite Nat.add_1_r in IH. rewrite IH.
  rewrite imap_cons, <-(assoc_L (++)). cbn [app].
  rewrite Nat.add_0_r. do 4 f_equal.
  apply imap_ext. intros i y _. cbn. f_equal. lia.
Qed.

Lemma lattice_boosting_graph_closed self phrases wd pd d s_start :
  boost_error wd pd (accepted_ints (word_to_int self) phrases) = None →
  determinize
    (mkFst (Some 0)
       (raw_states wd pd (accepted_ints (word_to_int self) phrases)))
    = inr d →
  start d = Some s_start → s_start < num_states d →
  lattice_boosting_graph determinize self phrases wd pd =
  inr (mkFst (Some s_start)
         (imap (rewrite_state s_start (rho_int self)) (states d)),
       warnings_of (word_to_int self) phrases).
Proof.
  intros Hnone Hdet Hstart Hvalid. unfold lattice_boosting_graph.
  rewrite gen_initial_graph_returns by done.
  change (mbind ?k (inr ?x)) with (k x). cbn beta iota.
  rewrite Hdet.
  change (mbind ?k (inr ?x)) with (k x). cbn beta iota.
  rewrite Hstart.
  destruct d as [st0 sts]. cbn [start states num_states] in *. subst st0.
  unfold num_states. cbn [states].
  pose proof (rewrite_loop s_start (Some s_start) sts []) as Hloop.
  cbn [length app Nat.add] in Hloop. rewrite Hloop. clear Hloop.
  change (mbind ?k (inr ?x)) with (k x). cbn beta.
  rewrite set_final_valid
    by (unfold num_states; cbn [states]; by rewrite length_imap).
  change (mbind ?k (inr ?x)) with (k x). cbn beta. cbn [start states].
  rewrite add_arc_valid
    by (unfold num_states; cbn [states]; by rewrite length_alter, length_imap).
  change (mbind ?k (inr ?x)) with (k x). cbn beta. cbn [start states].
  unfold mret, res_ret. do 3 f_equal.
  apply list_eq. intros j.
  rewrite !list_lookup_alter, !list_lookup_imap.
  unfold rewrite_state, step_state.
  destruct (sts !! j) as [st|] eqn:Hj; cbn;
    repeat case_decide; subst; rewrite ?Hj; done.
Qed.
End rewrite_facts.

(** ** The labels of the raw and of the determinized automaton *)

Section label_facts.
Context {W : Type} `{!Weight W}.
Implicit Types (f d raw : VectorFst W) (sts : list (State W)) (l : list Z).

Lemma filter_none {A : Type} (P : A → Prop) `{!∀ x, Decision (P x)}
    (xs : list A) :
  Forall (λ x, ¬ P x) xs → filter P xs = [].
Proof.
  induction 1 as [|x xs Hx _ IH]; [done|].
  by rewrite filter_cons_False.
Qed.

Lemma filter_seq_singleton (P : nat → Prop) `{!∀ x, Decision (P x)}
    (n s0 : nat) :
  s0 < n → (∀ s, s < n → P s ↔ s = s0) → filter P (seq 0 n) = [s0].
Proof.
  intros Hlt HP.
  replace n with (s0 + (1 + (n - s0 - 1))) by lia.
  rewrite !seq_app, !filter_app. cbn [seq].
  rewrite (filter_none P (seq 0 s0)), (filter_none P (seq _ (n - s0 - 1))).
  - rewrite filter_cons_True by (apply HP; [lia|done]). done.
  - apply Forall_forall. intros s Hs. apply elem_of_seq in Hs.
    rewrite HP by lia. lia.
  - apply Forall_forall. intros s Hs. apply elem_of_seq in Hs.
    rewrite HP by lia. lia.
Qed.

Lemma arcs_all_add_chain (P : Arc W → Prop) s sts cs :
  arcs_all P sts → Forall P cs → arcs_all P (add_chain s sts cs).
Proof.
  intros Hsts Hcs. destruct cs as [|a0 rest]; [done|].
  apply Forall_cons in Hcs as [Ha0 Hrest].
  unfold add_chain, chain_states, arcs_all. cbn [tail].
  rewrite !Forall_app. split_and!.
  - apply Forall_alter; [done|]. intros st _ Hst. cbn.
    apply Forall_app. split; [done|]. by constructor.
  - apply Forall_fmap. eapply Forall_impl; [exact Hrest|].
    intros a Ha. cbn. by constructor.
  - by repeat constructor.
Qed.

Lemma arcs_all_raw_states (P : Arc W → Prop) wd pd ls :
  (∀ l X n, l ∈ ls → Forall P (chain_arcs X n l)) →
  arcs_all P (raw_states wd pd ls).
Proof.
  intros Hls. unfold raw_states.
  assert (arcs_all P [mkState None []]) as Hinit by (by repeat constructor).
  revert Hinit. generalize [mkState (W:=W) None []]. revert Hls.
  induction ls as [|l ls IH]; intros Hls sts Hsts; [done|].
  cbn [foldl]. apply IH.
  - intros l' X n Hl'. apply Hls. by constructor.
  - apply arcs_all_add_chain; [done|]. apply Hls. by constructor.
Qed.

Lemma chain_arcs_labels X n l :
  Forall (λ a, ilabel a ∈ l ∧ olabel a = ilabel a) (chain_arcs X n l).
Proof.
  apply Forall_forall. intros a Ha.
  apply elem_of_lookup_imap in Ha as (j & i & -> & Hj). cbn.
  split; [|done]. by eapply list_elem_of_lookup_2.
Qed.

Lemma accepted_ints_values word_to_int phrases l i :
  l ∈ accepted_ints word_to_int phrases → i ∈ l →
  ∃ w, word_to_int !! w = Some i.
Proof.
  unfold accepted_ints. rewrite list_elem_of_omap.
  intros (p & _ & Hp) Hi. apply phrase_ints_Some in Hp as [Hl _].
  apply lookup_words_inr in Hl.
  apply list_elem_of_lookup in Hi as [j Hj].
  destruct (Forall2_lookup_r _ _ _ _ _ Hl Hj) as (w & _ & Hw).
  by exists w.
Qed.

(** Every arc of the raw automaton copies the id of a usable entry. *)
Lemma raw_labels_vocab word_to_int wd pd phrases :
  arcs_all
    (λ a, (∃ w, word_to_int !! w = Some (ilabel a)) ∧ olabel a = ilabel a)
    (raw_states wd pd (accepted_ints word_to_int phrases)).
Proof.
  apply arcs_all_raw_states. intros l X n Hl.
  eapply Forall_impl; [apply chain_arcs_labels|].
  intros a [Hin Ho]. split; [|done].
  by eapply accepted_ints_values.
Qed.

Lemma elem_of_arc_labels f x :
  x ∈ arc_labels f ↔
  ∃ st a, st ∈ states f ∧ a ∈ arcs st ∧ x = (ilabel a, olabel a).
Proof.
  unfold arc_labels. rewrite list_elem_of_bind. split.
  - intros (st & Hx & Hst). apply list_elem_of_fmap in Hx as (a & -> & Ha).
    by exists st, a.
  - intros (st & a & Hst & Ha & ->). exists st. split; [|done].
    apply list_elem_of_fmap. by exists a.
Qed.

(** A property of label pairs passes from the raw automaton to one that
    takes its labels from it. *)
Lemma labels_from_arcs_all (Q : Z * Z → Prop) d raw :
  labels_from d raw →
  arcs_all (λ a, Q (ilabel a, olabel a)) (states raw) →
  arcs_all (λ a, Q (ilabel a, olabel a)) (states d).
Proof.
  unfold labels_from, arcs_all. rewrite !Forall_forall.
  intros Hfrom Hraw st Hst. apply Forall_forall. intros a Ha.
  assert ((ilabel a, olabel a) ∈ arc_labels d) as Hin
    by (apply elem_of_arc_labels; by exists st, a).
  apply Hfrom, elem_of_arc_labels in Hin as (st' & a' & Hst' & Ha' & ->).
  specialize (Hraw st' Hst'). rewrite Forall_forall in Hraw. by apply Hraw.
Qed.

(** Under a valid vocabulary the determinized automaton has neither
    epsilon nor wildcard arcs. *)
Lemma determinized_labels self wd pd phrases d :
  valid_vocabulary self →
  labels_from d
    (mkFst (Some 0)
       (raw_states wd pd (accepted_ints (word_to_int self) phrases))) →
  arcs_all (λ a, ¬ is_epsilon a ∧ ¬ is_wildcard (rho_int self) a) (states d).
Proof.
  intros Hvalid Hfrom.
  apply (labels_from_arcs_all
           (λ x, ¬ (x.1 = 0%Z ∧ x.2 = 0%Z)
                 ∧ ¬ (x.1 = rho_int self ∧ x.2 = rho_int self)) d _ Hfrom).
  cbn [states].
  eapply Forall_impl; [apply raw_labels_vocab|].
  intros st Hst. eapply Forall_impl; [exact Hst|].
  intros a [[w Hw] Ho]. cbn.
  apply (map_Forall_lookup_1 _ _ _ _ Hvalid) in Hw as [H0 Hrho].
  split; intros [? ?]; congruence.
Qed.

Lemma rewritten_lookup s_start rho sts s :
  imap (rewrite_state s_start rho) sts !! s
  = rewrite_state s_start rho s <$> sts !! s.
Proof. apply list_lookup_imap. Qed.
End label_facts.

(** ** The chains of the raw automaton *)

Section chain_facts.
Context {W : Type} `{!Weight W}.
Implicit Types (sts : list (State W)) (l : list Z) (ls : list (list Z)).

Lemma length_foldl_raw_step wd pd ls sts :
  length (foldl (raw_step wd pd) sts ls)
  = length sts + sum_list (length <$> ls).
Proof.
  revert sts. induction ls as [|l ls IH]; intros sts; cbn; [lia|].
  rewrite IH, length_raw_step. lia.
Qed.

Lemma length_raw_states wd pd ls :
  length (raw_states wd pd ls) = 1 + sum_list (length <$> ls).
Proof. unfold raw_states. by rewrite length_foldl_raw_step. Qed.

Lemma grows_to_refl sts : grows_to sts sts.
Proof. intros s st Hs. by exists st. Qed.

Lemma grows_to_trans sts1 sts2 sts3 :
  grows_to sts1 sts2 → grows_to sts2 sts3 → grows_to sts1 sts3.
Proof.
  intros H12 H23 s st Hs.
  destruct (H12 s st Hs) as (st2 & Hs2 & Hf2 & Ha2).
  destruct (H23 s st2 Hs2) as (st3 & Hs3 & Hf3 & Ha3).
  exists st3. split_and!; [done|congruence|auto].
Qed.

Lemma grows_to_add_chain s0 sts cs : grows_to sts (add_chain s0 sts cs).
Proof.
  destruct cs as [|a0 rest]; [apply grows_to_refl|].
  intros s st Hs. cbn [add_chain].
  rewrite lookup_app_l by (rewrite length_alter; by eapply lookup_lt_Some).
  rewrite list_lookup_alter. case_decide; subst.
  - rewrite Hs. eexists. split; [done|]. cbn.
    split; [done|]. intros a Ha. apply elem_of_app. by left.
  - by exists st.
Qed.

Lemma grows_to_foldl wd pd ls sts :
  grows_to sts (foldl (raw_step wd pd) sts ls).
Proof.
  revert sts. induction ls as [|l ls IH]; intros sts; [apply grows_to_refl|].
  cbn [foldl]. eapply grows_to_trans; [|apply IH].
  apply grows_to_add_chain.
Qed.

(** The chain one phrase adds. *)
Lemma raw_step_arc wd pd sts l j a :
  0 < length sts → l !! j = Some a →
  ∃ st,
    raw_step wd pd sts l !! chain_source (length sts) j = Some st ∧
    mkArc a a (if decide (S j = length l) then stored_weight wd pd l else w_zero)
          (length sts + j) ∈ arcs st.
Proof.
  intros Hpos Hj. unfold raw_step.
  assert (chain_arcs (stored_weight wd pd l) (length sts) l !! j
          = Some (mkArc a a
                    (if decide (S j = length l) then stored_weight wd pd l
                     else w_zero) (length sts + j))) as Hcj.
  { unfold chain_arcs. by rewrite list_lookup_imap, Hj. }
  destruct (chain_arcs (stored_weight wd pd l) (length sts) l)
    as [|a0 rest] eqn:Hcs; [done|].
  cbn [add_chain]. destruct j as [|j]; cbn [chain_source].
  - injection Hcj as <-.
    rewrite lookup_app_l by (by rewrite length_alter).
    rewrite list_lookup_alter_eq.
    destruct (lookup_lt_is_Some_2 sts 0 Hpos) as [st0 ->].
    eexists. split; [done|]. cbn. apply elem_of_app. right. by constructor.
  - change ((a0 :: rest) !! S j) with (rest !! j) in Hcj.
    rewrite lookup_app_r by (rewrite length_alter; lia).
    rewrite length_alter. replace (length sts + j - length sts) with j by lia.
    unfold chain_states. cbn [tail].
    rewrite lookup_app_l
      by (rewrite length_fmap; by eapply lookup_lt_Some).
    eexists. split; [by rewrite list_lookup_fmap, Hcj|].
    cbn. by constructor.
Qed.

Lemma raw_step_final wd pd sts l :
  l ≠ [] →
  ∃ st,
    raw_step wd pd sts l !! (length sts + length l - 1) = Some st ∧
    final st = Some w_zero.
Proof.
  intros Hne. unfold raw_step.
  pose proof (length_chain_arcs (stored_weight wd pd l) (length sts) l) as Hlen.
  destruct (chain_arcs (stored_weight wd pd l) (length sts) l)
    as [|a0 rest]; [by destruct l|].
  cbn [add_chain length] in *.
  rewrite lookup_app_r by (rewrite length_alter; lia).
  rewrite length_alter. unfold chain_states. cbn [tail].
  rewrite lookup_app_r by (rewrite length_fmap; lia).
  rewrite length_fmap.
  replace (length sts + length l - 1 - length sts - length rest) with 0 by lia.
  by eexists.
Qed.

(** The chain of the phrase at a given place of the accepted sequences. *)
Lemma raw_states_arc wd pd ls1 l ls2 j a :
  l !! j = Some a →
  let n := 1 + sum_list (length <$> ls1) in
  ∃ st,
    raw_states wd pd (ls1 ++ l :: ls2) !! chain_source n j = Some st ∧
    mkArc a a (if decide (S j = length l) then stored_weight wd pd l else w_zero)
          (n + j) ∈ arcs st.
Proof.
  intros Hj n. unfold raw_states. rewrite foldl_app. cbn [foldl].
  fold (raw_states wd pd ls1).
  destruct (raw_step_arc wd pd (raw_states wd pd ls1) l j a)
    as (st & Hst & Ha); [rewrite length_raw_states; lia|done|].
  rewrite length_raw_states in Hst, Ha. fold n in Hst, Ha.
  destruct (grows_to_foldl wd pd ls2 _ _ _ Hst) as (st' & Hst' & _ & Harcs).
  exists st'. split; [done|]. by apply Harcs.
Qed.

Lemma raw_states_final wd pd ls1 l ls2 :
  l ≠ [] →
  let n := 1 + sum_list (length <$> ls1) in
  ∃ st,
    raw_states wd pd (ls1 ++ l :: ls2) !! (n + length l - 1) = Some st ∧
    final st = Some w_zero.
Proof.
  intros Hne n. unfold raw_states. rewrite foldl_app. cbn [foldl].
  fold (raw_states wd pd ls1).
  destruct (raw_step_final wd pd (raw_states wd pd ls1) l Hne)
    as (st & Hst & Hfin).
  rewrite length_raw_states in Hst. fold n in Hst.
  destruct (grows_to_foldl wd pd ls2 _ _ _ Hst) as (st' & Hst' & Hfin' & _).
  exists st'. split; [done|]. congruence.
Qed.

(** Every state but the start state is the target of exactly one arc. *)
Lemma targets_of_alter (a : Arc W) s sts :
  s < length sts →
  targets_of (alter (add_out a) s sts) ≡ₚ nextstate a :: targets_of sts.
Proof.
  revert s. induction sts as [|st sts IH]; intros s Hs; cbn in Hs; [lia|].
  destruct s as [|s]; cbn [alter list_alter].
  - unfold targets_of. rewrite !bind_cons. cbn [add_out arcs].
    rewrite fmap_app. cbn [fmap list_fmap].
    rewrite <-(assoc_L (++)). cbn [app].
    by rewrite <-Permutation_middle.
  - unfold targets_of in *. rewrite !bind_cons.
    change (list_alter ?f s sts) with (alter f s sts).
    rewrite IH by lia. by rewrite <-Permutation_middle.
Qed.

Lemma targets_of_chain_states (cs : list (Arc W)) :
  targets_of (chain_states cs) = nextstate <$> tail cs.
Proof.
  unfold targets_of, chain_states. rewrite bind_app. cbn.
  rewrite app_nil_r. induction (tail cs) as [|a k IH]; [done|].
  rewrite fmap_cons, bind_cons, IH. done.
Qed.

Lemma targets_of_add_chain s sts cs :
  s < length sts →
  targets_of (add_chain s sts cs) ≡ₚ targets_of sts ++ (nextstate <$> cs).
Proof.
  intros Hs. destruct cs as [|a0 rest]; cbn [add_chain].
  { by rewrite app_nil_r. }
  unfold targets_of at 1. rewrite bind_app.
  fold (targets_of (alter (add_out a0) s sts)).
  fold (targets_of (chain_states (a0 :: rest))).
  rewrite targets_of_alter by done. rewrite targets_of_chain_states.
  cbn [tail fmap list_fmap]. by rewrite <-Permutation_middle.
Qed.

Lemma targets_chain_arcs X n l :
  nextstate <$> chain_arcs X n l = seq n (length l).
Proof.
  unfold chain_arcs. rewrite fmap_imap.
  rewrite (imap_ext _ (λ j _, id (n + j))) by done.
  by rewrite imap_seq, list_fmap_id.
Qed.

Lemma targets_of_foldl wd pd ls sts :
  0 < length sts →
  targets_of (foldl (raw_step wd pd) sts ls)
  ≡ₚ targets_of sts ++ seq (length sts) (sum_list (length <$> ls)).
Proof.
  revert sts. induction ls as [|l ls IH]; intros sts Hpos.
  { cbn. by rewrite app_nil_r. }
  cbn [foldl].
  change (sum_list (length <$> l :: ls))
    with (length l + sum_list (length <$> ls)).
  rewrite IH by (rewrite length_raw_step; lia).
  unfold raw_step at 1. rewrite targets_of_add_chain by done.
  rewrite targets_chain_arcs, length_raw_step.
  by rewrite seq_app, (assoc_L (++)).
Qed.

Lemma targets_of_raw_states wd pd ls :
  targets_of (raw_states wd pd ls) ≡ₚ seq 1 (sum_list (length <$> ls)).
Proof. unfold raw_states. by rewrite targets_of_foldl by (cbn; lia). Qed.

Lemma accepted_ints_app word_to_int ps1 ps2 :
  accepted_ints word_to_int (ps1 ++ ps2)
  = accepted_ints word_to_int ps1 ++ accepted_ints word_to_int ps2.
Proof. apply omap_app. Qed.

Lemma accepted_ints_cons_Some word_to_int p ps l :
  phrase_ints word_to_int p = Some l →
  accepted_ints word_to_int (p :: ps) = l :: accepted_ints word_to_int ps.
Proof. intros Hp. unfold accepted_ints. cbn. by rewrite Hp. Qed.

Lemma accepted_ints_cons_None word_to_int p ps :
  phrase_ints word_to_int p = None →
  accepted_ints word_to_int (p :: ps) = accepted_ints word_to_int ps.
Proof. intros Hp. unfold accepted_ints. cbn. by rewrite Hp. Qed.
End chain_facts.

(** * Builder construction *)

Section init_claims.
Variable loadtxt : string → res (list (string * Z)).

Lemma foldl_insert_is_Some (rows : list (string * Z)) (d : gmap string Z)
    (k : string) :
  is_Some (foldl (λ d r, <[r.1 := r.2]> d) d rows !! k)
  ↔ is_Some (d !! k) ∨ k ∈ rows.*1.
Proof.
  revert d. induction rows as [|[w i] rows IH]; intros d; cbn [foldl].
  - rewrite fmap_nil, elem_of_nil. tauto.
  - rewrite IH, fmap_cons, elem_of_cons. cbn [fst snd].
    rewrite lookup_insert_is_Some.
    destruct (decide (w = k)) as [->|Hne]; [tauto|].
    split.
    + intros [[[=]|[_ ?]]|?]; auto.
    + intros [?|[?|?]]; auto; try congruence.
Qed.

Lemma dict_of_rows_is_Some (rows : list (string * Z)) (k : string) :
  is_Some (dict_of_rows rows !! k) ↔ k ∈ rows.*1.
Proof.
  unfold dict_of_rows. rewrite foldl_insert_is_Some, lookup_empty.
  split; [|by right]. intros [[? [=]]|?]; done.
Qed.

Lemma init_outcome (words_txt : string) :
  __init__ loadtxt words_txt
  = match loadtxt words_txt with
    | inl e => inl e
    | inr rows =>
        match rows with
        | [_] => inl (TypeError "iteration over a 0-d array")
        | _ => builder_of_rows rows
        end
    end.
Proof.
  unfold __init__. destruct (loadtxt words_txt) as [e|rows]; [done|].
  change (mbind ?k (inr ?x)) with (k x). cbn beta.
  assert ((rows' ← mret rows;
           let word_to_int := dict_of_rows rows' in
           word_to_int ← dict_del word_to_int "<eps>";
           rho_int ← dict_get word_to_int "#0";
           word_to_int ← dict_del word_to_int "#0";
           mret (mkBuilder word_to_int rho_int))
          = builder_of_rows rows) as Hrest.
  { change (mbind ?k (mret ?x)) with (k x). cbn beta zeta.
    unfold builder_of_rows, dict_del at 2.
    destruct (dict_of_rows rows !! "<eps>") as [i|]; [|done]. cbn.
    unfold dict_get, dict_del. rewrite lookup_delete_ne by done.
    by destruct (dict_of_rows rows !! "#0") as [rho|]. }
  destruct rows as [|r1 [|r2 rows]]; [exact Hrest|done|exact Hrest].
Qed.

(** A table of one row lacks a reserved symbol. *)
Lemma one_row_lacks_reserved (r : string * Z) :
  "<eps>" ∉ [r].*1 ∨ "#0" ∉ [r].*1.
Proof.
  destruct (decide (r.1 = "<eps>")) as [Heq|Hne].
  - right. rewrite fmap_cons, Heq. by intros [=]%list_elem_of_singleton.
  - left. rewrite fmap_cons. intros Hin%list_elem_of_singleton. congruence.
Qed.

(** C7, as the code has it. Construction fails exactly when the loader
    fails, the table has no ["<eps>"] row or it has no ["#0"] row, and then
    no builder is returned.  The exception is the loader's own for a table
    it rejects; a [TypeError] for a table of exactly one row, which the
    loader returns as an array without dimension that the constructor
    cannot iterate (such a table lacks a reserved symbol); and a
    [KeyError] naming the missing symbol otherwise (there is no
    [VocabularyError]).  On a table with both rows construction returns
    the builder whose table is the loaded one less the two reserved rows,
    and whose wildcard id is the id of ["#0"]. *)
Theorem C7_construction_outcomes (words_txt : string) :
  __init__ loadtxt words_txt
  = match loadtxt words_txt with
    | inl e => inl e
    | inr rows =>
        match rows with
        | [_] => inl (TypeError "iteration over a 0-d array")
        | _ =>
            match dict_of_rows rows !! "<eps>", dict_of_rows rows !! "#0" with
            | None, _ => inl (KeyError "<eps>")
            | Some _, None => inl (KeyError "#0")
            | Some _, Some rho =>
                inr (mkBuilder
                       (delete "#0" (delete "<eps>" (dict_of_rows rows))) rho)
            end
        end
    end
  ∧ ((∃ e, __init__ loadtxt words_txt = inl e)
     ↔ (∃ e, loadtxt words_txt = inl e)
       ∨ (∃ rows, loadtxt words_txt = inr rows
                  ∧ ("<eps>" ∉ rows.*1 ∨ "#0" ∉ rows.*1))).
Proof.
  split; [apply init_outcome|]. rewrite init_outcome.
  destruct (loadtxt words_txt) as [e|rows].
  { split; [|by exists e]. intros _. left. by exists e. }
  assert ((∃ e, builder_of_rows rows = inl e)
          ↔ "<eps>" ∉ rows.*1 ∨ "#0" ∉ rows.*1) as Hrows.
  { unfold builder_of_rows.
    pose proof (dict_of_rows_is_Some rows "<eps>") as Heps.
    pose proof (dict_of_rows_is_Some rows "#0") as Hrho.
    destruct (dict_of_rows rows !! "<eps>") as [i|].
    - destruct (dict_of_rows rows !! "#0") as [rho|].
      + split; [by intros [? [=]]|].
        intros [Hn|Hn]; destruct Hn; [by apply Heps|by apply Hrho].
      + split; [|by eexists]. intros _. right.
        intros Hin. apply Hrho in Hin as [? [=]].
    - split; [|by eexists]. intros _. left.
      intros Hin. apply Heps in Hin as [? [=]]. }
  destruct rows as [|r1 [|r2 rows]].
  - rewrite Hrows. split; [intros Hn; right; by eexists|].
    by intros [[? [=]]|(rows' & [= <-] & Hn)].
  - split; [|by eexists]. intros _. right. exists [r1]. split; [done|].
    apply one_row_lacks_reserved.
  - rewrite Hrows. split; [intros Hn; right; by eexists|].
    by intros [[? [=]]|(rows' & [= <-] & Hn)].
Qed.

(** What a successful construction leaves in the builder. *)
Lemma init_inr (words_txt : string) (self : BoostingFstBuilder) :
  __init__ loadtxt words_txt = inr self →
  ∃ rows rho,
    loadtxt words_txt = inr rows ∧
    "<eps>" ∈ rows.*1 ∧ "#0" ∈ rows.*1 ∧
    dict_of_rows rows !! "#0" = Some rho ∧
    self = mkBuilder (delete "#0" (delete "<eps>" (dict_of_rows rows))) rho.
Proof.
  rewrite init_outcome. destruct (loadtxt words_txt) as [e|rows]; [done|].
  intros Hinit.
  assert (builder_of_rows rows = inr self) as Hb
    by (by destruct rows as [|r1 [|r2 rows]]).
  clear Hinit. unfold builder_of_rows in Hb.
  pose proof (dict_of_rows_is_Some rows "<eps>") as Heps.
  pose proof (dict_of_rows_is_Some rows "#0") as Hrho.
  destruct (dict_of_rows rows !! "<eps>") as [i|]; [|done].
  destruct (dict_of_rows rows !! "#0") as [rho|] eqn:Hr; [|done].
  injection Hb as <-. exists rows, rho. split_and!; try done.
  - by apply Heps.
  - by apply Hrho.
Qed.

(** With both reserved rows the construction returns. *)
Lemma init_returns (words_txt : string) (rows : list (string * Z)) :
  loadtxt words_txt = inr rows →
  "<eps>" ∈ rows.*1 → "#0" ∈ rows.*1 →
  ∃ rho,
    dict_of_rows rows !! "#0" = Some rho ∧
    __init__ loadtxt words_txt
    = inr (mkBuilder (delete "#0" (delete "<eps>" (dict_of_rows rows))) rho).
Proof.
  intros Hrows Heps Hrho. rewrite init_outcome, Hrows.
  pose proof Heps as Heps'. pose proof Hrho as Hrho'.
  apply dict_of_rows_is_Some in Heps as [i Hi].
  apply dict_of_rows_is_Some in Hrho as [rho Hr].
  exists rho. split; [done|].
  assert (builder_of_rows rows
          = inr (mkBuilder
                   (delete "#0" (delete "<eps>" (dict_of_rows rows))) rho))
    as Hb by (unfold builder_of_rows; by rewrite Hi, Hr).
  destruct rows as [|r1 [|r2 rows]]; [done| |done].
  destruct (one_row_lacks_reserved r1); tauto.
Qed.
End init_claims.

(** * The raw prefix automaton *)

Section raw_claims.
Context {W : Type} `{!Weight W}.
Implicit Types (raw : VectorFst W) (p : list string) (l : list Z).

Lemma arcs_from_elem (f : VectorFst W) s st (a : Arc W) :
  states f !! s = Some st → a ∈ arcs st → a ∈ arcs_from f s.
Proof. intros Hs Ha. unfold arcs_from. by rewrite Hs. Qed.

(** The arc of the word at position [j] of an accepted phrase, in the raw
    automaton of a phrase list that holds the phrase. *)
Lemma raw_chain_arc word_to_int wd pd ps1 p ps2 l j a :
  phrase_ints word_to_int p = Some l → l !! j = Some a →
  let n := 1 + sum_list (length <$> accepted_ints word_to_int ps1) in
  mkArc a a (if decide (S j = length l) then stored_weight wd pd l else w_zero)
        (n + j)
  ∈ arcs_from
      (mkFst (Some 0)
         (raw_states wd pd (accepted_ints word_to_int (ps1 ++ p :: ps2))))
      (chain_source n j).
Proof.
  intros Hp Hj n.
  rewrite accepted_ints_app, (accepted_ints_cons_Some _ _ _ _ Hp).
  destruct (raw_states_arc wd pd (accepted_ints word_to_int ps1) l
              (accepted_ints word_to_int ps2) j a Hj) as (st & Hst & Ha).
  by eapply arcs_from_elem.
Qed.

(** The boost of an accepted phrase of a build that returned was
    accepted by the library. *)
Lemma boost_stored word_to_int wd pd ps1 p ps2 l :
  boost_error wd pd (accepted_ints word_to_int (ps1 ++ p :: ps2)) = None →
  phrase_ints word_to_int p = Some l →
  to_weight (phrase_weight wd pd l) = inr (stored_weight wd pd l).
Proof.
  intros Hnone Hp. apply boost_error_None in Hnone.
  rewrite Forall_forall in Hnone. apply Hnone.
  rewrite accepted_ints_app, (accepted_ints_cons_Some _ _ _ _ Hp).
  apply elem_of_app. right. by left.
Qed.

(** C8. The raw automaton allocates fresh states for every phrase: the
    automaton the build returns has one state more than the sum of the
    lengths of the accepted id sequences; every state but the start state
    is entered by exactly one arc; the word at position [j] of an accepted
    phrase enters state [n + j], where [n] is one more than the number of
    states the accepted phrases before it took, whatever those phrases
    are; the arcs of the words before the last carry zero weight, the arc
    of the last word the weight stored for the boost; and the chain of a
    later phrase starts past the end of the chain of an earlier one, so
    two phrases never share a state, common prefix or not. *)
Theorem C8_fresh_states_per_phrase phrases word_to_int wd pd raw log :
  __gen_initial_graph phrases word_to_int wd pd = inr (raw, log) →
  num_states raw
  = 1 + sum_list (length <$> accepted_ints word_to_int phrases) ∧
  arc_targets raw ≡ₚ seq 1 (num_states raw - 1) ∧
  (∀ ps1 p ps2 l,
     phrases = ps1 ++ p :: ps2 → phrase_ints word_to_int p = Some l →
     let n := 1 + sum_list (length <$> accepted_ints word_to_int ps1) in
     ∃ X,
       to_weight (w_add (w_mul (w_of_len (length l)) wd) pd) = inr X ∧
       ∀ j a, l !! j = Some a →
         mkArc a a (if decide (S j = length l) then X else w_zero) (n + j)
         ∈ arcs_from raw (chain_source n j)) ∧
  (∀ ps1 p ps2 q ps3 l,
     phrases = ps1 ++ p :: ps2 ++ q :: ps3 →
     phrase_ints word_to_int p = Some l →
     1 + sum_list (length <$> accepted_ints word_to_int ps1) + length l
     ≤ 1 + sum_list (length <$> accepted_ints word_to_int
                                  (ps1 ++ p :: ps2))).
Proof.
  intros (-> & -> & Hnone)%gen_initial_graph_inr.
  unfold num_states, arc_targets. cbn [states].
  rewrite length_raw_states. split; [done|]. split.
  - fold (targets_of (raw_states wd pd (accepted_ints word_to_int phrases))).
    rewrite targets_of_raw_states. by rewrite Nat.add_comm, Nat.add_sub.
  - split.
    + intros ps1 p ps2 l -> Hp. exists (stored_weight wd pd l).
      split; [exact (boost_stored _ _ _ _ _ _ _ Hnone Hp)|].
      intros j a Hj.
      by apply (raw_chain_arc word_to_int wd pd ps1 p ps2 l j a).
    + intros ps1 p ps2 q ps3 l _ Hp.
      rewrite accepted_ints_app, (accepted_ints_cons_Some _ _ _ _ Hp).
      rewrite fmap_app, fmap_cons, sum_list_with_app. cbn. lia.
Qed.

Lemma accepted_ints_filter word_to_int phrases :
  accepted_ints word_to_int (filter (in_vocab word_to_int) phrases)
  = accepted_ints word_to_int phrases.
Proof.
  induction phrases as [|p ps IH]; [done|].
  destruct (decide (in_vocab word_to_int p)) as [Hp|Hp].
  - rewrite filter_cons_True by done. unfold accepted_ints in *. cbn.
    by rewrite IH.
  - rewrite filter_cons_False by done. rewrite IH.
    symmetry. apply accepted_ints_cons_None, phrase_ints_None. by left.
Qed.

Lemma warnings_of_filter word_to_int phrases :
  warnings_of word_to_int (filter (in_vocab word_to_int) phrases) = [].
Proof.
  unfold warnings_of. rewrite filter_none; [done|].
  apply Forall_forall. intros p Hp. apply list_elem_of_filter in Hp as [Hp _].
  tauto.
Qed.

Lemma oov_words_complete word_to_int p w :
  w ∈ p → word_to_int !! w = None → w ∈ oov_words word_to_int p.
Proof. intros Hw Hnone. unfold oov_words. by apply list_elem_of_filter. Qed.

(** C6, as the code has it. A phrase whose projected id sequence is empty
    (it is the phrase without words) is skipped without a diagnostic: the
    build returns the very automaton and the very warnings it returns for
    the list without that phrase. *)
Theorem C6_empty_phrase_skipped_silently word_to_int wd pd ps1 p ps2 :
  lookup_words word_to_int p = inr [] →
  p = [] ∧
  __gen_initial_graph (ps1 ++ p :: ps2) word_to_int wd pd
  = __gen_initial_graph (ps1 ++ ps2) word_to_int wd pd.
Proof.
  intros Hp. split.
  { apply lookup_words_inr in Hp. by inversion Hp. }
  rewrite !gen_initial_graph_closed.
  rewrite !accepted_ints_app, accepted_ints_cons_None
    by (apply phrase_ints_None; by right).
  unfold warnings_of. rewrite !filter_app.
  rewrite (filter_cons_False _ p); [done|].
  intros Hv. apply Hv, lookup_words_in_vocab. by exists [].
Qed.
End raw_claims.

(** * The rewritten automaton *)

Section rewrite_claims.
Context {W : Type} `{!Weight W}.
Variable determinize : VectorFst W → res (VectorFst W).
Implicit Types (self : BoostingFstBuilder) (d raw g : VectorFst W).

(** The run of [lattice_boosting_graph] once the raw automaton and its
    determinization are known. *)
Lemma lattice_boosting_graph_run self phrases wd pd raw log d :
  __gen_initial_graph phrases (word_to_int self) wd pd = inr (raw, log) →
  determinize raw = inr d → has_start d →
  ∃ s_start,
    start d = Some s_start ∧ s_start < num_states d ∧
    raw = mkFst (Some 0)
            (raw_states wd pd (accepted_ints (word_to_int self) phrases)) ∧
    lattice_boosting_graph determinize self phrases wd pd =
    inr (mkFst (Some s_start)
           (imap (rewrite_state s_start (rho_int self)) (states d)), log).
Proof.
  intros (-> & -> & Hnone)%gen_initial_graph_inr Hdet (s_start & Hs & Hlt).
  exists s_start. split_and!; [done..|].
  by apply lattice_boosting_graph_closed.
Qed.

(** C2. Whenever determinization returns an automaton with a start state
    (it does so for every raw automaton, which always has one), the graph
    returned by [lattice_boosting_graph] has exactly one final state, the
    start state, and its final weight is the zero cost [0.0].  Nothing is
    asked of the phrase list: the statement covers the non-empty valid
    inputs of the claim. *)
Theorem C2_single_final_state self phrases wd pd raw log d :
  __gen_initial_graph phrases (word_to_int self) wd pd = inr (raw, log) →
  determinize raw = inr d → has_start d →
  ∃ g s_start,
    lattice_boosting_graph determinize self phrases wd pd = inr (g, log) ∧
    start g = Some s_start ∧
    final_states g = [s_start] ∧
    final_weight g s_start = Some w_zero.
Proof.
  intros Hgen Hdet Hstart.
  destruct (lattice_boosting_graph_run _ _ _ _ _ _ _ Hgen Hdet Hstart)
    as (s_start & Hs & Hlt & _ & Hrun).
  eexists _, s_start. split; [exact Hrun|]. split; [done|].
  assert (∀ s, s < num_states d →
            final_weight
              (mkFst (Some s_start)
                 (imap (rewrite_state s_start (rho_int self)) (states d))) s
            = if decide (s = s_start) then Some w_zero else None) as Hfinal.
  { intros s Hlts. unfold final_weight. cbn [states].
    rewrite rewritten_lookup.
    destruct (lookup_lt_is_Some_2 (states d) s Hlts) as [st ->]. cbn.
    unfold rewrite_state. by case_decide. }
  split.
  - unfold final_states, num_states at 1. cbn [states]. rewrite length_imap.
    apply filter_seq_singleton; [done|].
    intros s Hlts. rewrite (Hfinal s Hlts). case_decide.
    + split; [done|]. by eexists.
    + split; [|done]. by intros [? ?].
  - rewrite (Hfinal s_start Hlt). by rewrite decide_True.
Qed.

(** C3. Over a valid vocabulary (no usable entry has the id 0), and when
    the determinized automaton has a start state and takes its arc labels
    from the raw automaton, the returned graph has the start state and
    the number of states of the determinized automaton, and every state
    of it other than the start state has exactly one outgoing epsilon arc
    (labels 0 and 0), and that arc leads to the start state with zero
    weight. *)
Theorem C3_epsilon_back_arcs self phrases wd pd raw log d :
  valid_vocabulary self →
  __gen_initial_graph phrases (word_to_int self) wd pd = inr (raw, log) →
  determinize raw = inr d → has_start d → labels_from d raw →
  ∃ g s_start,
    lattice_boosting_graph determinize self phrases wd pd = inr (g, log) ∧
    start g = Some s_start ∧
    start d = Some s_start ∧
    num_states g = num_states d ∧
    ∀ s, s < num_states g → s ≠ s_start →
      filter is_epsilon (arcs_from g s) = [mkArc 0 0 w_zero s_start].
Proof.
  intros Hvalid Hgen Hdet Hstart Hfrom.
  destruct (lattice_boosting_graph_run _ _ _ _ _ _ _ Hgen Hdet Hstart)
    as (s_start & Hs & Hlt & -> & Hrun).
  eexists _, s_start. split; [exact Hrun|]. split; [done|].
  split; [done|].
  split; [unfold num_states; cbn [states]; by rewrite length_imap|].
  intros s Hlts Hne. unfold num_states in Hlts. cbn [states] in Hlts.
  rewrite length_imap in Hlts.
  unfold arcs_from. cbn [states]. rewrite rewritten_lookup.
  destruct (lookup_lt_is_Some_2 (states d) s Hlts) as [st Hst].
  rewrite Hst. cbn. unfold rewrite_state. rewrite decide_False by done.
  cbn [arcs]. rewrite filter_app.
  pose proof (determinized_labels _ _ _ _ _ Hvalid Hfrom) as Hall.
  unfold arcs_all in Hall. rewrite Forall_forall in Hall.
  rewrite filter_none.
  - by rewrite filter_cons_True.
  - eapply Forall_impl; [apply Hall; by eapply list_elem_of_lookup_2|].
    by intros a [? _].
Qed.

(** C4. Over a valid vocabulary (no usable entry has the wildcard id), and
    when the determinized automaton has a start state and takes its arc
    labels from the raw automaton, the start state of the returned graph
    has exactly one outgoing arc whose two labels are the wildcard id, and
    that arc is a self-loop of zero weight. *)
Theorem C4_wildcard_self_loop self phrases wd pd raw log d :
  valid_vocabulary self →
  __gen_initial_graph phrases (word_to_int self) wd pd = inr (raw, log) →
  determinize raw = inr d → has_start d → labels_from d raw →
  ∃ g s_start,
    lattice_boosting_graph determinize self phrases wd pd = inr (g, log) ∧
    start g = Some s_start ∧
    filter (is_wildcard (rho_int self)) (arcs_from g s_start)
    = [mkArc (rho_int self) (rho_int self) w_zero s_start].
Proof.
  intros Hvalid Hgen Hdet Hstart Hfrom.
  destruct (lattice_boosting_graph_run _ _ _ _ _ _ _ Hgen Hdet Hstart)
    as (s_start & Hs & Hlt & -> & Hrun).
  eexists _, s_start. split; [exact Hrun|]. split; [done|].
  unfold arcs_from. cbn [states]. rewrite rewritten_lookup.
  destruct (lookup_lt_is_Some_2 (states d) s_start Hlt) as [st Hst].
  rewrite Hst. cbn. unfold rewrite_state. rewrite decide_True by done.
  cbn [arcs]. rewrite filter_app.
  pose proof (determinized_labels _ _ _ _ _ Hvalid Hfrom) as Hall.
  unfold arcs_all in Hall. rewrite Forall_forall in Hall.
  rewrite filter_none.
  - by rewrite filter_cons_True.
  - eapply Forall_impl; [apply Hall; by eapply list_elem_of_lookup_2|].
    by intros a [_ ?].
Qed.
End rewrite_claims.

(** * Phrases that are dropped *)

Section dropped_claims.
Context {W : Type} `{!Weight W}.
Variable determinize : VectorFst W → res (VectorFst W).
Implicit Types (self : BoostingFstBuilder) (p : list string).

(** The rest of [lattice_boosting_graph] after the raw automaton is
    built: only the automaton matters to it, the warnings pass through. *)
Lemma lattice_boosting_graph_of_raw self phrases phrases' wd pd raw log log' :
  __gen_initial_graph phrases (word_to_int self) wd pd = inr (raw, log) →
  __gen_initial_graph phrases' (word_to_int self) wd pd = inr (raw, log') →
  lattice_boosting_graph determinize self phrases wd pd
  = match lattice_boosting_graph determinize self phrases' wd pd with
    | inr (g, _) => inr (g, log)
    | inl e => inl e
    end.
Proof.
  intros Hgen Hgen'. unfold lattice_boosting_graph. rewrite Hgen, Hgen'.
  change (mbind ?k (inr ?x)) with (k x). cbn beta iota.
  destruct (determinize raw) as [e|d]; [done|].
  change (mbind ?k (inr ?x)) with (k x). cbn beta iota.
  destruct (start d) as [s_start|]; [|done].
  destruct (for_each (rewrite_step s_start) (seq 0 (num_states d)) d)
    as [e|f1]; [done|].
  change (mbind ?k (inr ?x)) with (k x). cbn beta iota.
  destruct (set_final f1 s_start (Some w_zero)) as [e|f2]; [done|].
  change (mbind ?k (inr ?x)) with (k x). cbn beta iota.
  by destruct (add_arc f2 s_start _) as [e|f3].
Qed.

(** C10. The builder a successful construction returns has neither
    ["<eps>"] nor ["#0"] in its usable table, although both are rows of the
    vocabulary file.  So a phrase with one of them as a token is out of
    vocabulary: it is dropped whole, with a warning that names the token
    among the missing words, and the outcome of the build is the one for
    the phrase list without it, the warning apart: the same raw automaton
    with the warning logged between those of the phrases before and
    after, or the same exception. *)
Theorem C10_reserved_symbols_out_of_vocabulary
    (loadtxt : string → res (list (string * Z))) (words_txt : string) self :
  __init__ loadtxt words_txt = inr self →
  (∃ rows, loadtxt words_txt = inr rows
           ∧ "<eps>" ∈ rows.*1 ∧ "#0" ∈ rows.*1) ∧
  word_to_int self !! "<eps>" = None ∧
  word_to_int self !! "#0" = None ∧
  ∀ p reserved,
    reserved = "<eps>" ∨ reserved = "#0" → reserved ∈ p →
    ¬ in_vocab (word_to_int self) p ∧
    reserved ∈ oov_words (word_to_int self) p ∧
    ∀ ps1 ps2 wd pd,
      __gen_initial_graph (ps1 ++ p :: ps2) (word_to_int self) wd pd
      = match __gen_initial_graph (ps1 ++ ps2) (word_to_int self) wd pd with
        | inl e => inl e
        | inr (raw, _) =>
            inr (raw,
                 warnings_of (word_to_int self) ps1
                 ++ mkWarning (oov_words (word_to_int self) p) p
                 :: warnings_of (word_to_int self) ps2)
        end ∧
      ∀ raw log,
        __gen_initial_graph (ps1 ++ ps2) (word_to_int self) wd pd
        = inr (raw, log) →
        log = warnings_of (word_to_int self) ps1
              ++ warnings_of (word_to_int self) ps2.
Proof.
  intros Hinit.
  destruct (init_inr _ _ _ Hinit) as (rows & rho & Hload & Heps & Hrho & _ & ->).
  cbn [word_to_int].
  assert (delete "#0" (delete "<eps>" (dict_of_rows rows)) !! "<eps>" = None)
    as Hno_eps.
  { rewrite lookup_delete_ne by done. apply lookup_delete_eq. }
  assert (delete "#0" (delete "<eps>" (dict_of_rows rows)) !! "#0" = None)
    as Hno_rho by apply lookup_delete_eq.
  split; [by exists rows|]. split; [done|]. split; [done|].
  set (word_to_int := delete "#0" (delete "<eps>" (dict_of_rows rows))) in *.
  intros p reserved Hreserved Hin.
  assert (word_to_int !! reserved = None) as Hnone
    by (by destruct Hreserved as [-> | ->]).
  assert (¬ in_vocab word_to_int p) as Hoov.
  { unfold in_vocab. rewrite Forall_forall. intros Hall.
    destruct (Hall reserved Hin) as [i Hi]. congruence. }
  split; [done|]. split; [by apply oov_words_complete|].
  intros ps1 ps2 wd pd. split.
  - rewrite (gen_initial_graph_same_ints (ps1 ++ p :: ps2) (ps1 ++ ps2)).
    2:{ rewrite !accepted_ints_app, accepted_ints_cons_None; [done|].
        apply phrase_ints_None. by left. }
    unfold warnings_of. rewrite filter_app, filter_cons_True by done.
    by rewrite fmap_app, fmap_cons.
  - intros raw log (_ & -> & _)%gen_initial_graph_inr.
    unfold warnings_of. by rewrite filter_app, fmap_app.
Qed.

(** C9, as the code has it. When every phrase is dropped (an empty list
    included) the raw automaton is the start state alone, without arcs and
    without a final state, so it accepts nothing.  The rewrite goes on all
    the same: when determinization returns an automaton with a start
    state, the graph returned has that state final with zero weight and
    carries the wildcard self-loop on it. *)
Theorem C9_all_phrases_dropped self phrases wd pd d :
  Forall (λ p, phrase_ints (word_to_int self) p = None) phrases →
  determinize (mkFst (Some 0) [mkState None []]) = inr d → has_start d →
  ∃ log g s_start,
    __gen_initial_graph phrases (word_to_int self) wd pd
    = inr (mkFst (Some 0) [mkState None []], log) ∧
    final_states (mkFst (W:=W) (Some 0) [mkState None []]) = [] ∧
    lattice_boosting_graph determinize self phrases wd pd = inr (g, log) ∧
    start g = Some s_start ∧
    final_weight g s_start = Some w_zero ∧
    mkArc (rho_int self) (rho_int self) w_zero s_start ∈ arcs_from g s_start.
Proof.
  intros Hall Hdet Hstart.
  assert (accepted_ints (word_to_int self) phrases = []) as Hnone.
  { induction Hall as [|p ps Hp _ IH]; [done|].
    by rewrite accepted_ints_cons_None. }
  assert (__gen_initial_graph phrases (word_to_int self) wd pd
          = inr (mkFst (Some 0) [mkState None []],
                 warnings_of (word_to_int self) phrases)) as Hgen.
  { by rewrite gen_initial_graph_closed, Hnone. }
  destruct (lattice_boosting_graph_run determinize _ _ _ _ _ _ _
              Hgen Hdet Hstart) as (s_start & Hs & Hlt & _ & Hrun).
  eexists _, _, s_start. split; [exact Hgen|]. split; [done|].
  split; [exact Hrun|]. split; [done|].
  destruct (lookup_lt_is_Some_2 (states d) s_start Hlt) as [st Hst].
  unfold final_weight, arcs_from. cbn [states].
  rewrite rewritten_lookup, Hst. cbn. unfold rewrite_state.
  rewrite decide_True by done. cbn. split; [done|].
  apply elem_of_app. right. by constructor.
Qed.
End dropped_claims.

(** * The weight of a boosted phrase *)

Section weight_claims.
Context {W : Type} `{!Weight W}.
Variable determinize : VectorFst W → res (VectorFst W).
Implicit Types (self : BoostingFstBuilder) (p : list string) (l : list Z).

(** The raw automaton of a single phrase is one chain. *)
Lemma single_raw_lookup wd pd l j a :
  l !! j = Some a →
  raw_states wd pd [l] !! j
  = Some (mkState None
            [mkArc a a
               (if decide (S j = length l) then stored_weight wd pd l
                else w_zero) (1 + j)]).
Proof.
  intros Hj. unfold raw_states. cbn [foldl]. unfold raw_step, chain_arcs.
  destruct l as [|a0 l']; [done|]. rewrite imap_cons.
  cbn [add_chain chain_states tail alter list_alter add_out final arcs app].
  destruct j as [|j].
  - injection Hj as <-. done.
  - change ((a0 :: l') !! S j) with (l' !! j) in Hj.
    change ((?x :: ?k) !! S j) with (k !! j).
    unfold chain_states. cbn [tail].
    rewrite lookup_app_l
      by (rewrite length_fmap, length_imap; by eapply lookup_lt_Some).
    by rewrite list_lookup_fmap, list_lookup_imap, Hj.
Qed.

Lemma single_raw_last wd pd l :
  l ≠ [] →
  raw_states wd pd [l] !! length l = Some (mkState (Some w_zero) []).
Proof.
  intros Hne. unfold raw_states. cbn [foldl]. unfold raw_step, chain_arcs.
  destruct l as [|a0 l']; [done|]. rewrite imap_cons.
  cbn [add_chain chain_states tail alter list_alter add_out final arcs app
         length].
  change ((?x :: ?k) !! S ?j) with (k !! j).
  unfold chain_states. cbn [tail].
  rewrite lookup_app_r by (by rewrite length_fmap, length_imap).
  by rewrite length_fmap, length_imap, Nat.sub_diag.
Qed.

(** Reading the phrase and then epsilon in the rewritten single chain. *)
Lemma paths_single_chain rho wd pd l :
  let X := stored_weight wd pd l in
  let g := mkFst (Some 0) (imap (rewrite_state 0 rho) (raw_states wd pd [l])) in
  l ≠ [] → Forall (λ i, i ≠ 0%Z ∧ i ≠ rho) l →
  w_add w_zero w_zero = w_zero → w_add w_zero X = X → w_add X w_zero = X →
  ∀ k j, j + k = length l →
    paths g j (drop j l ++ [0%Z]) (if decide (j = length l) then X else w_zero)
    = [(0, X)].
Proof.
  intros X g Hne Hvalid H00 H0X HX0.
  induction k as [|k IH]; intros j Hjk.
  - assert (j = length l) as -> by lia.
    rewrite decide_True by done. rewrite drop_all. cbn [app paths].
    unfold arcs_from.
    change (states g) with (imap (rewrite_state 0 rho) (raw_states wd pd [l])).
    rewrite rewritten_lookup, single_raw_last by done.
    cbn [fmap option_fmap option_map]. unfold rewrite_state.
    rewrite decide_False by (destruct l; cbn; done).
    cbn [arcs app]. rewrite bind_cons.
    change (@nil (Arc W) ≫= ?k) with (@nil (nat * W)).
    cbn [ilabel olabel weight nextstate paths].
    rewrite decide_True by done. by rewrite HX0.
  - assert (j < length l) as Hlt by lia.
    destruct (lookup_lt_is_Some_2 l j Hlt) as [a Ha].
    assert (a ≠ 0%Z ∧ a ≠ rho) as [Ha0 Harho].
    { rewrite Forall_forall in Hvalid. apply Hvalid.
      by eapply list_elem_of_lookup_2. }
    specialize (IH (S j) ltac:(lia)).
    rewrite (drop_S _ _ _ Ha). cbn [app paths].
    rewrite decide_False by lia.
    unfold arcs_from.
    change (states g) with (imap (rewrite_state 0 rho) (raw_states wd pd [l])).
    rewrite rewritten_lookup, (single_raw_lookup wd pd l j a Ha).
    cbn [fmap option_fmap option_map]. unfold rewrite_state.
    assert (w_add w_zero
              (if decide (S j = length l) then stored_weight wd pd l else w_zero)
            = if decide (S j = length l) then X else w_zero) as Hacc.
    { case_decide; [exact H0X|exact H00]. }
    destruct (decide (j = 0)) as [->|Hj0]; cbn [arcs app];
      rewrite !bind_cons; change (@nil (Arc W) ≫= ?k) with (@nil (nat * W));
      cbn [ilabel olabel weight nextstate];
      rewrite (decide_True (P := a = a ∧ a = a)) by done.
    + rewrite (decide_False (P := rho = a ∧ rho = a))
        by (intros [? _]; congruence).
      rewrite !app_nil_r, Hacc. exact IH.
    + rewrite (decide_False (P := 0%Z = a ∧ 0%Z = a))
        by (intros [? _]; congruence).
      rewrite !app_nil_r, Hacc. exact IH.
Qed.

(** The arcs of a state of the rewritten single chain. *)
Lemma single_graph_arcs rho wd pd l j a :
  l !! j = Some a →
  arcs_from
    (mkFst (Some 0) (imap (rewrite_state 0 rho) (raw_states wd pd [l]))) j
  = [mkArc a a
       (if decide (S j = length l) then stored_weight wd pd l else w_zero)
       (1 + j);
     if decide (j = 0) then mkArc rho rho w_zero 0 else mkArc 0 0 w_zero 0].
Proof.
  intros Hj. unfold arcs_from. cbn [states].
  rewrite rewritten_lookup, (single_raw_lookup wd pd l j a Hj).
  cbn [fmap option_fmap option_map]. unfold rewrite_state.
  by destruct (decide (j = 0)).
Qed.

Lemma paths_cons (g : VectorFst W) s x labels acc :
  paths g s (x :: labels) acc
  = a ← arcs_from g s;
    if decide (ilabel a = x ∧ olabel a = x)
    then paths g (nextstate a) labels (w_add acc (weight a))
    else [].
Proof. done. Qed.

(** Reading the first word of a longer phrase and returning by epsilon. *)
Lemma paths_prefix_return rho wd pd l a :
  let g := mkFst (Some 0) (imap (rewrite_state 0 rho) (raw_states wd pd [l])) in
  1 < length l → head l = Some a →
  Forall (λ i, i ≠ 0%Z ∧ i ≠ rho) l →
  w_add w_zero w_zero = w_zero →
  paths g 0 [a; 0%Z] w_zero = [(0, w_zero)].
Proof.
  intros g Hlen Hhead Hvalid H00. subst g.
  destruct l as [|a0 [|b l']]; cbn in Hlen; [lia..|].
  injection Hhead as ->.
  apply Forall_cons in Hvalid as [[Ha0 Harho] Hvalid].
  apply Forall_cons in Hvalid as [[Hb0 _] _].
  rewrite paths_cons.
  rewrite (single_graph_arcs rho wd pd (a :: b :: l') 0 a eq_refl).
  rewrite !bind_cons. change (@nil (Arc W) ≫= ?k) with (@nil (nat * W)).
  rewrite (decide_True (P := 0 = 0)) by done.
  cbn [ilabel olabel weight nextstate length Nat.add].
  rewrite (decide_True (P := a = a ∧ a = a)) by done.
  rewrite (decide_False (P := rho = a ∧ rho = a)) by (intros [? _]; congruence).
  rewrite (decide_False (P := 1 = S (S (length l')))) by lia.
  rewrite !app_nil_r, H00.
  rewrite paths_cons.
  rewrite (single_graph_arcs rho wd pd (a :: b :: l') 1 b eq_refl).
  rewrite !bind_cons. change (@nil (Arc W) ≫= ?k) with (@nil (nat * W)).
  rewrite (decide_False (P := 1 = 0)) by done.
  cbn [ilabel olabel weight nextstate paths].
  rewrite (decide_False (P := b = 0%Z ∧ b = 0%Z)) by (by intros [? _]).
  rewrite (decide_True (P := 0%Z = 0%Z ∧ 0%Z = 0%Z)) by done.
  by rewrite H00.
Qed.

(** C1, as the code has it. In the raw automaton that the build of any
    phrase list returns, the arc that consumes the last word of an
    accepted phrase with [L] ids carries the weight the library stores
    for the boost [L * word_discount + phrase_discount] (its conversion
    to a tropical weight, which the build has obtained: when the library
    refuses the boost of an accepted phrase the build raises, the third
    part) and enters a final state of zero weight.  For a list of one such phrase over a valid vocabulary, when
    determinization returns the chain unchanged (a chain is deterministic
    already), the returned graph has exactly one path from the start
    state that reads the ids of the phrase and then epsilon; it ends in
    the start state and weighs the stored weight [X], provided adding
    [0.0] leaves [X] and [0.0] itself unchanged.  It is the one path that
    consumes the phrase, not the one accepting path without the wildcard:
    every state but the start state has its epsilon arc back, so when the
    phrase has two words or more, reading the first and returning is
    another one, of zero weight. *)
Theorem C1_phrase_weight_on_last_word self wd pd :
  (∀ ps1 p ps2 l w_last raw log,
     phrase_ints (word_to_int self) p = Some l → last l = Some w_last →
     __gen_initial_graph (ps1 ++ p :: ps2) (word_to_int self) wd pd
     = inr (raw, log) →
     ∃ X,
       to_weight (w_add (w_mul (w_of_len (length l)) wd) pd) = inr X ∧
       let n := 1 + sum_list (length <$> accepted_ints (word_to_int self) ps1) in
       mkArc w_last w_last X (n + length l - 1)
       ∈ arcs_from raw (chain_source n (length l - 1)) ∧
       final_weight raw (n + length l - 1) = Some w_zero) ∧
  (∀ p l raw X,
     phrase_ints (word_to_int self) p = Some l →
     valid_vocabulary self →
     __gen_initial_graph [p] (word_to_int self) wd pd = inr (raw, []) →
     determinize raw = inr raw →
     to_weight (w_add (w_mul (w_of_len (length l)) wd) pd) = inr X →
     w_add w_zero w_zero = w_zero → w_add w_zero X = X → w_add X w_zero = X →
     ∃ g,
       lattice_boosting_graph determinize self [p] wd pd = inr (g, []) ∧
       start g = Some 0 ∧
       final_weight g 0 = Some w_zero ∧
       paths g 0 (l ++ [0%Z]) w_zero = [(0, X)] ∧
       ∀ a, 1 < length l → head l = Some a →
            paths g 0 [a; 0%Z] w_zero = [(0, w_zero)]) ∧
  (∀ ps1 p ps2 l e,
     phrase_ints (word_to_int self) p = Some l →
     to_weight (w_add (w_mul (w_of_len (length l)) wd) pd) = inl e →
     ∃ e',
       __gen_initial_graph (ps1 ++ p :: ps2) (word_to_int self) wd pd
       = inl e').
Proof.
  split_and!.
  - intros ps1 p ps2 l w_last raw log Hp Hlast
           (-> & -> & Hnone)%gen_initial_graph_inr.
    exists (stored_weight wd pd l).
    split; [exact (boost_stored _ _ _ _ _ _ _ Hnone Hp)|]. cbn zeta.
    assert (l ≠ []) as Hne by (by apply phrase_ints_Some in Hp as [_ ?]).
    assert (0 < length l) as Hlen by (destruct l; cbn; [done|lia]).
    rewrite last_lookup in Hlast.
    replace (Init.Nat.pred (length l)) with (length l - 1) in Hlast by lia.
    split.
    + pose proof (raw_chain_arc (word_to_int self) wd pd ps1 p ps2 l
                    (length l - 1) w_last Hp Hlast) as Harc.
      cbn zeta in Harc. rewrite decide_True in Harc by lia.
      by replace (1 + sum_list (length <$> accepted_ints (word_to_int self) ps1)
                  + (length l - 1))
        with (1 + sum_list (length <$> accepted_ints (word_to_int self) ps1)
              + length l - 1) in Harc by lia.
    + rewrite accepted_ints_app, (accepted_ints_cons_Some _ _ _ _ Hp).
      destruct (raw_states_final wd pd
                  (accepted_ints (word_to_int self) ps1) l
                  (accepted_ints (word_to_int self) ps2) Hne)
        as (st & Hst & Hfin).
      unfold final_weight. cbn [states]. cbn zeta in Hst. by rewrite Hst.
  - intros p l raw X Hp Hvalid Hgen Hdet HX H00 H0X HX0.
    fold (phrase_weight wd pd l) in HX.
    apply stored_weight_inr in HX. subst X.
    assert (l ≠ []) as Hne by (by apply phrase_ints_Some in Hp as [_ ?]).
    assert (accepted_ints (word_to_int self) [p] = [l]) as Hacc
      by (by rewrite (accepted_ints_cons_Some _ _ _ _ Hp)).
    assert (has_start raw) as Hstart.
    { apply gen_initial_graph_inr in Hgen as (-> & _).
      exists 0. split; [done|]. unfold num_states. cbn [states].
      rewrite length_raw_states. lia. }
    destruct (lattice_boosting_graph_run determinize _ _ _ _ _ _ _
                Hgen Hdet Hstart) as (s_start & Hs & _ & Hraw & Hrun).
    rewrite Hraw in Hs. cbn [start] in Hs. injection Hs as <-.
    rewrite Hraw in Hrun. cbn [states] in Hrun. rewrite Hacc in Hrun.
    eexists. split; [exact Hrun|]. split; [done|].
    assert (Forall (λ i, i ≠ 0%Z ∧ i ≠ rho_int self) l) as Hids.
    { apply Forall_forall. intros i Hi.
      destruct (accepted_ints_values (word_to_int self) [p] l i) as [w Hw];
        [rewrite Hacc; by constructor|done|].
      by apply (map_Forall_lookup_1 _ _ _ _ Hvalid) in Hw. }
    pose proof (paths_single_chain (rho_int self) wd pd l Hne Hids
                  H00 H0X HX0 (length l) 0 ltac:(lia)) as Hpaths.
    rewrite decide_False in Hpaths by (destruct l; cbn; [done|lia]).
    rewrite drop_0 in Hpaths. split_and!; [|exact Hpaths|].
    + unfold final_weight. cbn [states]. rewrite rewritten_lookup.
      destruct l as [|a0 l']; [done|].
      by rewrite (single_raw_lookup wd pd (a0 :: l') 0 a0 eq_refl).
    + intros a Hlen Hhead.
      by apply (paths_prefix_return (rho_int self) wd pd l a).
  - intros ps1 p ps2 l e Hp Hl.
    eapply gen_initial_graph_raises; [|exact Hp|exact Hl].
    apply elem_of_app. right. by left.
Qed.
End weight_claims.

(** * The raw automaton, state by state *)

Section raw_shape_facts.
Context {W : Type} `{!Weight W}.
Implicit Types (sts : list (State W)) (l : list Z) (ls : list (list Z)).

Lemma add_chain_lookup_other s0 sts (cs : list (Arc W)) s :
  s ≠ s0 → s < length sts → add_chain s0 sts cs !! s = sts !! s.
Proof.
  intros Hne Hlt. destruct cs as [|a0 rest]; [done|]. cbn [add_chain].
  rewrite lookup_app_l by (by rewrite length_alter).
  by rewrite list_lookup_alter_ne.
Qed.

Lemma foldl_raw_step_lookup_other wd pd ls sts s :
  0 < s → s < length sts →
  foldl (raw_step wd pd) sts ls !! s = sts !! s.
Proof.
  revert sts. induction ls as [|l ls IH]; intros sts Hpos Hlt; [done|].
  cbn [foldl]. rewrite IH by (rewrite ?length_raw_step; lia).
  unfold raw_step. apply add_chain_lookup_other; [lia|done].
Qed.

Lemma chain_states_lookup (cs : list (Arc W)) j :
  j < length cs → chain_states cs !! j = Some (chain_state cs j).
Proof.
  intros Hj. unfold chain_states, chain_state.
  destruct cs as [|a0 rest]; cbn in Hj; [lia|]. cbn [tail].
  change ((a0 :: rest) !! S j) with (rest !! j).
  destruct (rest !! j) as [a|] eqn:Ha.
  - rewrite lookup_app_l by (rewrite length_fmap; by eapply lookup_lt_Some).
    by rewrite list_lookup_fmap, Ha.
  - apply lookup_ge_None in Ha.
    rewrite lookup_app_r by (rewrite length_fmap; lia).
    rewrite length_fmap. by replace (j - length rest) with 0 by lia.
Qed.

(** The states a phrase adds. *)
Lemma raw_step_new_state wd pd sts l j :
  j < length l →
  raw_step wd pd sts l !! (length sts + j)
  = Some (chain_state (chain_arcs (stored_weight wd pd l) (length sts) l) j).
Proof.
  intros Hj. unfold raw_step.
  pose proof (length_chain_arcs (stored_weight wd pd l) (length sts) l) as Hlen.
  destruct (chain_arcs (stored_weight wd pd l) (length sts) l)
    as [|a0 rest] eqn:Hcs; [cbn in Hlen; lia|].
  cbn [add_chain].
  rewrite lookup_app_r by (rewrite length_alter; lia).
  rewrite length_alter. replace (length sts + j - length sts) with j by lia.
  apply chain_states_lookup. lia.
Qed.

(** The state at position [j] of the chain of the sequence at a given
    place: later sequences do not touch it. *)
Lemma raw_states_state wd pd ls1 l ls2 j :
  j < length l →
  let n := 1 + sum_list (length <$> ls1) in
  raw_states wd pd (ls1 ++ l :: ls2) !! (n + j)
  = Some (chain_state (chain_arcs (stored_weight wd pd l) n l) j).
Proof.
  intros Hj n. unfold raw_states. rewrite foldl_app. cbn [foldl].
  fold (raw_states wd pd ls1).
  rewrite foldl_raw_step_lookup_other
    by (rewrite ?length_raw_step, ?length_raw_states; lia).
  pose proof (raw_step_new_state wd pd (raw_states wd pd ls1) l j Hj) as Hst.
  by rewrite length_raw_states in Hst.
Qed.

(** Every state but the start state lies on the chain of some sequence. *)
Lemma raw_states_index_cases wd pd ls s :
  0 < s → s < length (raw_states wd pd ls) →
  ∃ ls1 l ls2 j,
    ls = ls1 ++ l :: ls2 ∧ j < length l ∧
    s = 1 + sum_list (length <$> ls1) + j.
Proof.
  induction ls as [|l ls IH] using rev_ind; intros Hpos Hlt.
  { cbn in Hlt. lia. }
  rewrite length_raw_states, fmap_app, sum_list_with_app in Hlt.
  cbn in Hlt.
  destruct (decide (s < 1 + sum_list (length <$> ls))) as [Hold|Hnew].
  - destruct IH as (ls1 & l' & ls2 & j & -> & Hj & ->);
      [done|by rewrite length_raw_states|].
    exists ls1, l', (ls2 ++ [l]), j. split_and!; [|done..].
    by rewrite <-(assoc_L (++)).
  - exists ls, l, [], (s - (1 + sum_list (length <$> ls))).
    split_and!; [done|lia|lia].
Qed.

(** The start state: never final, with one arc per non-empty sequence. *)
Lemma foldl_raw_step_start wd pd ls sts st0 :
  sts !! 0 = Some st0 →
  foldl (raw_step wd pd) sts ls !! 0
  = Some (mkState (final st0)
            (arcs st0 ++ start_arcs wd pd (length sts) ls)).
Proof.
  revert sts st0. induction ls as [|l ls IH]; intros sts st0 Hst0.
  { cbn. rewrite app_nil_r, Hst0. by destruct st0. }
  cbn [foldl start_arcs].
  assert (0 < length sts) as Hpos by (by eapply lookup_lt_Some).
  pose proof (length_raw_step wd pd sts l) as Hlen.
  unfold raw_step in *.
  pose proof (length_chain_arcs (stored_weight wd pd l) (length sts) l) as Hcl.
  destruct (chain_arcs (stored_weight wd pd l) (length sts) l)
    as [|a0 rest] eqn:Hcs.
  - cbn [add_chain] in *. destruct l; [|done].
    by apply IH.
  - erewrite IH.
    2:{ cbn [add_chain]. rewrite lookup_app_l by (rewrite length_alter; lia).
        by rewrite list_lookup_alter_eq, Hst0. }
    rewrite Hlen. cbn. by rewrite <-(assoc_L (++)).
Qed.

Lemma raw_states_start wd pd ls :
  raw_states wd pd ls !! 0 = Some (mkState None (start_arcs wd pd 1 ls)).
Proof.
  unfold raw_states.
  by rewrite (foldl_raw_step_start wd pd ls _ (mkState None [])).
Qed.

Lemma elem_of_start_arcs wd pd n ls (a : Arc W) :
  a ∈ start_arcs wd pd n ls ↔
  ∃ ls1 l ls2 x,
    ls = ls1 ++ l :: ls2 ∧ head l = Some x ∧
    a = mkArc x x
          (if decide (1 = length l) then stored_weight wd pd l else w_zero)
          (n + sum_list (length <$> ls1)).
Proof.
  revert n. induction ls as [|l ls IH]; intros n; cbn [start_arcs].
  { split; [by intros ?%elem_of_nil|].
    intros (ls1 & l & ls2 & x & Hls & _). by destruct ls1. }
  destruct l as [|x l'].
  - cbn [chain_arcs imap]. rewrite IH. split.
    + intros (ls1 & l & ls2 & y & -> & Hhead & ->).
      exists ([] :: ls1), l, ls2, y. split_and!; [done..|].
      cbn; first [done | f_equal; lia].
    + intros (ls1 & l & ls2 & y & Hls & Hhead & ->).
      destruct ls1 as [|l1 ls1]; cbn in Hls.
      { injection Hls as <- _. done. }
      injection Hls as <- ->.
      exists ls1, l, ls2, y. split_and!; [done..|].
      cbn; first [done | f_equal; lia].
  - unfold chain_arcs at 1. rewrite imap_cons. rewrite elem_of_cons, IH.
    split.
    + intros [->|(ls1 & l & ls2 & y & -> & Hhead & ->)].
      * exists [], (x :: l'), ls, x. split_and!; [done..|].
        cbn; first [done | f_equal; lia].
      * exists ((x :: l') :: ls1), l, ls2, y. split_and!; [done..|].
        cbn; first [done | f_equal; lia].
    + intros (ls1 & l & ls2 & y & Hls & Hhead & ->).
      destruct ls1 as [|l1 ls1]; cbn in Hls.
      * injection Hls as <- <-. injection Hhead as <-. left.
        cbn; first [done | f_equal; lia].
      * injection Hls as <- ->. right.
        exists ls1, l, ls2, y. split_and!; [done..|].
        cbn; first [done | f_equal; lia].
Qed.
End raw_shape_facts.

(** * The paths of the raw automaton *)

Section raw_paths.
Context {W : Type} `{!Weight W}.
Implicit Types (l ids : list Z) (ls : list (list Z)).

Lemma chain_state_chain_arcs (X : W) n l j :
  chain_state (chain_arcs X n l) j
  = match l !! S j with
    | Some y =>
        mkState None
          [mkArc y y (if decide (S (S j) = length l) then X else w_zero)
             (n + S j)]
    | None => mkState (Some w_zero) []
    end.
Proof.
  unfold chain_state, chain_arcs. rewrite list_lookup_imap.
  by destruct (l !! S j).
Qed.

(** The chain of a sequence read from its state [j] on: one path, to the
    end of the chain. *)
Lemma raw_chain_paths wd pd ls1 l ls2 rest j acc :
  let n := 1 + sum_list (length <$> ls1) in
  let cs := chain_arcs (stored_weight wd pd l) n l in
  let g := mkFst (Some 0) (raw_states wd pd (ls1 ++ l :: ls2)) in
  j < length l → drop (S j) l = rest →
  paths g (n + j) rest acc
  = [(n + length l - 1, foldl w_add acc (weight <$> drop (S j) cs))].
Proof.
  intros n cs g. revert j acc.
  induction rest as [|y rest IH]; intros j acc Hj Hrest.
  - apply (f_equal length) in Hrest. rewrite length_drop in Hrest.
    cbn in Hrest. cbn [paths].
    rewrite drop_ge by (subst cs; rewrite length_chain_arcs; lia).
    cbn. do 2 f_equal. lia.
  - assert (l !! S j = Some y) as Hy.
    { rewrite <-(Nat.add_0_r (S j)), <-lookup_drop, Hrest. done. }
    assert (drop (S (S j)) l = rest) as Hrest'.
    { change (S (S j)) with (1 + S j). rewrite Nat.add_comm, <-drop_drop, Hrest.
      done. }
    pose proof (lookup_lt_Some _ _ _ Hy) as Hlt.
    rewrite paths_cons. unfold arcs_from. subst g. cbn [states].
    rewrite (raw_states_state wd pd ls1 l ls2 j Hj).
    fold n. fold cs. subst cs. rewrite chain_state_chain_arcs, Hy.
    cbn [arcs]. cbn [mbind list_bind]. cbn [ilabel olabel nextstate weight].
    rewrite decide_True by done. rewrite app_nil_r.
    rewrite (IH (S j)) by done.
    rewrite (drop_S _ (mkArc y y
      (if decide (S (S j) = length l) then stored_weight wd pd l else w_zero)
      (n + S j)) (S j)).
    2:{ unfold chain_arcs. by rewrite list_lookup_imap, Hy. }
    cbn [fmap list_fmap foldl weight]. done.
Qed.

(** A path from the state [j] of a chain into a final state reads the
    rest of the sequence. *)
Lemma raw_chain_accepting wd pd ls1 l ls2 rest j acc s (w : W) :
  let n := 1 + sum_list (length <$> ls1) in
  let g := mkFst (Some 0) (raw_states wd pd (ls1 ++ l :: ls2)) in
  j < length l →
  (s, w) ∈ paths g (n + j) rest acc → is_Some (final_weight g s) →
  rest = drop (S j) l.
Proof.
  intros n g. revert j acc.
  induction rest as [|y rest IH]; intros j acc Hj Hin Hfin.
  - cbn [paths] in Hin. apply list_elem_of_singleton in Hin as [= -> ->].
    unfold final_weight in Hfin. subst g. cbn [states] in Hfin.
    rewrite (raw_states_state wd pd ls1 l ls2 j Hj) in Hfin.
    rewrite chain_state_chain_arcs in Hfin.
    destruct (l !! S j) as [y|] eqn:Hy.
    + cbn in Hfin. by destruct Hfin.
    + apply lookup_ge_None in Hy. by rewrite drop_ge.
  - rewrite paths_cons in Hin. unfold arcs_from in Hin. subst g.
    cbn [states] in Hin.
    rewrite (raw_states_state wd pd ls1 l ls2 j Hj) in Hin.
    rewrite chain_state_chain_arcs in Hin.
    destruct (l !! S j) as [y'|] eqn:Hy; cbn [arcs] in Hin.
    2:{ by apply elem_of_nil in Hin. }
    cbn [mbind list_bind ilabel olabel nextstate weight] in Hin.
    rewrite app_nil_r in Hin.
    case_decide as Hlab; [|by apply elem_of_nil in Hin].
    destruct Hlab as [-> _].
    pose proof (lookup_lt_Some _ _ _ Hy) as Hlt.
    apply (IH (S j)) in Hin; [|done..].
    rewrite Hin. symmetry. by apply drop_S.
Qed.

(** The accepting paths of the raw automaton: each one reads one of the
    sequences, along its chain. *)
Lemma raw_accepting_path wd pd ls ids acc s (w : W) :
  let g := mkFst (Some 0) (raw_states wd pd ls) in
  (s, w) ∈ paths g 0 ids acc → is_Some (final_weight g s) →
  ∃ ls1 ls2,
    ls = ls1 ++ ids :: ls2 ∧ ids ≠ [] ∧
    s = sum_list (length <$> ls1) + length ids ∧
    w = foldl w_add acc
          (weight <$> chain_arcs (stored_weight wd pd ids)
                        (1 + sum_list (length <$> ls1)) ids).
Proof.
  intros g Hin Hfin. destruct ids as [|x rest].
  { cbn [paths] in Hin. apply list_elem_of_singleton in Hin as [= -> ->].
    unfold final_weight in Hfin. subst g. cbn [states] in Hfin.
    rewrite raw_states_start in Hfin. cbn in Hfin. by destruct Hfin. }
  rewrite paths_cons in Hin. unfold arcs_from in Hin. subst g.
  cbn [states] in Hin. rewrite raw_states_start in Hin. cbn [arcs] in Hin.
  apply list_elem_of_bind in Hin as (a & Hin & Ha).
  apply elem_of_start_arcs in Ha as (ls1 & l & ls2 & x' & -> & Hhead & ->).
  cbn [ilabel olabel nextstate weight] in Hin.
  case_decide as Hlab; [|by apply elem_of_nil in Hin].
  destruct Hlab as [-> _].
  destruct l as [|x0 l']; [done|]. injection Hhead as ->.
  rewrite <-(Nat.add_0_r (1 + sum_list (length <$> ls1))) in Hin.
  pose proof Hin as Hin'.
  apply raw_chain_accepting in Hin'; [|cbn; lia|done].
  change (drop 1 (x :: l')) with l' in Hin'. subst rest.
  rewrite (raw_chain_paths wd pd ls1 (x :: l') ls2 l' 0) in Hin;
    [|cbn; lia|done].
  apply list_elem_of_singleton in Hin as [= -> ->].
  exists ls1, ls2. split_and!; [done|done|cbn; lia|].
  unfold chain_arcs. rewrite imap_cons. reflexivity.
Qed.

(** Conversely every sequence has its accepting path. *)
Lemma raw_path_of_sequence wd pd ls1 l ls2 (acc : W) :
  let n := 1 + sum_list (length <$> ls1) in
  let g := mkFst (Some 0) (raw_states wd pd (ls1 ++ l :: ls2)) in
  l ≠ [] →
  (n + length l - 1,
   foldl w_add acc (weight <$> chain_arcs (stored_weight wd pd l) n l))
    ∈ paths g 0 l acc
  ∧ final_weight g (n + length l - 1) = Some w_zero.
Proof.
  intros n g Hne. split.
  - destruct l as [|x l']; [done|].
    rewrite paths_cons. apply list_elem_of_bind.
    exists (mkArc x x
              (if decide (1 = length (x :: l'))
               then stored_weight wd pd (x :: l') else w_zero) (n + 0)).
    split.
    + cbn [ilabel olabel nextstate weight]. rewrite decide_True by done.
      rewrite (raw_chain_paths wd pd ls1 (x :: l') ls2 l' 0);
        [|cbn; lia|done].
      apply list_elem_of_singleton. reflexivity.
    + unfold arcs_from. subst g. cbn [states].
      rewrite raw_states_start. cbn [arcs]. apply elem_of_start_arcs.
      exists ls1, (x :: l'), ls2, x. split_and!; [done..|].
      f_equal. subst n. lia.
  - unfold final_weight. subst g. cbn [states].
    assert (length l - 1 < length l) as Hj.
    { destruct l; [done|]. cbn. lia. }
    replace (n + length l - 1) with (n + (length l - 1)) by lia.
    rewrite (raw_states_state wd pd ls1 l ls2 _ Hj).
    rewrite chain_state_chain_arcs.
    rewrite (proj2 (lookup_ge_None l (S (length l - 1)))) by lia.
    done.
Qed.

(** The weights along a chain add up to the weight of its last arc. *)
Lemma chain_total_weight (X : W) n l :
  l ≠ [] → w_add w_zero w_zero = w_zero → w_add w_zero X = X →
  foldl w_add w_zero (weight <$> chain_arcs X n l) = X.
Proof.
  intros Hne H00 H0X.
  destruct l as [|w ws _] using rev_ind; [done|].
  rewrite chain_arcs_snoc, fmap_app, foldl_app. cbn.
  assert (∀ m, foldl w_add w_zero
            (weight <$> imap (λ j a, mkArc a a w_zero (m + j)) ws) = w_zero)
    as ->; [|done].
  clear Hne. induction ws as [|a ws' IH]; intros m; [done|].
  rewrite imap_cons. cbn. rewrite H00.
  erewrite imap_ext; [apply (IH (S m))|].
  intros j b _. cbn. f_equal. lia.
Qed.
End raw_paths.

(** * The raw automaton as a whole *)

Section raw_whole.
Context {W : Type} `{!Weight W}.
Implicit Types (l ids : list Z) (ls : list (list Z)).

Lemma accepted_ints_nonempty word_to_int phrases :
  Forall (λ l, l ≠ []) (accepted_ints word_to_int phrases).
Proof.
  apply Forall_forall. intros l Hl. unfold accepted_ints in Hl.
  apply list_elem_of_omap in Hl as (p & _ & Hp).
  by apply phrase_ints_Some in Hp as [_ Hne].
Qed.

Lemma elem_of_accepted_ints word_to_int phrases ids :
  ids ∈ accepted_ints word_to_int phrases ↔
  ∃ p, p ∈ phrases ∧ p ≠ [] ∧
       Forall2 (λ w i, word_to_int !! w = Some i) p ids.
Proof.
  unfold accepted_ints. rewrite list_elem_of_omap.
  split; intros (p & Hp & Hids); exists p; (split; [done|]).
  - apply phrase_ints_Some in Hids as [Hl Hne].
    apply lookup_words_inr in Hl. split; [|done].
    intros ->. by inversion Hl.
  - destruct Hids as [Hne Hl]. apply phrase_ints_Some.
    split; [by apply lookup_words_inr|].
    intros ->. by inversion Hl.
Qed.

(** X1. The raw automaton accepts exactly the id sequences of the
    non-empty phrases all of whose words are in the lookup table: a label
    sequence is read from the start state into a final state if and only
    if it is the word-by-word translation of such a phrase of the list. *)
Theorem X1_raw_language phrases word_to_int (wd pd : W) raw log ids :
  __gen_initial_graph phrases word_to_int wd pd = inr (raw, log) →
  accepts raw ids ↔
  ∃ p, p ∈ phrases ∧ p ≠ [] ∧
       Forall2 (λ w i, word_to_int !! w = Some i) p ids.
Proof.
  intros (-> & -> & Hnone)%gen_initial_graph_inr.
  rewrite <-elem_of_accepted_ints. unfold accepts. cbn [start]. split.
  - intros (s_start & s & w & [= <-] & Hin & Hfin).
    destruct (raw_accepting_path _ _ _ _ _ _ _ Hin Hfin)
      as (ls1 & ls2 & -> & _).
    apply elem_of_app. right. by left.
  - intros Hids.
    assert (ids ≠ []) as Hne.
    { pose proof (accepted_ints_nonempty word_to_int phrases) as Hall.
      by eapply Forall_forall in Hall. }
    apply list_elem_of_split in Hids as (ls1 & ls2 & ->).
    destruct (raw_path_of_sequence wd pd ls1 ids ls2 w_zero Hne)
      as [Hin Hfin].
    eexists 0, _, _. split_and!; [done|exact Hin|].
    rewrite Hfin. by eexists.
Qed.

(** The language of the raw automaton of the id sequences [ls]. *)
Lemma raw_states_accepts (wd pd : W) ls ids :
  Forall (λ l, l ≠ []) ls →
  accepts (mkFst (Some 0) (raw_states wd pd ls)) ids ↔ ids ∈ ls.
Proof.
  intros Hall. unfold accepts. cbn [start]. split.
  - intros (s_start & s & w & [= <-] & Hin & Hfin).
    destruct (raw_accepting_path _ _ _ _ _ _ _ Hin Hfin)
      as (ls1 & ls2 & -> & _).
    apply elem_of_app. right. by left.
  - intros Hids.
    assert (ids ≠ []) as Hne by (by eapply Forall_forall in Hall).
    apply list_elem_of_split in Hids as (ls1 & ls2 & ->).
    destruct (raw_path_of_sequence wd pd ls1 ids ls2 w_zero Hne)
      as [Hin Hfin].
    eexists 0, _, _. split_and!; [done|exact Hin|].
    rewrite Hfin. by eexists.
Qed.

(** X2. Every accepting path of the raw automaton weighs what the
    library stored for the boost of the sequence it reads: a path from
    the start state that reads [ids] and ends in a final state has as its
    total weight the conversion of
    [len(ids) * word_discount + phrase_discount], whatever phrases share
    the automaton with it. The two sums with [0.0] are those the path
    performs. *)
Theorem X2_raw_accepting_weight phrases word_to_int (wd pd : W) raw log
    ids s w :
  __gen_initial_graph phrases word_to_int wd pd = inr (raw, log) →
  w_add w_zero w_zero = w_zero →
  (∀ X, to_weight (phrase_weight wd pd ids) = inr X → w_add w_zero X = X) →
  (s, w) ∈ paths raw 0 ids w_zero → is_Some (final_weight raw s) →
  start raw = Some 0 ∧ to_weight (phrase_weight wd pd ids) = inr w.
Proof.
  intros (-> & -> & Hnone)%gen_initial_graph_inr H00 H0X Hin Hfin.
  split; [done|].
  destruct (raw_accepting_path _ _ _ _ _ _ _ Hin Hfin)
    as (ls1 & ls2 & Hls & Hne & _ & ->).
  assert (to_weight (phrase_weight wd pd ids)
          = inr (stored_weight wd pd ids)) as HX.
  { apply boost_error_None in Hnone. rewrite Forall_forall in Hnone.
    apply Hnone. rewrite Hls. apply elem_of_app. right. by left. }
  rewrite HX. f_equal. symmetry. apply chain_total_weight; [done..|].
  by apply H0X.
Qed.
End raw_whole.

(** * Phrases with unknown words *)

Section oov_claims.
Context {W : Type} `{!Weight W}.
Variable determinize : VectorFst W → res (VectorFst W).
Implicit Types (self : BoostingFstBuilder) (p : list string).

(** C5, as the code has it. A phrase with a word outside the usable
    vocabulary is dropped whole and never makes the build fail: the
    outcome of the build, and of [lattice_boosting_graph], is the one for
    the fully in-vocabulary phrases alone (the same automaton, or the
    same exception) with one warning per dropped phrase, in order, that
    carries the phrase and its missing words, all of them.  The build can
    fail all the same: it raises when the library refuses the boost of an
    in-vocabulary phrase as a weight, and only then, and the exception is
    the library's.  When it returns, the raw automaton accepts exactly
    the id sequences of the non-empty in-vocabulary phrases. *)
Theorem C5_oov_phrases_dropped self phrases wd pd :
  let word_to_int := word_to_int self in
  let kept := filter (in_vocab word_to_int) phrases in
  let log := (λ p, mkWarning (oov_words word_to_int p) p)
               <$> filter (λ p, ¬ in_vocab word_to_int p) phrases in
  __gen_initial_graph phrases word_to_int wd pd
  = match __gen_initial_graph kept word_to_int wd pd with
    | inl e => inl e
    | inr (raw, _) => inr (raw, log)
    end ∧
  (∀ raw log',
     __gen_initial_graph kept word_to_int wd pd = inr (raw, log') →
     log' = []) ∧
  (∀ p w, p ∈ phrases → w ∈ p → word_to_int !! w = None →
          w ∈ oov_words word_to_int p) ∧
  lattice_boosting_graph determinize self phrases wd pd
  = match lattice_boosting_graph determinize self kept wd pd with
    | inr (g, _) => inr (g, log)
    | inl e => inl e
    end ∧
  (∀ raw log',
     __gen_initial_graph phrases word_to_int wd pd = inr (raw, log') →
     ∀ ids, accepts raw ids ↔
            ∃ p, p ∈ kept ∧ p ≠ [] ∧
                 Forall2 (λ w i, word_to_int !! w = Some i) p ids) ∧
  (∀ e, __gen_initial_graph phrases word_to_int wd pd = inl e →
        ∃ p l, p ∈ kept ∧ phrase_ints word_to_int p = Some l ∧
               to_weight (w_add (w_mul (w_of_len (length l)) wd) pd)
               = inl e) ∧
  (∀ p l e, p ∈ kept → phrase_ints word_to_int p = Some l →
            to_weight (w_add (w_mul (w_of_len (length l)) wd) pd) = inl e →
            ∃ e', __gen_initial_graph phrases word_to_int wd pd = inl e').
Proof.
  intros word_to_int kept log.
  assert (__gen_initial_graph phrases word_to_int wd pd
          = match __gen_initial_graph kept word_to_int wd pd with
            | inl e => inl e
            | inr (raw, _) => inr (raw, log)
            end) as Hgen.
  { apply gen_initial_graph_same_ints. symmetry. apply accepted_ints_filter. }
  split; [exact Hgen|]. split_and!.
  - intros raw log' (_ & -> & _)%gen_initial_graph_inr.
    apply warnings_of_filter.
  - intros p w _. apply oov_words_complete.
  - destruct (__gen_initial_graph kept word_to_int wd pd)
      as [e|[raw l0]] eqn:Hkept.
    + unfold lattice_boosting_graph. fold word_to_int.
      by rewrite Hgen, Hkept.
    + eapply (lattice_boosting_graph_of_raw determinize); [exact Hgen|].
      exact Hkept.
  - intros raw log' (-> & _ & _)%gen_initial_graph_inr ids.
    rewrite raw_states_accepts by apply accepted_ints_nonempty.
    rewrite elem_of_accepted_ints. split.
    + intros (p & Hp & Hne & Hids). exists p. split_and!; [|done..].
      apply list_elem_of_filter. split; [|done].
      apply lookup_words_in_vocab. exists ids. by apply lookup_words_inr.
    + intros (p & Hp & Hne & Hids). exists p. split_and!; [|done..].
      by apply list_elem_of_filter in Hp as [_ Hp].
  - intros e (p & l & Hp & Hpl & Hl)%gen_initial_graph_inl.
    exists p, l. split_and!; [|done..].
    apply list_elem_of_filter. split; [|done].
    apply phrase_ints_Some in Hpl as [Hlook _].
    apply lookup_words_in_vocab. by exists l.
  - intros p l e [_ Hp]%list_elem_of_filter Hpl Hl.
    by eapply gen_initial_graph_raises.
Qed.
End oov_claims.

Section raw_finals.
Context {W : Type} `{!Weight W}.
Implicit Types (l ids : list Z) (ls : list (list Z)) (sts : list (State W)).

Lemma chain_ends_snoc n ls l :
  chain_ends n (ls ++ [l])
  = chain_ends n ls ++ [n + sum_list (length <$> ls) + length l].
Proof.
  revert n. induction ls as [|l0 ls IH]; intros n; cbn.
  - by rewrite Nat.add_0_r.
  - rewrite IH. do 3 f_equal. lia.
Qed.

Lemma filter_ext_in {A : Type} (P Q : A → Prop)
    `{!∀ x, Decision (P x)} `{!∀ x, Decision (Q x)} (xs : list A) :
  (∀ x, x ∈ xs → P x ↔ Q x) → filter P xs = filter Q xs.
Proof.
  induction xs as [|x xs IH]; intros HPQ; [done|].
  rewrite !filter_cons.
  rewrite IH by (intros y Hy; apply HPQ; by right).
  pose proof (HPQ x (ltac:(by left))) as Hx.
  destruct (decide (P x)), (decide (Q x)); tauto.
Qed.

Lemma add_chain_final sts (cs : list (Arc W)) s :
  s < length sts →
  final <$> add_chain 0 sts cs !! s = final <$> sts !! s.
Proof.
  intros Hs. destruct (decide (s = 0)) as [->|Hne].
  - destruct cs as [|a0 rest]; [done|]. cbn [add_chain].
    rewrite lookup_app_l by (by rewrite length_alter).
    rewrite list_lookup_alter_eq. by destruct (sts !! 0).
  - by rewrite add_chain_lookup_other.
Qed.

(** The final states, in the order of their numbers. *)
Lemma final_states_raw_states wd pd ls :
  Forall (λ l, l ≠ []) ls →
  final_states (mkFst (Some 0) (raw_states wd pd ls)) = chain_ends 0 ls.
Proof.
  induction ls as [|l ls IH] using rev_ind; intros Hne; [done|].
  apply Forall_app in Hne as [Hne Hl]. rewrite Forall_singleton in Hl.
  rewrite chain_ends_snoc, <-IH by done. clear IH.
  unfold final_states, num_states, final_weight. cbn [states].
  unfold raw_states. rewrite foldl_app. cbn [foldl].
  fold (raw_states wd pd ls).
  set (sts := raw_states wd pd ls).
  rewrite length_raw_step, seq_app, filter_app. f_equal.
  - apply filter_ext_in. intros s Hs. apply elem_of_seq in Hs.
    pose proof (add_chain_final sts
      (chain_arcs (stored_weight wd pd l) (length sts) l) s) as Hfin.
    specialize (Hfin ltac:(lia)). unfold raw_step.
    destruct (add_chain _ _ _ !! s) as [st1|], (sts !! s) as [st2|];
      cbn in Hfin; try done.
    by injection Hfin as ->.
  - cbn [plus].
    destruct l as [|x l' _] using rev_ind; [done|].
    rewrite length_app. cbn [length].
    rewrite Nat.add_1_r, seq_S, filter_app.
    rewrite filter_none.
    2:{ apply Forall_forall. intros s Hs. apply elem_of_seq in Hs.
        replace s with (length sts + (s - length sts)) by lia.
        rewrite raw_step_new_state by (rewrite length_app; cbn; lia).
        rewrite chain_state_chain_arcs.
        destruct ((l' ++ [x]) !! S (s - length sts)) eqn:Hlk.
        - cbn. by intros [? ?].
        - apply lookup_ge_None in Hlk. rewrite length_app in Hlk.
          cbn in Hlk. lia. }
    rewrite filter_cons_True.
    2:{ rewrite raw_step_new_state by (rewrite length_app; cbn; lia).
        rewrite chain_state_chain_arcs.
        rewrite (proj2 (lookup_ge_None _ _)) by (rewrite length_app; cbn; lia).
        by eexists. }
    cbn. f_equal. subst sts. rewrite length_raw_states. lia.
Qed.

(** X3. The final states of the raw automaton are the last states of the
    chains, one per accepted phrase in phrase order; each has final
    weight [0.0] and no outgoing arc, and the start state is not final. *)
Theorem X3_raw_final_states phrases word_to_int (wd pd : W) raw log :
  __gen_initial_graph phrases word_to_int wd pd = inr (raw, log) →
  final_states raw = chain_ends 0 (accepted_ints word_to_int phrases) ∧
  final_weight raw 0 = None ∧
  ∀ s, is_Some (final_weight raw s) →
       final_weight raw s = Some w_zero ∧ arcs_from raw s = [].
Proof.
  intros (-> & -> & Hnone)%gen_initial_graph_inr.
  set (ls := accepted_ints word_to_int phrases).
  split_and!.
  - apply final_states_raw_states, accepted_ints_nonempty.
  - unfold final_weight. cbn [states]. by rewrite raw_states_start.
  - intros s Hfin. unfold final_weight, arcs_from in *. cbn [states] in *.
    destruct (decide (s = 0)) as [->|Hs].
    { rewrite raw_states_start in Hfin. cbn in Hfin. by destruct Hfin. }
    destruct (raw_states wd pd ls !! s) as [st|] eqn:Hst;
      [|by destruct Hfin].
    pose proof (lookup_lt_Some _ _ _ Hst) as Hlt.
    destruct (raw_states_index_cases wd pd ls s)
      as (ls1 & l & ls2 & j & Hls & Hj & ->); [lia|done|].
    rewrite Hls in Hst.
    rewrite (raw_states_state wd pd ls1 l ls2 j Hj) in Hst.
    injection Hst as <-. rewrite chain_state_chain_arcs in *.
    destruct (l !! S j); [|done]. cbn in Hfin. by destruct Hfin.
Qed.

Lemma start_arcs_labels (wd pd : W) n ls :
  (λ a, (ilabel a, olabel a)) <$> start_arcs wd pd n ls
  = (λ x, (x, x)) <$> omap head ls.
Proof.
  revert n. induction ls as [|l ls IH]; intros n; [done|].
  destruct l as [|x l']; cbn [start_arcs chain_arcs imap omap head].
  - apply IH.
  - cbn. by rewrite IH.
Qed.

(** X4. The raw automaton branches at the start state only: the arcs of
    the start state are labelled, in phrase order, with the first ids of
    the accepted phrases (one arc per accepted phrase, repeated first
    words giving repeated labels), and every other state has at most one
    outgoing arc. *)
Theorem X4_raw_branching phrases word_to_int (wd pd : W) raw log :
  __gen_initial_graph phrases word_to_int wd pd = inr (raw, log) →
  (λ a, (ilabel a, olabel a)) <$> arcs_from raw 0
    = (λ x, (x, x)) <$> omap head (accepted_ints word_to_int phrases) ∧
  length (arcs_from raw 0) = length (accepted_ints word_to_int phrases) ∧
  ∀ s, s ≠ 0 → length (arcs_from raw s) ≤ 1.
Proof.
  intros (-> & -> & _)%gen_initial_graph_inr.
  set (ls := accepted_ints word_to_int phrases).
  assert ((λ a : Arc W, (ilabel a, olabel a)) <$>
            arcs_from (mkFst (Some 0) (raw_states wd pd ls)) 0
          = (λ x, (x, x)) <$> omap head ls) as Hlab.
  { unfold arcs_from. cbn [states]. rewrite raw_states_start. cbn [arcs].
    apply start_arcs_labels. }
  split_and!; [done| |].
  - apply (f_equal length) in Hlab. rewrite !length_fmap in Hlab.
    rewrite Hlab. clear Hlab. subst ls.
    pose proof (accepted_ints_nonempty word_to_int phrases) as Hne.
    induction Hne as [|l ls' Hl _ IH]; [done|].
    destruct l; [done|]. cbn. by rewrite IH.
  - intros s Hs. unfold arcs_from. cbn [states].
    destruct (raw_states wd pd ls !! s) as [st|] eqn:Hst; [|cbn; lia].
    pose proof (lookup_lt_Some _ _ _ Hst) as Hlt.
    destruct (raw_states_index_cases wd pd ls s)
      as (ls1 & l & ls2 & j & Hls & Hj & ->); [lia|done|].
    rewrite Hls in Hst.
    rewrite (raw_states_state wd pd ls1 l ls2 j Hj) in Hst.
    injection Hst as <-. rewrite chain_state_chain_arcs.
    destruct (l !! S j); cbn; lia.
Qed.

(** X5. Phrases are processed in order and never revisited: building
    from [ps1 ++ ps2] logs the warnings of [ps1] followed by those of
    [ps2], takes one state per id of either part beside the start state,
    leaves every state of the automaton of [ps1] but the start state as
    it is, and at the start state only appends arcs. *)
Theorem X5_append_phrases ps1 ps2 word_to_int (wd pd : W)
    raw1 log1 raw2 log2 raw log :
  __gen_initial_graph ps1 word_to_int wd pd = inr (raw1, log1) →
  __gen_initial_graph ps2 word_to_int wd pd = inr (raw2, log2) →
  __gen_initial_graph (ps1 ++ ps2) word_to_int wd pd = inr (raw, log) →
  log = log1 ++ log2 ∧
  num_states raw + 1 = num_states raw1 + num_states raw2 ∧
  (∀ s, 0 < s < num_states raw1 → states raw !! s = states raw1 !! s) ∧
  arcs_from raw1 0 `prefix_of` arcs_from raw 0.
Proof.
  intros (-> & -> & _)%gen_initial_graph_inr
         (-> & -> & _)%gen_initial_graph_inr
         (-> & -> & _)%gen_initial_graph_inr.
  rewrite accepted_ints_app.
  set (ls1 := accepted_ints word_to_int ps1).
  set (ls2 := accepted_ints word_to_int ps2).
  split_and!.
  - unfold warnings_of. by rewrite filter_app, fmap_app.
  - unfold num_states. cbn [states].
    rewrite !length_raw_states, fmap_app, sum_list_with_app. lia.
  - intros s [Hpos Hlt]. cbn [states] in *. unfold num_states in Hlt.
    cbn [states] in Hlt.
    unfold raw_states at 1. rewrite foldl_app. fold (raw_states wd pd ls1).
    by apply foldl_raw_step_lookup_other.
  - unfold arcs_from. cbn [states]. rewrite raw_states_start.
    unfold raw_states at 1. rewrite foldl_app. fold (raw_states wd pd ls1).
    rewrite (foldl_raw_step_start wd pd ls2 _ _ (raw_states_start wd pd ls1)).
    cbn [arcs]. by eexists.
Qed.
End raw_finals.

Section raw_skeleton.
Context {W : Type} `{!Weight W}.
Implicit Types (l : list Z) (ls : list (list Z)) (sts : list (State W)).

Lemma arc_shape_chain_arcs (X X' : W) n l :
  arc_shape <$> chain_arcs X n l = arc_shape <$> chain_arcs X' n l.
Proof. unfold chain_arcs. rewrite !fmap_imap. by apply imap_ext. Qed.

Lemma state_shape_add_chain sts sts' (cs cs' : list (Arc W)) :
  arc_shape <$> cs = arc_shape <$> cs' →
  state_shape <$> sts = state_shape <$> sts' →
  state_shape <$> add_chain 0 sts cs = state_shape <$> add_chain 0 sts' cs'.
Proof.
  intros Hcs Hsts.
  destruct cs as [|a0 rest], cs' as [|a0' rest']; try done.
  rewrite !fmap_cons in Hcs.
  pose proof (f_equal (λ x, default (arc_shape a0) (head x)) Hcs) as Ha0.
  pose proof (f_equal tail Hcs) as Hrest. cbn in Ha0, Hrest. clear Hcs.
  cbn [add_chain]. rewrite !fmap_app. f_equal.
  - destruct sts as [|st sts0], sts' as [|st' sts0']; try done.
    rewrite !fmap_cons in Hsts.
    pose proof (f_equal (λ x, default (state_shape st) (head x)) Hsts) as Hst.
    pose proof (f_equal tail Hsts) as Hsts0. cbn in Hst, Hsts0. clear Hsts.
    cbn [alter list_alter]. rewrite !fmap_cons. f_equal; [|done].
    unfold state_shape in *. cbn [add_out final arcs].
    rewrite !fmap_app. cbn [fmap list_fmap].
    congruence.
  - unfold chain_states. cbn [tail]. rewrite !fmap_app. f_equal.
    rewrite <-!list_fmap_compose.
    transitivity ((λ sh, (false, [sh])) <$> (arc_shape <$> rest)).
    + rewrite <-list_fmap_compose. by apply list_fmap_ext.
    + rewrite Hrest, <-list_fmap_compose. by apply list_fmap_ext.
Qed.

Lemma state_shape_raw_states (wd pd wd' pd' : W) ls :
  state_shape <$> raw_states wd pd ls = state_shape <$> raw_states wd' pd' ls.
Proof.
  unfold raw_states.
  assert (state_shape <$> [mkState (W := W) None []]
          = state_shape <$> [mkState (W := W) None []]) as Hinit by done.
  revert Hinit. generalize [mkState (W := W) None []] at 1 3.
  generalize [mkState (W := W) None []].
  induction ls as [|l ls IH]; intros sts' sts Hsts; [done|].
  cbn [foldl]. apply IH. unfold raw_step.
  apply state_shape_add_chain; [|done].
  apply (f_equal length) in Hsts. rewrite !length_fmap in Hsts.
  rewrite Hsts. apply arc_shape_chain_arcs.
Qed.

(** X6. The discounts decide weights only: the raw automata built from
    the same phrases with different discounts have the same start state,
    the same final states and the same arcs up to their weights, and the
    same warnings are logged. *)
Theorem X6_discounts_only_weights phrases word_to_int (wd pd wd' pd' : W)
    raw log raw' log' :
  __gen_initial_graph phrases word_to_int wd pd = inr (raw, log) →
  __gen_initial_graph phrases word_to_int wd' pd' = inr (raw', log') →
  skeleton raw = skeleton raw' ∧ log = log'.
Proof.
  intros (-> & -> & _)%gen_initial_graph_inr
         (-> & -> & _)%gen_initial_graph_inr.
  split; [|done]. unfold skeleton. cbn [start states].
  f_equal. apply state_shape_raw_states.
Qed.
End raw_skeleton.

(** * The rewrite of the determinized automaton *)

Section rewrite_facts_more.
Context {W : Type} `{!Weight W}.
Implicit Types (self : BoostingFstBuilder) (d raw g : VectorFst W).

Lemma set_final_invalid d s (w : option W) :
  ¬ s < num_states d → set_final d s w = inl out_of_range.
Proof.
  intros Hs. unfold set_final.
  by rewrite (proj2 (lookup_ge_None (states d) s)) by (unfold num_states in Hs; lia).
Qed.

(** The arc the rewrite appends to the arcs of state [s]. *)
Lemma rewritten_arcs_from s_start rho d s :
  s < num_states d →
  arcs_from (mkFst (Some s_start) (imap (rewrite_state s_start rho) (states d))) s
  = arcs_from d s
    ++ [if decide (s = s_start) then mkArc rho rho w_zero s_start
        else mkArc 0 0 w_zero s_start].
Proof.
  intros Hs. unfold arcs_from. cbn [states]. rewrite rewritten_lookup.
  destruct (lookup_lt_is_Some_2 (states d) s Hs) as [st ->]. cbn.
  unfold rewrite_state. by case_decide.
Qed.

Lemma rewritten_paths s_start rho d labels s acc s' (w : W) :
  (s', w) ∈ paths d s labels acc →
  (s', w) ∈ paths
    (mkFst (Some s_start) (imap (rewrite_state s_start rho) (states d)))
    s labels acc.
Proof.
  revert s acc. induction labels as [|x labels IH]; intros s acc; [done|].
  rewrite !paths_cons, !list_elem_of_bind.
  intros (a & Hin & Ha). exists a. split.
  - case_decide; [by apply IH|done].
  - assert (s < num_states d) as Hs.
    { unfold arcs_from in Ha. unfold num_states.
      destruct (states d !! s) eqn:Hst; [by eapply lookup_lt_Some|].
      by apply elem_of_nil in Ha. }
    rewrite rewritten_arcs_from by done. apply elem_of_app. by left.
Qed.

Lemma paths_app_elem (g : VectorFst W) s labels1 labels2 acc s1 w1 s2 w2 :
  (s1, w1) ∈ paths g s labels1 acc →
  (s2, w2) ∈ paths g s1 labels2 w1 →
  (s2, w2) ∈ paths g s (labels1 ++ labels2) acc.
Proof.
  revert s acc. induction labels1 as [|x labels1 IH]; intros s acc.
  - cbn [paths app]. by intros [= -> ->]%list_elem_of_singleton.
  - cbn [app]. rewrite !paths_cons, !list_elem_of_bind.
    intros (a & Hin & Ha) H2. exists a. split; [|done].
    case_decide; [by eapply IH|by apply elem_of_nil in Hin].
Qed.

Section with_determinize.
Variable determinize : VectorFst W → res (VectorFst W).

(** The run stops at the closing [set_final] when the determinized
    automaton has no start state among its states. *)
Lemma lattice_boosting_graph_no_start self phrases wd pd d :
  boost_error wd pd (accepted_ints (word_to_int self) phrases) = None →
  determinize
    (mkFst (Some 0)
       (raw_states wd pd (accepted_ints (word_to_int self) phrases)))
    = inr d →
  ¬ has_start d →
  lattice_boosting_graph determinize self phrases wd pd = inl out_of_range.
Proof.
  intros Hnone Hdet Hno. unfold lattice_boosting_graph.
  rewrite gen_initial_graph_returns by done.
  change (mbind ?k (inr ?x)) with (k x). cbn beta iota.
  rewrite Hdet.
  change (mbind ?k (inr ?x)) with (k x). cbn beta iota.
  destruct d as [[s_start|] sts]; cbn [start]; [|done].
  assert (¬ s_start < length sts) as Hge.
  { intros Hlt. apply Hno. by exists s_start. }
  unfold num_states. cbn [states].
  pose proof (rewrite_loop determinize s_start (Some s_start) sts []) as Hloop.
  cbn [length app Nat.add] in Hloop. rewrite Hloop. clear Hloop.
  change (mbind ?k (inr ?x)) with (k x). cbn beta.
  rewrite set_final_invalid; [done|].
  unfold num_states. cbn [states]. by rewrite length_imap.
Qed.

(** X7. The rewrite keeps the determinized automaton and adds one arc per
    state: the returned graph has the states and the start state of the
    determinized automaton, and the arcs of each state are those it had
    there, in the same order and with the same weights, followed by
    exactly one new arc, the wildcard self-loop at the start state and the
    epsilon arc to the start state elsewhere. *)
Theorem X7_rewrite_appends_one_arc self phrases wd pd raw log d :
  __gen_initial_graph phrases (word_to_int self) wd pd = inr (raw, log) →
  determinize raw = inr d → has_start d →
  ∃ g s_start,
    lattice_boosting_graph determinize self phrases wd pd = inr (g, log) ∧
    start d = Some s_start ∧ start g = Some s_start ∧
    num_states g = num_states d ∧
    ∀ s, s < num_states d →
      arcs_from g s
      = arcs_from d s
        ++ [if decide (s = s_start)
            then mkArc (rho_int self) (rho_int self) w_zero s_start
            else mkArc 0 0 w_zero s_start].
Proof.
  intros (-> & -> & Hnone)%gen_initial_graph_inr Hdet (s_start & Hs & Hlt).
  eexists _, s_start. split_and!.
  - by apply lattice_boosting_graph_closed.
  - done.
  - done.
  - unfold num_states. cbn [states]. by rewrite length_imap.
  - intros s Hsd. by apply rewritten_arcs_from.
Qed.

(** X8. Every path of the determinized automaton is a path of the
    returned graph, between the same states and with the same weight: the
    rewrite removes no way of reading a phrase. *)
Theorem X8_rewrite_keeps_paths self phrases wd pd raw log d
    labels s acc s' w :
  __gen_initial_graph phrases (word_to_int self) wd pd = inr (raw, log) →
  determinize raw = inr d → has_start d →
  (s', w) ∈ paths d s labels acc →
  ∃ g,
    lattice_boosting_graph determinize self phrases wd pd = inr (g, log) ∧
    (s', w) ∈ paths g s labels acc.
Proof.
  intros (-> & -> & Hnone)%gen_initial_graph_inr Hdet (s_start & Hs & Hlt) Hpath.
  eexists. split.
  - by apply lattice_boosting_graph_closed.
  - by apply rewritten_paths.
Qed.

(** X9. [lattice_boosting_graph] raises in three cases only: the build
    of the raw automaton raises, which it does when the library refuses
    the boost of an accepted phrase as a weight, and only then; the
    determinization routine raises, and the exception is that one; or the
    determinized automaton has no start state among its states, and the
    closing [set_final] raises the index error. *)
Theorem X9_build_failures self phrases wd pd e :
  (lattice_boosting_graph determinize self phrases wd pd = inl e ↔
   __gen_initial_graph phrases (word_to_int self) wd pd = inl e ∨
   ∃ raw log,
     __gen_initial_graph phrases (word_to_int self) wd pd = inr (raw, log) ∧
     (determinize raw = inl e ∨
      ∃ d, determinize raw = inr d ∧ ¬ has_start d ∧ e = out_of_range)) ∧
  (__gen_initial_graph phrases (word_to_int self) wd pd = inl e →
   ∃ p l, p ∈ phrases ∧ phrase_ints (word_to_int self) p = Some l ∧
          to_weight (phrase_weight wd pd l) = inl e) ∧
  ((∃ p l e', p ∈ phrases ∧ phrase_ints (word_to_int self) p = Some l ∧
              to_weight (phrase_weight wd pd l) = inl e') →
   ∃ e', __gen_initial_graph phrases (word_to_int self) wd pd = inl e').
Proof.
  split_and!.
  - destruct (__gen_initial_graph phrases (word_to_int self) wd pd)
      as [e0|[raw log]] eqn:Hgen.
    { assert (lattice_boosting_graph determinize self phrases wd pd = inl e0)
        as -> by (unfold lattice_boosting_graph; by rewrite Hgen).
      split; [intros [= ->]; by left|].
      by intros [[= ->]|(raw & log & [=] & _)]. }
    pose proof Hgen as (-> & -> & Hnone)%gen_initial_graph_inr.
    destruct (determinize
                (mkFst (Some 0)
                   (raw_states wd pd
                      (accepted_ints (word_to_int self) phrases))))
      as [e'|d] eqn:Hdet.
    + assert (lattice_boosting_graph determinize self phrases wd pd = inl e')
        as ->.
      { unfold lattice_boosting_graph. rewrite Hgen.
        change (mbind ?k (inr ?x)) with (k x). cbn beta iota.
        by rewrite Hdet. }
      split.
      * intros [= ->]. right. eexists _, _. split; [done|]. by left.
      * intros [[=]|(raw & log & [= <- <-] & [Hd|(d & Hd & _)])];
          rewrite Hdet in Hd; [by injection Hd as ->|done].
    + destruct (decide (has_start d)) as [Hst|Hno].
      * destruct Hst as (s_start & Hs & Hlt).
        rewrite (lattice_boosting_graph_closed _ _ _ _ _ _ _ Hnone Hdet Hs Hlt).
        split; [done|].
        intros [[=]|(raw & log & [= <- <-] & [Hd|(d' & Hd & Hno & _)])];
          rewrite Hdet in Hd; [done|].
        injection Hd as <-. destruct Hno. by exists s_start.
      * rewrite (lattice_boosting_graph_no_start _ _ _ _ _ Hnone Hdet Hno).
        split.
        -- intros [= <-]. right. eexists _, _. split; [done|].
           right. by exists d.
        -- intros [[=]|(raw & log & [= <- <-] & [Hd|(d' & Hd & _ & ->)])];
             rewrite Hdet in Hd; done.
  - apply gen_initial_graph_inl.
  - intros (p & l & e' & Hp & Hpl & Hl).
    by eapply gen_initial_graph_raises.
Qed.
(** X17. From wherever the determinized automaton gets by reading labels
    from its start state, the returned graph gets back to its start state
    by one epsilon, at the same weight plus [0.0]; and the wildcard read
    at the start state stays there at weight [0.0].  The start state is
    final, so the graph accepts the labels followed by epsilon, for every
    phrase and every proper prefix of one. *)
Theorem X17_return_to_start self phrases wd pd raw log d s_start
    labels s w :
  __gen_initial_graph phrases (word_to_int self) wd pd = inr (raw, log) →
  determinize raw = inr d →
  start d = Some s_start → s_start < num_states d →
  (s, w) ∈ paths d s_start labels w_zero →
  s < num_states d → s ≠ s_start →
  ∃ g,
    lattice_boosting_graph determinize self phrases wd pd = inr (g, log) ∧
    start g = Some s_start ∧
    final_weight g s_start = Some w_zero ∧
    (s_start, w_add w w_zero) ∈ paths g s_start (labels ++ [0%Z]) w_zero ∧
    (s_start, w_add w_zero w_zero)
      ∈ paths g s_start [rho_int self] w_zero.
Proof.
  intros (-> & -> & Hnone)%gen_initial_graph_inr Hdet Hs Hlt Hpath Hsd Hne.
  eexists. split; [by apply lattice_boosting_graph_closed|].
  split; [done|]. split_and!.
  - unfold final_weight. cbn [states]. rewrite rewritten_lookup.
    destruct (lookup_lt_is_Some_2 (states d) s_start Hlt) as [st ->]. cbn.
    unfold rewrite_state. by rewrite decide_True.
  - eapply paths_app_elem; [by apply rewritten_paths|].
    rewrite paths_cons. apply list_elem_of_bind.
    exists (mkArc 0 0 w_zero s_start). split.
    + cbn [ilabel olabel nextstate weight]. rewrite decide_True by done.
      by left.
    + rewrite rewritten_arcs_from by done. rewrite decide_False by done.
      apply elem_of_app. right. by left.
  - rewrite paths_cons. apply list_elem_of_bind.
    exists (mkArc (rho_int self) (rho_int self) w_zero s_start). split.
    + cbn [ilabel olabel nextstate weight]. rewrite decide_True by done.
      by left.
    + rewrite rewritten_arcs_from by done. rewrite decide_True by done.
      apply elem_of_app. right. by left.
Qed.
End with_determinize.

(** X10. The final weights that determinization computes are thrown
    away: two determinization routines whose results for the raw
    automaton have the same start state and the same arcs at every state
    give the same outcome of [lattice_boosting_graph], whatever final
    weights the two results carry. *)
Theorem X10_final_weights_discarded
    (determinize determinize' : VectorFst W → res (VectorFst W))
    self phrases wd pd raw log d d' :
  __gen_initial_graph phrases (word_to_int self) wd pd = inr (raw, log) →
  determinize raw = inr d → determinize' raw = inr d' →
  start d = start d' → arcs <$> states d = arcs <$> states d' →
  lattice_boosting_graph determinize self phrases wd pd
  = lattice_boosting_graph determinize' self phrases wd pd.
Proof.
  intros (-> & -> & Hnone)%gen_initial_graph_inr Hdet Hdet' Hstart Harcs.
  assert (num_states d = num_states d') as Hlen.
  { unfold num_states. apply (f_equal length) in Harcs.
    by rewrite !length_fmap in Harcs. }
  destruct (decide (has_start d)) as [Hst|Hno].
  - destruct Hst as (s_start & Hs & Hlt).
    rewrite (lattice_boosting_graph_closed _ _ _ _ _ _ _ Hnone Hdet Hs Hlt).
    rewrite (lattice_boosting_graph_closed _ _ _ _ _ _ s_start Hnone Hdet')
      by congruence.
    do 3 f_equal. apply list_eq. intros j. rewrite !list_lookup_imap.
    apply (f_equal (λ l, l !! j)) in Harcs.
    rewrite !list_lookup_fmap in Harcs.
    destruct (states d !! j) as [st|], (states d' !! j) as [st'|];
      cbn in *; try done.
    injection Harcs as Harcs. unfold rewrite_state.
    by rewrite Harcs.
  - rewrite (lattice_boosting_graph_no_start _ _ _ _ _ _ Hnone Hdet Hno).
    rewrite (lattice_boosting_graph_no_start _ _ _ _ _ _ Hnone Hdet'); [done|].
    intros (s & Hs & Hlt). apply Hno. exists s. split; congruence.
Qed.
End rewrite_facts_more.

(** * The lookup table of the builder *)

Section init_facts_more.
Variable loadtxt : string → res (list (string * Z)).

Lemma dict_of_rows_snoc (rows : list (string * Z)) (r : string * Z) :
  dict_of_rows (rows ++ [r]) = <[r.1 := r.2]> (dict_of_rows rows).
Proof. unfold dict_of_rows. by rewrite foldl_app. Qed.

(** The id a word has in the dict built from the rows: that of the last
    row for the word. *)
Lemma dict_of_rows_lookup (rows : list (string * Z)) (w : string) :
  dict_of_rows rows !! w = snd <$> last (filter (λ r, r.1 = w) rows).
Proof.
  induction rows as [|r rows IH] using rev_ind; [done|].
  rewrite dict_of_rows_snoc, filter_app.
  destruct (decide (r.1 = w)) as [<-|Hne].
  - rewrite lookup_insert_eq, filter_cons_True, filter_nil by done.
    by rewrite last_snoc.
  - rewrite lookup_insert_ne, filter_cons_False, filter_nil by done.
    by rewrite app_nil_r.
Qed.

(** X11. Of several rows of [words.txt] for one word the last one counts:
    after a successful construction every word other than the two reserved
    symbols has the id of its last row (and is absent when it has no row),
    and the wildcard id is the id of the last row of ["#0"].  Nothing
    checks that ids are distinct or differ from the reserved ones. *)
Theorem X11_last_row_wins (words_txt : string) (self : BoostingFstBuilder)
    (rows : list (string * Z)) :
  loadtxt words_txt = inr rows →
  __init__ loadtxt words_txt = inr self →
  (∀ w, w ≠ "<eps>" → w ≠ "#0" →
        word_to_int self !! w = snd <$> last (filter (λ r, r.1 = w) rows)) ∧
  word_to_int self !! "<eps>" = None ∧
  word_to_int self !! "#0" = None ∧
  Some (rho_int self) = snd <$> last (filter (λ r, r.1 = "#0") rows).
Proof.
  intros Hrows Hinit.
  destruct (init_inr loadtxt words_txt self Hinit)
    as (rows' & rho & Hrows' & _ & _ & Hrho & ->).
  assert (rows' = rows) as -> by congruence.
  cbn [word_to_int rho_int]. split_and!.
  - intros w Heps Hw.
    rewrite lookup_delete_ne, lookup_delete_ne by done.
    apply dict_of_rows_lookup.
  - rewrite lookup_delete_ne by done. apply lookup_delete_eq.
  - apply lookup_delete_eq.
  - by rewrite <-dict_of_rows_lookup.
Qed.
End init_facts_more.

(** * Tokenizing the phrase file *)

Section tokenize_facts.
Import make_sigle_boosting_graph.
Implicit Types (s cur sp t : list Ascii.ascii) (toks : list (list Ascii.ascii)).

Lemma lstrip_spec s :
  ∃ sp, s = sp ++ lstrip s ∧ Forall (λ c, isspace c = true) sp.
Proof.
  induction s as [|c s (sp & Hs & Hsp)]; [by exists []|]. cbn [lstrip].
  destruct (isspace c) eqn:Hc.
  - exists (c :: sp). split; [cbn; by f_equal|by constructor].
  - by exists [].
Qed.

Lemma rstrip_spec s :
  ∃ sp, s = rstrip s ++ sp ∧ Forall (λ c, isspace c = true) sp.
Proof.
  destruct (lstrip_spec (reverse s)) as (sp & Hs & Hsp).
  exists (reverse sp). split.
  - unfold rstrip. rewrite <-reverse_app, <-Hs. by rewrite reverse_involutive.
  - by apply Forall_reverse.
Qed.

Lemma split_spaces sp :
  Forall (λ c, isspace c = true) sp → split sp = [].
Proof.
  unfold split. induction 1 as [|c sp Hc _ IH]; [done|].
  cbn [split_from]. by rewrite Hc, IH.
Qed.

Lemma split_leading_spaces sp s :
  Forall (λ c, isspace c = true) sp → split (sp ++ s) = split s.
Proof.
  induction 1 as [|c sp Hc _ IH]; [done|].
  unfold split in *. cbn [app split_from]. by rewrite Hc.
Qed.

Lemma split_from_trailing_spaces cur s sp :
  Forall (λ c, isspace c = true) sp →
  split_from cur (s ++ sp) = split_from cur s.
Proof.
  intros Hsp. revert cur. induction s as [|c s IH]; intros cur.
  - cbn [app]. destruct Hsp as [|c sp Hc Hsp]; [done|].
    cbn [split_from]. rewrite Hc.
    by rewrite (split_spaces sp Hsp : split_from [] sp = []).
  - cbn [app split_from]. by rewrite !IH.
Qed.

Lemma split_strip s : split (strip s) = split s.
Proof.
  unfold strip.
  destruct (lstrip_spec s) as (sp & Hs & Hsp).
  destruct (rstrip_spec (lstrip s)) as (sp' & Ht & Hsp').
  rewrite Hs at 2. rewrite split_leading_spaces by done.
  rewrite Ht at 2. unfold split.
  by rewrite split_from_trailing_spaces.
Qed.

Lemma mjoin_push t toks : mjoin (push t toks) = t ++ mjoin toks.
Proof. by destruct t. Qed.

Lemma split_from_mjoin cur s :
  mjoin (split_from cur s)
  = reverse cur ++ filter (λ c, isspace c = false) s.
Proof.
  revert cur. induction s as [|c s IH]; intros cur; cbn [split_from].
  - by rewrite mjoin_push.
  - destruct (isspace c) eqn:Hc.
    + rewrite mjoin_push, IH, filter_cons_False by (by rewrite Hc).
      done.
    + rewrite IH, filter_cons_True by done.
      by rewrite reverse_cons, <-(assoc_L (++)).
Qed.

Lemma Forall_push (P : list Ascii.ascii → Prop) t toks :
  (t ≠ [] → P t) → Forall P toks → Forall P (push t toks).
Proof. intros Ht Htoks. destruct t; [done|]. constructor; [by apply Ht|done]. Qed.

Lemma split_from_words cur s :
  Forall (λ c, isspace c = false) cur → Forall is_word (split_from cur s).
Proof.
  revert cur. induction s as [|c s IH]; intros cur Hcur; cbn [split_from].
  - apply Forall_push; [|done]. intros Hne. split; [done|].
    by apply Forall_reverse.
  - destruct (isspace c) eqn:Hc.
    + apply Forall_push; [|by apply IH]. intros Hne. split; [done|].
      by apply Forall_reverse.
    + apply IH. by constructor.
Qed.

Lemma split_from_word cur t s :
  Forall (λ c, isspace c = false) t →
  split_from cur (t ++ s) = split_from (reverse t ++ cur) s.
Proof.
  intros Ht. revert cur. induction Ht as [|c t Hc _ IH]; intros cur; [done|].
  cbn [app split_from]. rewrite Hc, IH.
  by rewrite reverse_cons, <-(assoc_L (++)).
Qed.

Lemma list_ascii_of_string_app (s1 s2 : string) :
  String.list_ascii_of_string (s1 +:+ s2)
  = String.list_ascii_of_string s1 ++ String.list_ascii_of_string s2.
Proof.
  induction s1 as [|c s1 IH]; [done|]. exact (f_equal (cons c) IH).
Qed.

Lemma fmap_list_ascii_of_string toks :
  String.list_ascii_of_string <$> (String.string_of_list_ascii <$> toks)
  = toks.
Proof.
  induction toks as [|t toks IH]; [done|]. rewrite !fmap_cons, IH.
  by rewrite String.list_ascii_of_string_of_list_ascii.
Qed.

Lemma fmap_string_of_list_ascii (ws : list string) :
  String.string_of_list_ascii <$> (String.list_ascii_of_string <$> ws) = ws.
Proof.
  induction ws as [|w ws IH]; [done|]. rewrite !fmap_cons, IH.
  by rewrite String.string_of_list_ascii_of_string.
Qed.

Lemma tokenize_split (line : string) :
  tokenize line
  = String.string_of_list_ascii <$> split (String.list_ascii_of_string line).
Proof. unfold tokenize. by rewrite split_strip. Qed.

Lemma filter_nil_all {A : Type} (P : A → Prop) `{!∀ x, Decision (P x)}
    (xs : list A) :
  filter P xs = [] → Forall (λ x, ¬ P x) xs.
Proof.
  induction xs as [|x xs IH]; [done|]. rewrite filter_cons.
  destruct (decide (P x)); [done|]. intros Hxs. constructor; [done|by apply IH].
Qed.

Lemma tokenize_nil (line : string) : tokenize line = [] ↔ blank line.
Proof.
  rewrite tokenize_split. unfold blank. split.
  - intros Hnil. apply fmap_nil_inv in Hnil.
    pose proof (split_from_mjoin [] (String.list_ascii_of_string line)) as Hj.
    unfold split in Hnil. rewrite Hnil in Hj. cbn in Hj. symmetry in Hj.
    apply filter_nil_all in Hj. eapply Forall_impl; [exact Hj|].
    intros c Hc. cbn in Hc. by destruct (isspace c).
  - intros Hb. by rewrite split_spaces.
Qed.

(** X12. What [line.strip().split()] keeps of a line: every token is
    non-empty and free of whitespace, and the tokens put one after the
    other are the line with its whitespace characters deleted, so that
    no other character is lost, added or moved. *)
Theorem X12_tokens_of_a_line (line : string) :
  Forall (λ w, is_word (String.list_ascii_of_string w)) (tokenize line) ∧
  mjoin (String.list_ascii_of_string <$> tokenize line)
  = filter (λ c, isspace c = false) (String.list_ascii_of_string line).
Proof.
  rewrite tokenize_split.
  set (s := String.list_ascii_of_string line).
  split.
  - apply Forall_fmap. 
    pose proof (split_from_words [] s (Forall_nil_2 _)) as Hw.
    eapply Forall_impl; [exact Hw|]. intros t Ht. cbn.
    by rewrite String.list_ascii_of_string_of_list_ascii.
  - rewrite fmap_list_ascii_of_string. apply (split_from_mjoin [] s).
Qed.

(** X13. The [strip] before the [split] changes nothing: [split] alone
    already ignores the whitespace at both ends of the line, the newline
    that [readlines] leaves there included. *)
Theorem X13_strip_is_redundant (line : string) :
  split (strip (String.list_ascii_of_string line))
  = split (String.list_ascii_of_string line) ∧
  tokenize line
  = String.string_of_list_ascii <$> split (String.list_ascii_of_string line).
Proof. split; [apply split_strip|apply tokenize_split]. Qed.

Lemma split_concat (ws : list string) :
  Forall (λ w, is_word (String.list_ascii_of_string w)) ws →
  split (String.list_ascii_of_string (String.concat " " ws))
  = String.list_ascii_of_string <$> ws.
Proof.
  induction 1 as [|w ws [Hne Hw] Hws IH]; [done|].
  destruct ws as [|w' ws'].
  - cbn [String.concat fmap list_fmap]. unfold split.
    rewrite <-(app_nil_r (String.list_ascii_of_string w)).
    rewrite split_from_word by done. cbn [split_from].
    rewrite !app_nil_r, reverse_involutive.
    by destruct (String.list_ascii_of_string w).
  - change (String.concat " " (w :: w' :: ws'))
      with (w +:+ " " +:+ String.concat " " (w' :: ws')).
    rewrite !list_ascii_of_string_app. unfold split.
    rewrite split_from_word by done.
    cbn [String.list_ascii_of_string app split_from].
    change (isspace (Ascii.Ascii false false false false false true false
                       false)) with true.
    cbn iota.
    rewrite app_nil_r, reverse_involutive.
    fold (split (String.list_ascii_of_string (String.concat " " (w' :: ws')))).
    rewrite IH, !fmap_cons.
    by destruct (String.list_ascii_of_string w).
Qed.

(** X14. A phrase written on a line comes back: the words of a phrase,
    each non-empty and free of whitespace, joined by single spaces and
    followed by the newline, are tokenized to the phrase again. *)
Theorem X14_tokenize_joined_words (ws : list string) :
  Forall (λ w, is_word (String.list_ascii_of_string w)) ws →
  tokenize (String.concat " " ws +:+ newline) = ws.
Proof.
  intros Hws. rewrite tokenize_split, list_ascii_of_string_app.
  unfold split. rewrite split_from_trailing_spaces.
  2:{ repeat constructor. }
  fold (split (String.list_ascii_of_string (String.concat " " ws))).
  rewrite split_concat by done. apply fmap_string_of_list_ascii.
Qed.
End tokenize_facts.

(** * The command-line tool as a whole *)

Section main_facts.
Import make_sigle_boosting_graph.
Context {W : Type} `{!Weight W}.
Variable loadtxt : string → res (list (string * Z)).
Variable determinize : VectorFst W → res (VectorFst W).
Variable readlines : string → res (list string).
Variable write : VectorFst W → string → res unit.

Lemma tokenize_filter_blank (lines : list string) :
  tokenize <$> filter (λ line, ¬ blank line) lines
  = filter (λ p, p ≠ []) (tokenize <$> lines).
Proof.
  induction lines as [|line lines IH]; [done|].
  rewrite fmap_cons, !filter_cons.
  pose proof (tokenize_nil line) as Hnil.
  destruct (decide (¬ blank line)) as [Hb|Hb],
    (decide (tokenize line ≠ [])) as [Ht|Ht].
  - by rewrite fmap_cons, IH.
  - destruct Hb. apply Hnil. destruct (tokenize line); [done|].
    by destruct Ht.
  - destruct Ht. apply Hnil. by apply dec_stable.
  - done.
Qed.

Lemma accepted_ints_nonempty_phrases word_to_int
    (phrases : list (list string)) :
  accepted_ints word_to_int (filter (λ p, p ≠ []) phrases)
  = accepted_ints word_to_int phrases.
Proof.
  induction phrases as [|p ps IH]; [done|]. rewrite filter_cons.
  destruct (decide (p ≠ [])) as [Hp|Hp].
  - destruct (phrase_ints word_to_int p) as [l|] eqn:Hl.
    + by rewrite !(accepted_ints_cons_Some _ _ _ _ Hl), IH.
    + by rewrite !(accepted_ints_cons_None _ _ _ Hl), IH.
  - assert (p = []) as -> by (destruct p; [done|by destruct Hp]).
    by rewrite IH.
Qed.

Lemma warnings_of_nonempty_phrases word_to_int
    (phrases : list (list string)) :
  warnings_of word_to_int (filter (λ p, p ≠ []) phrases)
  = warnings_of word_to_int phrases.
Proof.
  unfold warnings_of. f_equal.
  induction phrases as [|p ps IH]; [done|]. rewrite !filter_cons.
  destruct (decide (p ≠ [])) as [Hp|Hp].
  - rewrite filter_cons. destruct (decide (¬ in_vocab word_to_int p));
      by rewrite IH.
  - assert (p = []) as -> by (destruct p; [done|by destruct Hp]).
    rewrite decide_False; [done|]. intros Hv. apply Hv. constructor.
Qed.

Lemma lattice_boosting_graph_nonempty_phrases self
    (phrases : list (list string)) (wd pd : W) :
  lattice_boosting_graph determinize self (filter (λ p, p ≠ []) phrases) wd pd
  = lattice_boosting_graph determinize self phrases wd pd.
Proof.
  unfold lattice_boosting_graph. rewrite !gen_initial_graph_closed.
  by rewrite accepted_ints_nonempty_phrases, warnings_of_nonempty_phrases.
Qed.

(** X15. Blank lines of the phrase file count for nothing: [main] leaves
    behind the same automaton and the same warnings, or raises the same
    exception, as it does on the file without its lines that hold only
    whitespace; a blank line is not even logged. *)
Theorem X15_blank_lines_ignored (args : Namespace W) :
  main loadtxt determinize
    (λ path, lines ← readlines path;
             mret (filter (λ line, ¬ blank line) lines))
    write args
  = main loadtxt determinize readlines write args.
Proof.
  unfold main.
  destruct (__init__ loadtxt (words_txt args)) as [e|builder]; [done|].
  change (mbind ?k (inr ?x)) with (k x). cbn beta.
  destruct (readlines (boosted_phrases args)) as [e|lines]; [done|].
  change (mbind ?k (inr ?x)) with (k x). cbn beta.
  change (mbind ?k (mret ?x)) with (k x). cbn beta zeta.
  by rewrite tokenize_filter_blank, lattice_boosting_graph_nonempty_phrases.
Qed.

(** The boost of every accepted phrase is a weight: none is refused. *)
Lemma boost_error_accepted word_to_int (phrases : list (list string))
    (wd pd : W) :
  (∀ p l, p ∈ phrases → phrase_ints word_to_int p = Some l →
          ∃ X, to_weight (phrase_weight wd pd l) = inr X) →
  boost_error wd pd (accepted_ints word_to_int phrases) = None.
Proof.
  intros Hall. apply boost_error_None, Forall_forall. intros l Hl.
  unfold accepted_ints in Hl. apply list_elem_of_omap in Hl as (p & Hp & Hpl).
  destruct (Hall p l Hp Hpl) as [X HX].
  by rewrite (stored_weight_inr _ _ _ _ HX).
Qed.

(** X16. The content of the phrase file makes [main] fail through a
    refused boost only: once the vocabulary table holds the two reserved
    symbols, the phrase file can be read, the library accepts the boost
    of every line that is an accepted phrase as a weight, determinization
    of the raw automaton returns an automaton with a start state and the
    output can be written, [main] succeeds whatever the lines are.  The
    automaton written is the one [lattice_boosting_graph] builds from the
    tokenized lines, and the warnings are those of the lines with a token
    that is not in the vocabulary, in file order, each with the tokens of
    its line. *)
Theorem X16_main_succeeds (args : Namespace W) rows lines :
  let usable := delete "#0" (delete "<eps>" (dict_of_rows rows)) in
  loadtxt (words_txt args) = inr rows →
  "<eps>" ∈ rows.*1 → "#0" ∈ rows.*1 →
  readlines (boosted_phrases args) = inr lines →
  (∀ p l, p ∈ tokenize <$> lines → phrase_ints usable p = Some l →
          ∃ X, to_weight (phrase_weight (word_discount args)
                            (phrase_discount args) l) = inr X) →
  (∀ raw log,
     __gen_initial_graph (tokenize <$> lines) usable
       (word_discount args) (phrase_discount args) = inr (raw, log) →
     ∃ d, determinize raw = inr d ∧ has_start d) →
  (∀ g, write g (fst_out args) = inr ()) →
  ∃ self g log,
    __init__ loadtxt (words_txt args) = inr self ∧
    word_to_int self = usable ∧
    lattice_boosting_graph determinize self (tokenize <$> lines)
      (word_discount args) (phrase_discount args) = inr (g, log) ∧
    main loadtxt determinize readlines write args = inr (g, log) ∧
    log = (λ p, mkWarning (oov_words (word_to_int self) p) p)
            <$> filter (λ p, ¬ in_vocab (word_to_int self) p)
                  (tokenize <$> lines).
Proof.
  intros usable Hrows Heps Hrho Hlines Hboost Hdet Hwrite.
  destruct (init_returns loadtxt _ _ Hrows Heps Hrho) as (rho & _ & Hinit).
  fold usable in Hinit. set (self := mkBuilder usable rho) in *.
  pose proof (boost_error_accepted usable _ _ _ Hboost) as Hnone.
  destruct (Hdet _ _ (gen_initial_graph_returns _ _ _ _ Hnone))
    as (d & Hd & s_start & Hs & Hlt).
  pose proof (lattice_boosting_graph_closed determinize self
                (tokenize <$> lines) _ _ d s_start Hnone Hd Hs Hlt) as Hrun.
  eexists self, _, _. split_and!; [done|done|exact Hrun| |done].
  unfold main. rewrite Hinit.
  change (mbind ?k (inr ?x)) with (k x). cbn beta. rewrite Hlines.
  change (mbind ?k (inr ?x)) with (k x). cbn beta zeta. rewrite Hrun.
  change (mbind ?k (inr ?x)) with (k x). cbn beta iota. rewrite Hwrite.
  done.
Qed.
End main_facts.

(** * The statements on the examples *)

Example main_init : __init__ main_loadtxt "words.txt" = inr main_builder.
Proof. vm_compute. reflexivity. Qed.

Example main_gen_initial_graph :
  __gen_initial_graph main_phrases (word_to_int main_builder)
    (-4)%float (-2)%float = inr (main_raw, []).
Proof. vm_compute. reflexivity. Qed.

Example main_determinize : Determinize.determinize main_raw = inr main_det.
Proof. vm_compute. reflexivity. Qed.

(** Two phrases "a b" and "a c": after determinization the state entered
    by "a" has one arc for "b" and one for "c". *)
Example shared_prefix_determinized :
  ∃ raw d,
    __gen_initial_graph [["a"; "b"]; ["a"; "c"]] (word_to_int small_builder)
      (-4)%float (-2)%float = inr (raw, []) ∧
    Determinize.determinize raw = inr d ∧
    arcs_from d 0 = [mkArc 1 1 0%float 1] ∧
    arcs_from d 1 = [mkArc 2 2 (-10)%float 2; mkArc 3 3 (-10)%float 3].
Proof. eexists _, _. split_and!; vm_compute; reflexivity. Qed.

(** What the library makes of a boost.  The literal [0.0] is stored as it
    is; [2 * 0.1 + 0.0], the binary64 number nearest to 0.2, is stored as
    the binary32 number nearest to it, 0.20000000298023224; a boost past
    the largest binary32 number is stored as infinity; a NaN and minus
    infinity are refused. *)
Example zero_is_stored : to_weight 0%float = inr 0%float.
Proof. vm_compute. reflexivity. Qed.

Example boost_is_rounded :
  phrase_weight 0x1.999999999999ap-4%float 0%float [1; 2]%Z
  = 0x1.999999999999ap-3%float ∧
  __gen_initial_graph [["a"; "b"]] (word_to_int small_builder)
    0x1.999999999999ap-4%float 0%float
  = inr (mkFst (Some 0)
           [mkState None [mkArc 1 1 0%float 1];
            mkState None [mkArc 2 2 0x1.99999ap-3%float 2];
            mkState (Some 0%float) []], []).
Proof. split; vm_compute; reflexivity. Qed.

Example boost_overflows :
  to_weight 0x1.78287f49c4a1dp+130%float = inr infinity.
Proof. vm_compute. reflexivity. Qed.

Example boost_is_refused :
  to_weight nan = inl FstBadWeightError ∧
  to_weight neg_infinity = inl FstBadWeightError ∧
  __gen_initial_graph [["a"; "b"]] (word_to_int small_builder)
    neg_infinity 0%float = inl FstBadWeightError.
Proof. split_and!; vm_compute; reflexivity. Qed.

(** A table of one row, which the loader returns as an array without
    dimension: the constructor cannot iterate it. *)
Example one_row_table :
  __init__ (λ _, inr [("<eps>", 0%Z)]) "words.txt"
  = inl (TypeError "iteration over a 0-d array").
Proof. vm_compute. reflexivity. Qed.

(** The phrase "a b": reading "a" and returning by epsilon is an accepting
    path from the start state to itself that avoids the wildcard, of
    weight zero, next to the one that reads the phrase. *)
Lemma C1_counterexample :
  lattice_boosting_graph Determinize.determinize small_builder [["a"; "b"]]
    (-4)%float (-2)%float = inr (small_graph, []) ∧
  start small_graph = Some 0 ∧
  final_weight small_graph 0 = Some 0%float ∧
  paths small_graph 0 [1; 0]%Z 0%float = [(0, 0%float)] ∧
  paths small_graph 0 [1; 2; 0]%Z 0%float = [(0, (-10)%float)].
Proof. split_and!; vm_compute; reflexivity. Qed.

(** The example of [main()]: the longer phrase ends after four words at
    weight [4 * -4.0 + -2.0], which the library stores as it is; the
    phrase "a b" alone; and its build at a word discount of minus
    infinity. *)
Lemma C1_phrase_weight_on_last_word_witness :
  (to_weight (w_add (w_mul (w_of_len 4) (-4)%float) (-2)%float)
   = inr (-18)%float ∧
   mkArc 6 6 (-18)%float 4 ∈ arcs_from main_raw 3 ∧
   final_weight main_raw 4 = Some 0%float) ∧
  (∃ g,
     lattice_boosting_graph Determinize.determinize small_builder [["a"; "b"]]
       (-4)%float (-2)%float = inr (g, []) ∧
     start g = Some 0 ∧
     final_weight g 0 = Some 0%float ∧
     paths g 0 [1; 2; 0]%Z 0%float = [(0, (-10)%float)] ∧
     paths g 0 [1; 0]%Z 0%float = [(0, 0%float)]) ∧
  (∃ e',
     __gen_initial_graph [["a"; "b"]] (word_to_int small_builder)
       neg_infinity 0%float = inl e').
Proof.
  split; [|split].
  - destruct (proj1 (C1_phrase_weight_on_last_word Determinize.determinize
                       main_builder (-4)%float (-2)%float)
                [] ["c_s_a"; "three"; "alfa"; "bravo"]
                [["c_s_a"; "alfa"; "bravo"]] [1; 4; 5; 6]%Z 6%Z main_raw []
                eq_refl eq_refl main_gen_initial_graph)
      as (X & HX & Harc & Hfin).
    assert (X = (-18)%float) as ->.
    { vm_compute in HX. by injection HX as <-. }
    split; [vm_compute; reflexivity|]. split; [exact Harc|exact Hfin].
  - assert (valid_vocabulary small_builder) as Hvalid
      by (apply (bool_decide_unpack _); vm_compute; reflexivity).
    assert (phrase_ints (word_to_int small_builder) ["a"; "b"]
            = Some [1; 2]%Z) as Hints by (vm_compute; reflexivity).
    assert (__gen_initial_graph [["a"; "b"]] (word_to_int small_builder)
              (-4)%float (-2)%float = inr (small_raw, [])) as Hgen
      by (vm_compute; reflexivity).
    assert (Determinize.determinize small_raw = inr small_raw) as Hdet
      by (vm_compute; reflexivity).
    assert (to_weight (w_add (w_mul (w_of_len (length [1; 2]%Z)) (-4)%float)
                         (-2)%float) = inr (-10)%float) as HX
      by (vm_compute; reflexivity).
    destruct (proj1 (proj2 (C1_phrase_weight_on_last_word
                              Determinize.determinize
                              small_builder (-4)%float (-2)%float))
                ["a"; "b"] [1; 2]%Z small_raw (-10)%float
                Hints Hvalid Hgen Hdet HX eq_refl eq_refl eq_refl)
      as (g & Hrun & Hstart & Hfinal & Hphrase & Hprefix).
    exists g. split_and!; [exact Hrun|exact Hstart|exact Hfinal|exact Hphrase|].
    apply (Hprefix 1%Z); [cbn; lia|reflexivity].
  - refine (proj2 (proj2 (C1_phrase_weight_on_last_word
                            Determinize.determinize small_builder
                            neg_infinity 0%float))
              [] ["a"; "b"] [] [1; 2]%Z FstBadWeightError _ _);
      vm_compute; reflexivity.
Defined.

Lemma C2_single_final_state_witness :
  ∃ g s_start,
    lattice_boosting_graph Determinize.determinize main_builder main_phrases
      (-4)%float (-2)%float = inr (g, []) ∧
    start g = Some s_start ∧
    final_states g = [s_start] ∧
    final_weight g s_start = Some 0%float.
Proof.
  refine (C2_single_final_state Determinize.determinize main_builder
            main_phrases (-4)%float (-2)%float main_raw [] main_det _ _ _).
  - vm_compute. reflexivity.
  - vm_compute. reflexivity.
  - exists 0. split; [reflexivity|vm_compute; lia].
Defined.

Lemma C3_epsilon_back_arcs_witness :
  ∃ g s_start,
    lattice_boosting_graph Determinize.determinize main_builder main_phrases
      (-4)%float (-2)%float = inr (g, []) ∧
    start g = Some s_start ∧
    start main_det = Some s_start ∧
    num_states g = num_states main_det ∧
    ∀ s, s < num_states g → s ≠ s_start →
      filter is_epsilon (arcs_from g s) = [mkArc 0 0 0%float s_start].
Proof.
  refine (C3_epsilon_back_arcs Determinize.determinize main_builder
            main_phrases (-4)%float (-2)%float main_raw [] main_det
            _ _ _ _ _).
  - apply (bool_decide_unpack _). vm_compute. reflexivity.
  - vm_compute. reflexivity.
  - vm_compute. reflexivity.
  - exists 0. split; [reflexivity|vm_compute; lia].
  - apply (bool_decide_unpack _). vm_compute. reflexivity.
Defined.

Lemma C4_wildcard_self_loop_witness :
  ∃ g s_start,
    lattice_boosting_graph Determinize.determinize main_builder main_phrases
      (-4)%float (-2)%float = inr (g, []) ∧
    start g = Some s_start ∧
    filter (is_wildcard 9) (arcs_from g s_start) = [mkArc 9 9 0%float s_start].
Proof.
  refine (C4_wildcard_self_loop Determinize.determinize main_builder
            main_phrases (-4)%float (-2)%float main_raw [] main_det
            _ _ _ _ _).
  - apply (bool_decide_unpack _). vm_compute. reflexivity.
  - vm_compute. reflexivity.
  - vm_compute. reflexivity.
  - exists 0. split; [reflexivity|vm_compute; lia].
  - apply (bool_decide_unpack _). vm_compute. reflexivity.
Defined.

(** A phrase with an unknown word next to a known one, at a word
    discount of minus infinity: the boost of the known phrase is no
    weight, and the build raises. *)
Lemma C5_counterexample :
  __gen_initial_graph [["xyz"]; ["alfa"]] (word_to_int main_builder)
    neg_infinity 0%float = inl FstBadWeightError ∧
  lattice_boosting_graph Determinize.determinize main_builder
    [["xyz"]; ["alfa"]] neg_infinity 0%float = inl FstBadWeightError ∧
  ¬ in_vocab (word_to_int main_builder) ["xyz"] ∧
  in_vocab (word_to_int main_builder) ["alfa"].
Proof.
  split_and!.
  - vm_compute. reflexivity.
  - vm_compute. reflexivity.
  - apply (bool_decide_unpack _). vm_compute. reflexivity.
  - apply (bool_decide_unpack _). vm_compute. reflexivity.
Qed.

(** A phrase with the unknown word "xyz" and the reserved "#0" between two
    known phrases: same automaton as without it, one warning; the
    automaton accepts "bravo" and not "one". *)
Lemma C5_oov_phrases_dropped_witness :
  ∃ raw,
    __gen_initial_graph
      [["c_s_a"; "alfa"]; ["xyz"; "one"; "#0"]; ["bravo"]]
      (word_to_int main_builder) (-3)%float 0%float
    = inr (raw, [mkWarning ["xyz"; "#0"] ["xyz"; "one"; "#0"]]) ∧
    __gen_initial_graph [["c_s_a"; "alfa"]; ["bravo"]]
      (word_to_int main_builder) (-3)%float 0%float
    = inr (raw, []) ∧
    accepts raw [6%Z] ∧ ¬ accepts raw [2%Z].
Proof.
  destruct (C5_oov_phrases_dropped Determinize.determinize main_builder
              [["c_s_a"; "alfa"]; ["xyz"; "one"; "#0"]; ["bravo"]]
              (-3)%float 0%float)
    as (Hgen & Hlog & _ & _ & Hlang & _).
  destruct (__gen_initial_graph
              (filter (in_vocab (word_to_int main_builder))
                 [["c_s_a"; "alfa"]; ["xyz"; "one"; "#0"]; ["bravo"]])
              (word_to_int main_builder) (-3)%float 0%float)
    as [e|[raw log']] eqn:Hkept; [vm_compute in Hkept; discriminate|].
  pose proof (Hlog raw log' eq_refl) as ->.
  exists raw. split; [|split; [|split]].
  - rewrite Hgen. do 2 f_equal.
  - rewrite <-Hkept. f_equal.
  - apply (Hlang raw _ Hgen). exists ["bravo"]. split_and!.
    + apply list_elem_of_filter. split.
      * apply (bool_decide_unpack _). vm_compute. reflexivity.
      * apply list_elem_of_In. cbn. auto.
    + discriminate.
    + repeat constructor.
  - intros (p & Hp & _ & Hids)%(Hlang raw _ Hgen).
    apply list_elem_of_filter in Hp as [_ Hp].
    apply list_elem_of_In in Hp. cbn in Hp.
    destruct Hp as [<-|[<-|[<-|[]]]].
    + apply Forall2_length in Hids. discriminate.
    + apply Forall2_length in Hids. discriminate.
    + apply Forall2_cons_inv_l in Hids as (i & l' & Hi & _ & [= <- <-]).
      vm_compute in Hi. discriminate.
Defined.

(** The build of [[]] alone: the phrase has no ids, and nothing is logged. *)
Lemma C6_counterexample :
  lookup_words (word_to_int main_builder) [] = inr [] ∧
  __gen_initial_graph [[]] (word_to_int main_builder) (-3)%float 0%float
  = inr (mkFst (Some 0) [mkState None []], []).
Proof. split; vm_compute; reflexivity. Qed.

Lemma C6_empty_phrase_skipped_silently_witness :
  @nil string = [] ∧
  __gen_initial_graph [["alfa"]; []; ["bravo"]] (word_to_int main_builder)
    (-3)%float 0%float
  = __gen_initial_graph [["alfa"]; ["bravo"]] (word_to_int main_builder)
      (-3)%float 0%float.
Proof.
  refine (C6_empty_phrase_skipped_silently (word_to_int main_builder)
            (-3)%float 0%float [["alfa"]] [] [["bravo"]] _).
  reflexivity.
Defined.

(** A table without the ["<eps>"] row: the exception is a [KeyError]. *)
Lemma C7_counterexample :
  __init__ (λ _, inr [("a", 1%Z); ("#0", 2%Z)]) "words.txt"
  = inl (KeyError "<eps>") ∧
  exc_class (KeyError "<eps>") ≠ "VocabularyError".
Proof. split; [vm_compute; reflexivity|discriminate]. Qed.

(** The example of [main()]: eight states; both phrases begin with
    "c_s_a", and each has its own arc for it, to state 1 and to state 5;
    the second word "alfa" of the second phrase leaves state 5 at zero
    weight, and its last word "bravo" state 6 at the stored boost. *)
Lemma C8_fresh_states_per_phrase_witness :
  num_states main_raw = 8 ∧
  arc_targets main_raw ≡ₚ seq 1 7 ∧
  mkArc 1 1 0%float 1 ∈ arcs_from main_raw 0 ∧
  mkArc 1 1 0%float 5 ∈ arcs_from main_raw 0 ∧
  mkArc 5 5 0%float 6 ∈ arcs_from main_raw 5 ∧
  mkArc 6 6 (-14)%float 7 ∈ arcs_from main_raw 6.
Proof.
  destruct (C8_fresh_states_per_phrase main_phrases
              (word_to_int main_builder) (-4)%float (-2)%float main_raw []
              main_gen_initial_graph)
    as (Hnum & Htargets & Hchain & _).
  assert (sum_list (length <$> accepted_ints (word_to_int main_builder)
                                 main_phrases) = 7) as Hsum
    by (vm_compute; reflexivity).
  rewrite Hsum in Hnum. rewrite Hnum in Htargets.
  split; [exact Hnum|]. split; [exact Htargets|].
  destruct (Hchain [] ["c_s_a"; "three"; "alfa"; "bravo"]
              [["c_s_a"; "alfa"; "bravo"]] [1; 4; 5; 6]%Z eq_refl eq_refl)
    as (X1 & _ & Hfirst).
  destruct (Hchain [["c_s_a"; "three"; "alfa"; "bravo"]]
              ["c_s_a"; "alfa"; "bravo"] [] [1; 5; 6]%Z eq_refl eq_refl)
    as (X2 & HX2 & Hsecond).
  assert (X2 = (-14)%float) as ->.
  { vm_compute in HX2. by injection HX2 as <-. }
  split_and!.
  - exact (Hfirst 0 1%Z eq_refl).
  - exact (Hsecond 0 1%Z eq_refl).
  - exact (Hsecond 1 5%Z eq_refl).
  - exact (Hsecond 2 6%Z eq_refl).
Defined.

(** Every phrase dropped: the graph is the start state alone, final and
    with the wildcard self-loop. *)
Lemma C9_counterexample :
  phrase_ints (word_to_int main_builder) ["xyz"] = None ∧
  phrase_ints (word_to_int main_builder) [] = None ∧
  lattice_boosting_graph Determinize.determinize main_builder [["xyz"]; []]
    (-3)%float 0%float
  = inr (mkFst (Some 0) [mkState (Some 0%float) [mkArc 9 9 0%float 0]],
         [mkWarning ["xyz"] ["xyz"]]).
Proof. split_and!; vm_compute; reflexivity. Qed.

Lemma C9_all_phrases_dropped_witness :
  ∃ log g s_start,
    __gen_initial_graph [["xyz"]; []] (word_to_int main_builder)
      (-3)%float 0%float
    = inr (mkFst (Some 0) [mkState None []], log) ∧
    final_states (mkFst (W:=float) (Some 0) [mkState None []]) = [] ∧
    lattice_boosting_graph Determinize.determinize main_builder [["xyz"]; []]
      (-3)%float 0%float = inr (g, log) ∧
    start g = Some s_start ∧
    final_weight g s_start = Some 0%float ∧
    mkArc 9 9 0%float s_start ∈ arcs_from g s_start.
Proof.
  refine (C9_all_phrases_dropped Determinize.determinize main_builder
            [["xyz"]; []] (-3)%float 0%float
            (mkFst (Some 0) [mkState None []]) _ _ _).
  - repeat constructor.
  - vm_compute. reflexivity.
  - exists 0. split; [reflexivity|vm_compute; lia].
Defined.

(** The builder of [main()]: the phrase "one #0" is dropped. *)
Lemma C10_reserved_symbols_out_of_vocabulary_witness :
  ¬ in_vocab (word_to_int main_builder) ["one"; "#0"] ∧
  "#0" ∈ oov_words (word_to_int main_builder) ["one"; "#0"] ∧
  ∃ raw,
    __gen_initial_graph [["alfa"]; ["one"; "#0"]] (word_to_int main_builder)
      (-3)%float 0%float
    = inr (raw, [mkWarning ["#0"] ["one"; "#0"]]) ∧
    __gen_initial_graph [["alfa"]] (word_to_int main_builder)
      (-3)%float 0%float
    = inr (raw, []).
Proof.
  assert (__init__ main_loadtxt "words.txt" = inr main_builder) as Hinit
    by (vm_compute; reflexivity).
  destruct (C10_reserved_symbols_out_of_vocabulary (W:=float) main_loadtxt
              "words.txt" main_builder Hinit) as (_ & _ & _ & Hdrop).
  destruct (Hdrop ["one"; "#0"] "#0") as (Hoov & Hin & Hgen).
  - by right.
  - apply list_elem_of_In. cbn. auto.
  - split; [exact Hoov|]. split; [exact Hin|].
    destruct (Hgen [["alfa"]] [] (-3)%float 0%float) as [Hrel Hlog].
    destruct (__gen_initial_graph ([["alfa"]] ++ []) (word_to_int main_builder)
                (-3)%float 0%float)
      as [e|[raw log]] eqn:Hone; [vm_compute in Hone; discriminate|].
    pose proof (Hlog raw log eq_refl) as ->.
    exists raw. split.
    + change ([["alfa"]; ["one"; "#0"]])
        with ([["alfa"]] ++ ["one"; "#0"] :: []).
      rewrite Hrel. do 2 f_equal.
    + change ([["alfa"]]) with ([["alfa"]] ++ []) at 1.
      rewrite Hone. do 2 f_equal.
Defined.

(** The raw automaton of [main()] accepts "c_s_a alfa bravo" and not its
    prefix "c_s_a alfa". *)
Lemma X1_raw_language_witness :
  accepts main_raw [1; 5; 6]%Z ∧ ¬ accepts main_raw [1; 5]%Z.
Proof.
  pose proof (λ ids,
    X1_raw_language main_phrases (word_to_int main_builder)
      (-4)%float (-2)%float main_raw [] ids
      main_gen_initial_graph) as Hlang.
  split.
  - apply Hlang. exists ["c_s_a"; "alfa"; "bravo"]. split_and!.
    + apply list_elem_of_In. cbn. auto.
    + discriminate.
    + repeat constructor.
  - intros (p & Hp & _ & Hids)%Hlang.
    apply (Forall2_length) in Hids.
    apply list_elem_of_In in Hp. cbn in Hp.
    destruct Hp as [<-|[<-|[]]]; discriminate.
Defined.

(** The longer phrase of [main()]: its accepting path weighs
    [4 * -4.0 + -2.0], a weight the library stores as it is. *)
Lemma X2_raw_accepting_weight_witness :
  start main_raw = Some 0 ∧
  to_weight (phrase_weight (-4)%float (-2)%float [1; 4; 5; 6]%Z)
  = inr (-18)%float.
Proof.
  refine (X2_raw_accepting_weight main_phrases (word_to_int main_builder)
            (-4)%float (-2)%float main_raw [] [1; 4; 5; 6]%Z 4 (-18)%float
            _ _ _ _ _).
  - vm_compute. reflexivity.
  - reflexivity.
  - intros X HX. vm_compute in HX. injection HX as <-.
    vm_compute. reflexivity.
  - apply list_elem_of_In. vm_compute. by left.
  - by eexists.
Defined.

Lemma X3_raw_final_states_witness :
  final_states main_raw = [4; 7] ∧
  final_weight main_raw 0 = None ∧
  final_weight main_raw 7 = Some 0%float ∧ arcs_from main_raw 7 = [].
Proof.
  destruct (X3_raw_final_states main_phrases (word_to_int main_builder)
              (-4)%float (-2)%float main_raw []
              main_gen_initial_graph) as (Hfs & H0 & Hall).
  split; [exact Hfs|]. split; [exact H0|].
  apply Hall. by eexists.
Defined.

Lemma X4_raw_branching_witness :
  (λ a, (ilabel a, olabel a)) <$> arcs_from main_raw 0 = [(1, 1); (1, 1)]%Z ∧
  length (arcs_from main_raw 0) = 2 ∧
  length (arcs_from main_raw 5) ≤ 1.
Proof.
  destruct (X4_raw_branching main_phrases (word_to_int main_builder)
              (-4)%float (-2)%float main_raw []
              main_gen_initial_graph) as (Hlab & Hlen & Hdeg).
  split; [exact Hlab|]. split; [exact Hlen|].
  apply Hdeg. discriminate.
Defined.

(** The first phrase of [main()] alone, then an unknown phrase and the
    second phrase. *)
Lemma X5_append_phrases_witness :
  ∃ raw1 raw log,
    __gen_initial_graph [["c_s_a"; "three"; "alfa"; "bravo"]]
      (word_to_int main_builder) (-4)%float (-2)%float = inr (raw1, []) ∧
    __gen_initial_graph
      [["c_s_a"; "three"; "alfa"; "bravo"]; ["xyz"]; ["c_s_a"; "alfa"; "bravo"]]
      (word_to_int main_builder) (-4)%float (-2)%float = inr (raw, log) ∧
    log = [] ++ [mkWarning ["xyz"] ["xyz"]] ∧
    num_states raw + 1 = num_states raw1 + 4 ∧
    states raw !! 3 = states raw1 !! 3 ∧
    arcs_from raw1 0 `prefix_of` arcs_from raw 0.
Proof.
  pose proof (gen_initial_graph_closed
                [["c_s_a"; "three"; "alfa"; "bravo"]]
                (word_to_int main_builder) (-4)%float (-2)%float) as H1.
  pose proof (gen_initial_graph_closed
                [["xyz"]; ["c_s_a"; "alfa"; "bravo"]]
                (word_to_int main_builder) (-4)%float (-2)%float) as H2.
  pose proof (gen_initial_graph_closed
                ([["c_s_a"; "three"; "alfa"; "bravo"]]
                 ++ [["xyz"]; ["c_s_a"; "alfa"; "bravo"]])
                (word_to_int main_builder) (-4)%float (-2)%float) as H12.
  destruct (X5_append_phrases _ _ _ _ _ _ _ _ _ _ _ H1 H2 H12)
    as (Hlog & Hnum & Hkeep & Hpre).
  eexists _, _, _. split; [|split; [exact H12|]].
  - rewrite H1. f_equal.
  - split; [exact Hlog|]. split; [exact Hnum|]. split; [|exact Hpre].
    apply Hkeep. vm_compute. lia.
Defined.

(** The phrases of [main()] with the discounts of [main()] and with the
    defaults of the command line. *)
Lemma X6_discounts_only_weights_witness :
  ∃ raw',
    __gen_initial_graph main_phrases (word_to_int main_builder)
      (-3)%float 0%float = inr (raw', []) ∧
    skeleton main_raw = skeleton raw'.
Proof.
  pose proof (gen_initial_graph_closed main_phrases
                (word_to_int main_builder) (-3)%float 0%float) as H'.
  destruct (X6_discounts_only_weights main_phrases
              (word_to_int main_builder) (-4)%float (-2)%float
              (-3)%float 0%float main_raw [] _ _
              main_gen_initial_graph H') as [Hsk Hlog].
  eexists. split; [|exact Hsk]. rewrite H'. by rewrite <-Hlog.
Defined.

Lemma X7_rewrite_appends_one_arc_witness :
  ∃ g s_start,
    lattice_boosting_graph Determinize.determinize main_builder main_phrases
      (-4)%float (-2)%float = inr (g, []) ∧
    start main_det = Some s_start ∧ start g = Some s_start ∧
    num_states g = num_states main_det ∧
    ∀ s, s < num_states main_det →
      arcs_from g s
      = arcs_from main_det s
        ++ [if decide (s = s_start) then mkArc 9 9 0%float s_start
            else mkArc 0 0 0%float s_start].
Proof.
  refine (X7_rewrite_appends_one_arc Determinize.determinize main_builder
            main_phrases (-4)%float (-2)%float main_raw [] main_det _ _ _).
  - vm_compute. reflexivity.
  - vm_compute. reflexivity.
  - exists 0. split; [reflexivity|vm_compute; lia].
Defined.

(** The path of the longer phrase through the determinized automaton of
    [main()] is still there in the boosting graph. *)
Lemma X8_rewrite_keeps_paths_witness :
  ∃ g,
    lattice_boosting_graph Determinize.determinize main_builder main_phrases
      (-4)%float (-2)%float = inr (g, []) ∧
    (6, (-18)%float) ∈ paths g 0 [1; 4; 5; 6]%Z 0%float.
Proof.
  refine (X8_rewrite_keeps_paths Determinize.determinize main_builder
            main_phrases (-4)%float (-2)%float main_raw [] main_det
            [1; 4; 5; 6]%Z 0 0%float 6 (-18)%float _ _ _ _).
  - vm_compute. reflexivity.
  - vm_compute. reflexivity.
  - exists 0. split; [reflexivity|vm_compute; lia].
  - apply list_elem_of_In. vm_compute. by left.
Defined.

(** A word discount of minus infinity, whose boosts the library refuses;
    a determinization that raises; and one that returns the automaton
    without states. *)
Lemma X9_build_failures_witness :
  lattice_boosting_graph Determinize.determinize main_builder main_phrases
    neg_infinity 0%float = inl FstBadWeightError ∧
  lattice_boosting_graph failing_determinize main_builder main_phrases
    (-4)%float (-2)%float = inl (ExternalError "FstOpError") ∧
  lattice_boosting_graph empty_determinize main_builder main_phrases
    (-4)%float (-2)%float = inl out_of_range.
Proof.
  split_and!.
  - destruct (X9_build_failures Determinize.determinize main_builder
                main_phrases neg_infinity 0%float FstBadWeightError)
      as [Hiff _].
    apply Hiff. left. vm_compute. reflexivity.
  - destruct (X9_build_failures failing_determinize main_builder
                main_phrases (-4)%float (-2)%float
                (ExternalError "FstOpError")) as [Hiff _].
    apply Hiff. right. exists main_raw, [].
    split; [exact main_gen_initial_graph|]. by left.
  - destruct (X9_build_failures empty_determinize main_builder
                main_phrases (-4)%float (-2)%float out_of_range)
      as [Hiff _].
    apply Hiff. right. exists main_raw, [].
    split; [exact main_gen_initial_graph|].
    right. exists Fst.empty. split_and!; [done| |done].
    by intros (s & [=] & _).
Defined.

Lemma X10_final_weights_discarded_witness :
  lattice_boosting_graph Determinize.determinize main_builder main_phrases
    (-4)%float (-2)%float
  = lattice_boosting_graph reweighted_determinize main_builder main_phrases
      (-4)%float (-2)%float.
Proof.
  refine (X10_final_weights_discarded Determinize.determinize
            reweighted_determinize main_builder main_phrases
            (-4)%float (-2)%float main_raw [] main_det
            (mkFst (start main_det)
               ((λ st, mkState (Some 1%float) (arcs st)) <$> states main_det))
            _ _ _ _ _); vm_compute; reflexivity.
Defined.

(** Two rows for "a" and two for "#0": the later ones count. *)
Lemma X11_last_row_wins_witness :
  ∃ self,
    __init__ (λ _, inr repeated_words) "words.txt" = inr self ∧
    word_to_int self !! "a" = Some 7%Z ∧
    word_to_int self !! "#0" = None ∧
    rho_int self = 5%Z.
Proof.
  destruct (__init__ (λ _, inr repeated_words) "words.txt")
    as [e|self] eqn:Hinit; [vm_compute in Hinit; discriminate|].
  destruct (X11_last_row_wins (λ _, inr repeated_words) "words.txt" self
              repeated_words eq_refl Hinit) as (Hw & _ & Hrho & Hr).
  exists self. split; [reflexivity|]. split_and!.
  - rewrite (Hw "a") by discriminate. vm_compute. reflexivity.
  - exact Hrho.
  - apply (inj Some). rewrite Hr. vm_compute. reflexivity.
Defined.

Lemma X14_tokenize_joined_words_witness :
  make_sigle_boosting_graph.tokenize
    (String.concat " " ["c_s_a"; "alfa"; "bravo"]
     +:+ make_sigle_boosting_graph.newline)
  = ["c_s_a"; "alfa"; "bravo"].
Proof.
  refine (X14_tokenize_joined_words ["c_s_a"; "alfa"; "bravo"] _).
  apply (bool_decide_unpack _). vm_compute. reflexivity.
Defined.

(** The phrase file with a blank line and an unknown word, over the
    vocabulary of [main()]. *)
Lemma X16_main_succeeds_witness :
  ∃ self g,
    __init__ main_loadtxt "words.txt" = inr self ∧
    word_to_int self = word_to_int main_builder ∧
    lattice_boosting_graph Determinize.determinize self
      (make_sigle_boosting_graph.tokenize <$> phrase_lines)
      (-4)%float (-2)%float
    = inr (g, [mkWarning ["xyz"] ["xyz"; "one"]]) ∧
    make_sigle_boosting_graph.main main_loadtxt Determinize.determinize
      phrase_readlines phrase_write phrase_args
    = inr (g, [mkWarning ["xyz"] ["xyz"; "one"]]).
Proof.
  destruct (X16_main_succeeds main_loadtxt Determinize.determinize
              phrase_readlines phrase_write phrase_args
              main_words phrase_lines)
    as (self & g & log & Hinit & Hdict & Hrun & Hmain & Hlog).
  - reflexivity.
  - apply list_elem_of_In. cbn. auto.
  - apply list_elem_of_In. cbn. auto 12.
  - reflexivity.
  - intros p l Hp Hl. apply list_elem_of_In in Hp. vm_compute in Hp.
    destruct Hp as [<-|[<-|[<-|[<-|[]]]]]; vm_compute in Hl;
      try discriminate; injection Hl as <-;
      eexists; vm_compute; reflexivity.
  - intros raw log Hgen. vm_compute in Hgen. injection Hgen as <- _.
    exists main_det. split; [vm_compute; reflexivity|].
    exists 0. split; [reflexivity|vm_compute; lia].
  - reflexivity.
  - assert (log = [mkWarning ["xyz"] ["xyz"; "one"]]) as ->.
    { rewrite Hlog, Hdict. vm_compute. reflexivity. }
    exists self, g.
    split_and!; [exact Hinit|exact Hdict|exact Hrun|exact Hmain].
Defined.

(** The longer phrase of [main()], and its prefix "c_s_a three": both are
    followed by the way back to the start state. *)
Lemma X17_return_to_start_witness :
  ∃ g,
    lattice_boosting_graph Determinize.determinize main_builder main_phrases
      (-4)%float (-2)%float = inr (g, []) ∧
    start g = Some 0 ∧
    final_weight g 0 = Some 0%float ∧
    (0, ((-18) + 0)%float) ∈ paths g 0 ([1; 4; 5; 6] ++ [0])%Z 0%float ∧
    (0, (0 + 0)%float) ∈ paths g 0 [9%Z] 0%float.
Proof.
  refine (X17_return_to_start Determinize.determinize main_builder
            main_phrases (-4)%float (-2)%float main_raw [] main_det 0
            [1; 4; 5; 6]%Z 6 (-18)%float _ _ _ _ _ _ _).
  - vm_compute. reflexivity.
  - vm_compute. reflexivity.
  - reflexivity.
  - vm_compute. lia.
  - apply list_elem_of_In. vm_compute. by left.
  - vm_compute. lia.
  - discriminate.
Defined.
